(** * The movie scraping pipeline of [dags/project.py]

    A shallow embedding of the extraction pipeline (URL and title
    normalisation, the list collector with its two-level deduplication,
    the per-movie detail extractor with its three score tiers, and the
    batch coordinator with its admission gate), followed by the
    properties established about it.

    Conventions.
    - A Python [str] is a list of characters ([str := list ascii]); the
      character classes ([\s], [\w], [\d], [str.lower]) are the ones
      Python uses on ASCII text. Python's classes are wider on other
      characters (an accented letter is a word character, U+00A0 is
      white space), so every property that depends on what a class
      holds is stated for texts of ASCII characters ([ascii_text]).
    - A Python [dict] is an association list in insertion order.
    - Calls into the rendering engine are answered by an explicit record
      of observations (what the page returned, or that the call raised),
      so that every function of the pipeline is a total Rocq function of
      its arguments and of those observations.
    - The interpreter is CPython with its default settings: [int]
      refuses a string of more than 4300 digits. *)

From Stdlib Require Import List Ascii String NArith ZArith Arith Bool Lia.
From Stdlib Require Import Decimal DecimalString.
Import ListNotations.

Open Scope string_scope.
Open Scope list_scope.

(* ================================================================== *)
(** * Part I. The embedding                                            *)
(* ================================================================== *)

(** ** Python strings *)

Module PyStr.

Definition str := list ascii.

(** String literals are read as character lists. *)
Coercion list_ascii_of_string : string >-> list.

Definition code (c : ascii) : N := N_of_ascii c.

Definition between (lo hi : N) (c : ascii) : bool :=
  (lo <=? code c)%N && (code c <=? hi)%N.

Definition is_char (d c : ascii) : bool := Ascii.eqb c d.

(** A character of the ASCII range, and a text made of such
    characters ([s.isascii()]). *)
Definition is_ascii (c : ascii) : bool := (code c <? 128)%N.

Definition ascii_text (s : str) : bool := forallb is_ascii s.

(** [c in chars] for a character [c]. *)
Definition char_in (chars : str) (c : ascii) : bool :=
  existsb (Ascii.eqb c) chars.

Definition is_upper (c : ascii) : bool := between 65 90 c.
Definition is_lower (c : ascii) : bool := between 97 122 c.
Definition is_alpha (c : ascii) : bool := is_upper c || is_lower c.
Definition is_digit (c : ascii) : bool := between 48 57 c.

(** [str.isspace] and the regular expression class [\s]: tab, line
    feed, vertical tab, form feed, carriage return, the four
    separators 0x1c-0x1f and the space. *)
Definition is_space (c : ascii) : bool :=
  between 9 13 c || between 28 32 c.

(** The regular expression class [\w]: letters, digits, underscore. *)
Definition is_word (c : ascii) : bool :=
  is_alpha c || is_digit c || is_char "_" c.

Definition to_lower (c : ascii) : ascii :=
  if is_upper c then ascii_of_N (code c + 32) else c.

(** [s.lower()] *)
Definition lower (s : str) : str := map to_lower s.

Fixpoint str_eqb (a b : str) : bool :=
  match a, b with
  | [], [] => true
  | x :: a', y :: b' => Ascii.eqb x y && str_eqb a' b'
  | _, _ => false
  end.

(** [not s] *)
Definition is_empty (s : str) : bool :=
  match s with [] => true | _ => false end.

(** [s.startswith(p)] *)
Fixpoint startswith (p s : str) : bool :=
  match p, s with
  | [], _ => true
  | x :: p', y :: s' => Ascii.eqb x y && startswith p' s'
  | _ :: _, [] => false
  end.

Fixpoint drop_while (p : ascii -> bool) (s : str) : str :=
  match s with
  | [] => []
  | c :: t => if p c then drop_while p t else s
  end.

Fixpoint take_while (p : ascii -> bool) (s : str) : str :=
  match s with
  | [] => []
  | c :: t => if p c then c :: take_while p t else []
  end.

(** Removal of the trailing characters that satisfy [p]. *)
Fixpoint rstrip_with (p : ascii -> bool) (s : str) : str :=
  match s with
  | [] => []
  | c :: t =>
      match rstrip_with p t with
      | [] => if p c then [] else [c]
      | r => c :: r
      end
  end.

(** [s.rstrip('/')] *)
Definition rstrip_slash (s : str) : str := rstrip_with (is_char "/") s.

(** [s.strip()] *)
Definition strip (s : str) : str :=
  rstrip_with is_space (drop_while is_space s).

(** [s.split(d)[0]]: the text before the first [d] (all of [s] when
    [d] does not occur). *)
Definition before_first (d : ascii) (s : str) : str :=
  take_while (fun c => negb (is_char d c)) s.

(** [s.replace(' ', '')] *)
Definition remove_spaces (s : str) : str :=
  filter (fun c => negb (is_char " " c)) s.

(** [d in s] for a character [d]. *)
Definition contains (d : ascii) (s : str) : bool := existsb (is_char d) s.

(** [re.sub(r'\s+', ' ', s)]: every maximal run of whitespace becomes
    one space. [in_run] tells that the previous character was
    whitespace, whose run has already been replaced. *)
Fixpoint sub_spaces (in_run : bool) (s : str) : str :=
  match s with
  | [] => []
  | c :: t =>
      if is_space c
      then if in_run then sub_spaces true t else " "%char :: sub_spaces true t
      else c :: sub_spaces false t
  end.

(** [re.sub(r'[^\w\s]', '', s)] *)
Definition sub_non_word (s : str) : str :=
  filter (fun c => is_word c || is_space c) s.

End PyStr.
Export PyStr.

(** ** [urllib.parse.urlparse]

    The library function the normaliser calls, after CPython's
    [urllib/parse.py]. It either returns the components of the URL or
    raises [ValueError]. The validation of a bracketed host (an IPv6 or
    IPvFuture literal) is left to the parameter [bracketed_netloc_ok]. *)

Module UrlLib.

Record ParseResult := {
  scheme : str;
  netloc : str;
  path : str;
  params : str;
  query : str;
  fragment : str
}.

Definition scheme_char (c : ascii) : bool :=
  is_alpha c || is_digit c || char_in "+-." c.

(** [_WHATWG_C0_CONTROL_OR_SPACE] *)
Definition c0_control_or_space (c : ascii) : bool := between 0 32 c.

(** [_UNSAFE_URL_BYTES_TO_REMOVE] *)
Definition unsafe_url_byte (c : ascii) : bool :=
  is_char "009" c || is_char "013" c || is_char "010" c.

Definition uses_params : list str :=
  [ "" : str; "ftp" : str; "hdl" : str; "prospero" : str; "http" : str;
    "imap" : str; "https" : str; "shttp" : str; "rtsp" : str;
    "rtspu" : str; "sip" : str; "sips" : str; "mms" : str; "sftp" : str;
    "tel" : str ].

(** The scheme and the rest of [url]: when a colon occurs at a
    position [i > 0], the first character is a letter and everything
    before the colon is a scheme character, the scheme is
    [url[:i].lower()] and the rest is [url[i+1:]]. *)
Definition split_scheme (url : str) : str * str :=
  let head := take_while (fun c => negb (is_char ":" c)) url in
  match drop_while (fun c => negb (is_char ":" c)) url, head with
  | _ :: rest, c :: _ =>
      if is_alpha c && forallb scheme_char head
      then (lower head, rest)
      else ([], url)
  | _, _ => ([], url)
  end.

Definition netloc_delim (c : ascii) : bool := char_in "/?#" c.

(** A character of the network location. *)
Definition host_char (c : ascii) : bool := negb (netloc_delim c).

(** [_splitnetloc(url, 2)] for a [url] that starts with two slashes,
    given here without them. *)
Definition splitnetloc (after_slashes : str) : str * str :=
  (take_while host_char after_slashes, drop_while host_char after_slashes).

(** [for b in _UNSAFE_URL_BYTES_TO_REMOVE: url = url.replace(b, "")] *)
Definition clean (url : str) : str :=
  filter (fun c => negb (unsafe_url_byte c)) url.

(** The text after the first [d], empty when [d] does not occur. *)
Definition after_first (d : ascii) (s : str) : str :=
  match drop_while (fun c => negb (is_char d c)) s with
  | [] => []
  | _ :: t => t
  end.

(** The last path segment and what precedes it, the last slash
    included. *)
Fixpoint split_last_segment (s : str) : str * str :=
  match s with
  | [] => ([], [])
  | c :: t =>
      let (dir, seg) := split_last_segment t in
      if is_char "/" c then (c :: dir, seg)
      else match dir with
           | [] => ([], c :: seg)
           | _ => (c :: dir, seg)
           end
  end.

(** [_splitparams(url)]: the first semicolon of the last segment
    separates the parameters. *)
Definition splitparams (url : str) : str * str :=
  let (dir, seg) := split_last_segment url in
  (dir ++ before_first ";" seg, after_first ";" seg).

Section Parse.

Variable bracketed_netloc_ok : str -> bool.

(** The checks that make [urlsplit] raise [ValueError]: a bracket
    without its partner, or a bracketed host that is not valid. *)
Definition netloc_rejected (nl : str) : bool :=
  xorb (contains "[" nl) (contains "]" nl)
  || (contains "[" nl && negb (bracketed_netloc_ok nl)).

(** [urlsplit(url)]; [None] stands for [ValueError]. *)
Definition urlsplit (url0 : str) : option ParseResult :=
  let url := drop_while c0_control_or_space url0 in
  let url := clean url in
  let (sch, url) := split_scheme url in
  let located :=
    match url with
    | "/"%char :: "/"%char :: rest =>
        let (nl, url') := splitnetloc rest in
        if netloc_rejected nl then None else Some (nl, url')
    | _ => Some ([], url)
    end in
  match located with
  | None => None
  | Some (nl, url) =>
      let frag := after_first "#" url in
      let url := before_first "#" url in
      let qry := after_first "?" url in
      let url := before_first "?" url in
      Some {| scheme := sch; netloc := nl; path := url; params := [];
              query := qry; fragment := frag |}
  end.

(** [urlparse(url)] *)
Definition urlparse (url : str) : option ParseResult :=
  match urlsplit url with
  | None => None
  | Some r =>
      if existsb (str_eqb (scheme r)) uses_params && contains ";" (path r)
      then let (p, prm) := splitparams (path r) in
           Some {| scheme := scheme r; netloc := netloc r; path := p;
                   params := prm; query := query r;
                   fragment := fragment r |}
      else Some r
  end.

End Parse.

End UrlLib.

(** ** [normalize_url] and [normalize_title] *)

Module Normalize.

Import UrlLib.

Definition site_origin : str := "https://www.rottentomatoes.com".

Section WithUrlLib.

Variable bracketed_netloc_ok : str -> bool.

Definition normalize_url (url : str) : str :=
  match url with
  | [] => []
  | _ =>
      let url :=
        if startswith "http://" url || startswith "https://" url then url
        else if startswith "//" url then "https:" ++ url
        else if startswith "/" url then site_origin ++ url
        else url in
      match urlparse bracketed_netloc_ok url with
      | Some parsed =>
          rstrip_slash (scheme parsed ++ "://" ++ netloc parsed ++ path parsed)
      | None =>
          rstrip_slash (before_first "#" (before_first "?" url))
      end
  end.

End WithUrlLib.

(** [lower], [strip], [\s] and [\w] are the ASCII ones: the
    definition is that of the source on titles of ASCII characters. *)
Definition normalize_title (title : str) : str :=
  match title with
  | [] => []
  | _ =>
      let title := strip (lower title) in
      let title := sub_spaces false title in
      sub_non_word title
  end.

(** *** Notions used to state the properties of the normalisers *)

(** The whitespace-separated tokens of a text. *)
Fixpoint words (s : str) : list str :=
  match s with
  | [] => []
  | c :: t =>
      if is_space c then words t
      else match t with
           | [] => [[c]]
           | c' :: _ =>
               if is_space c' then [c] :: words t
               else match words t with
                    | w :: ws => (c :: w) :: ws
                    | [] => [[c]]
                    end
           end
  end.

(** The space that collapsing the whitespace of [s] leaves in front
    of its first token: one when [s] begins with whitespace and has a
    token, none otherwise. *)
Definition leading_space (s : str) : str :=
  match s, words s with
  | c :: _, _ :: _ => if is_space c then " " else []
  | _, _ => []
  end.

(** The tokens of a title, each in lower case and without its
    punctuation (the characters that are neither word characters nor
    whitespace). *)
Definition title_tokens (title : str) : list str :=
  map (fun w => sub_non_word (lower w)) (words title).

(** What is left of a title when letter case, punctuation and the
    amount of whitespace are disregarded. *)
Definition title_skeleton (title : str) : list str :=
  words (sub_non_word (lower title)).

(** The hrefs the listing pages carry: absolute [http(s)] URLs and
    hrefs relative to the site or to the protocol. *)
Definition site_href (href : str) : bool :=
  startswith "http://" href || startswith "https://" href
  || startswith "/" href.

(** A character that starts neither the query string nor the
    fragment. *)
Definition path_char (c : ascii) : bool :=
  negb (is_char "?" c) && negb (is_char "#" c).

(** The part of an href before its query string and its fragment. *)
Definition path_part (href : str) : str := take_while path_char href.

(** A character that the parser keeps and that is no delimiter of a
    query, fragment, parameter or bracketed host. *)
Definition plain_char (c : ascii) : bool :=
  negb (char_in "?#;[]" c) && negb (UrlLib.unsafe_url_byte c).

(** A query string, a fragment, both or neither: what may follow the
    path of a URL. *)
Definition query_and_fragment (q : str) : bool :=
  match q with
  | [] => true
  | c :: _ => negb (path_char c)
  end.

(** [s.endswith('/')] *)
Definition ends_with_slash (s : str) : bool :=
  match List.rev s with
  | c :: _ => is_char "/" c
  | [] => false
  end.

End Normalize.

(** ** Python values, dictionaries and the rendering engine *)

Module Py.

(** The outcome of a call that may raise; an exception is represented
    by its text, [str(e)]. *)
Inductive observed (A : Type) :=
| Got (a : A)
| Raised (e : str).
Arguments Got {A} a.
Arguments Raised {A} e.

(** The values the pipeline stores in its records. *)
Inductive value :=
| VNone
| VInt (z : Z)
| VStr (s : str).

(** A [dict] with string keys, in insertion order. *)
Definition dict := list (string * value).

(** [d.get(k)] *)
Fixpoint get (k : string) (d : dict) : value :=
  match d with
  | [] => VNone
  | (k', v) :: d' => if String.eqb k k' then v else get k d'
  end.

(** [d[k] = v]: an existing key keeps its place. *)
Fixpoint set (k : string) (v : value) (d : dict) : dict :=
  match d with
  | [] => [(k, v)]
  | (k', v') :: d' =>
      if String.eqb k k' then (k, v) :: d' else (k', v') :: set k v d'
  end.

Definition keys (d : dict) : list string := map fst d.

Definition is_none (v : value) : bool :=
  match v with VNone => true | _ => false end.

Definition digit_value (c : ascii) : N := (code c - 48)%N.

(** The number that a run of decimal digits writes. *)
Definition int_of_digits (ds : str) : N :=
  fold_left (fun n c => (10 * n + digit_value c)%N) ds 0%N.

(** [str(n)] for a natural number. *)
Definition str_of_N (n : N) : str :=
  list_ascii_of_string (NilEmpty.string_of_uint (N.to_uint n)).

(** [sys.get_int_max_str_digits()], at CPython's default. *)
Definition max_str_digits : nat := 4300.

(** The text of the [ValueError] that [int] raises for a string of
    [n] digits, [n] above the limit. *)
Definition int_limit_error (n : nat) : str :=
  "Exceeds the limit (4300 digits) for integer string conversion: value has "
  ++ str_of_N (N.of_nat n)
  ++ " digits; use sys.set_int_max_str_digits() to increase the limit".

(** [int(digits)] for a run of decimal digits: the number it writes,
    or a [ValueError] when the run is longer than the limit. A run of
    at most three digits, as the score patterns [\d{1,3}] capture, is
    always converted, and [int_of_digits] is used for it. *)
Definition int_of_str (ds : str) : observed N :=
  if (max_str_digits <? List.length ds)%nat
  then Raised (int_limit_error (List.length ds))
  else Got (int_of_digits ds).

(** [re.search(r'(\d+)', s)]: the first run of digits. *)
Definition search_digits (s : str) : option str :=
  match drop_while (fun c => negb (is_digit c)) s with
  | [] => None
  | rest => Some (take_while is_digit rest)
  end.

(** [re.search(r'(\d{1,3})', s)]: at most three digits of that run. *)
Definition search_digits_1_3 (s : str) : option str :=
  match search_digits s with
  | None => None
  | Some ds => Some (firstn 3 ds)
  end.

(** [re.search(r'^(\d{1,3})%?$', s)] on a stripped text. *)
Definition match_score_text (s : str) : option str :=
  let ds := take_while is_digit s in
  let rest := drop_while is_digit s in
  if (1 <=? List.length ds)%nat && (List.length ds <=? 3)%nat
     && (str_eqb rest [] || str_eqb rest "%")
  then Some ds else None.

(** [sep.join(parts)] *)
Fixpoint join (sep : str) (parts : list str) : str :=
  match parts with
  | [] => []
  | [p] => p
  | p :: rest => p ++ sep ++ join sep rest
  end.

(** [needle in hay] for strings. *)
Fixpoint is_substring (needle hay : str) : bool :=
  startswith needle hay ||
  match hay with
  | [] => false
  | _ :: hay' => is_substring needle hay'
  end.

End Py.
Export Py.

Module Engine.

(** The calls into the rendering engine made by the detail extractor. *)
Inductive call :=
| StartPlaywright   (* entering [async with async_playwright()] *)
| Launch            (* p.chromium.launch *)
| NewPage           (* browser.new_page *)
| SetViewport
| Goto
| WaitScorecard
| ReadCritics       (* wait_for_selector + text_content, critic score *)
| ReadAudience      (* the same for the audience score *)
| Evaluate          (* page.evaluate of the score script *)
| QueryAllTexts     (* query_selector_all('rt-text') and its reads *)
| ReadInfoSection
| CloseBrowser.

(** Computations that may raise and that record the calls they make. *)
Definition M (A : Type) : Type := list call -> observed A * list call.

Definition ret {A} (a : A) : M A := fun log => (Got a, log).

Definition bind {A B} (m : M A) (f : A -> M B) : M B :=
  fun log =>
    match m log with
    | (Got a, log') => f a log'
    | (Raised e, log') => (Raised e, log')
    end.

(** An engine call [c] answered by the observation [o]. *)
Definition perform {A} (c : call) (o : observed A) : M A :=
  fun log => (o, log ++ [c]).

(** A computation of the interpreter that calls no engine and may
    raise. *)
Definition lift {A} (o : observed A) : M A := fun log => (o, log).

(** [try: m except Exception as e: h e] *)
Definition try_except {A} (m : M A) (h : str -> M A) : M A :=
  fun log =>
    match m log with
    | (Got a, log') => (Got a, log')
    | (Raised e, log') => h e log'
    end.

Definition run {A} (m : M A) : observed A * list call := m [].

Definition outcome {A} (m : M A) : observed A := fst (run m).
Definition calls {A} (m : M A) : list call := snd (run m).

End Engine.
Export Engine.

Declare Scope engine_scope.
Delimit Scope engine_scope with engine.
Notation "x <- m ;; k" := (bind m (fun x => k))
  (at level 61, m at next level, right associativity) : engine_scope.
Notation "m ;;; k" := (bind m (fun _ => k))
  (at level 61, right associativity) : engine_scope.

(** ** The list collector: [scrape_list_pages] *)

Module ListCollector.

Import Normalize.

(** An accepted entry, [{"title": ..., "url": ...}]. *)
Record movie := { movie_title : str; movie_url : str }.

(** What the engine reports for one candidate link: the number of
    title elements under it, their text, and the [href] attribute. *)
Record link := {
  title_count : nat;
  inner_text : str;
  href : option str
}.

(** What the engine reports for one listing page: the links found by
    the primary locator and by the broader fallback locator. Reading
    a link may raise. *)
Record listing_page := {
  primary_links : list (observed link);
  fallback_links : list (observed link)
}.

(** [movies_dict]: normalised URL to entry, in insertion order. *)
Definition movies_dict := list (str * movie).

(** [key in movies_dict] *)
Definition has_key (key : str) (d : movies_dict) : bool :=
  existsb (fun kv => str_eqb key (fst kv)) d.

(** [movies_dict[key] = m] *)
Fixpoint store (key : str) (m : movie) (d : movies_dict) : movies_dict :=
  match d with
  | [] => [(key, m)]
  | (k, m') :: d' =>
      if str_eqb key k then (key, m) :: d' else (k, m') :: store key m d'
  end.

(** [list(movies_dict.values())] *)
Definition values (d : movies_dict) : list movie := map snd d.

(** [{normalize_title(m['title']) for m in movies_dict.values()}] *)
Definition existing_titles (d : movies_dict) : list str :=
  map (fun m => normalize_title (movie_title m)) (values d).

Definition ui_labels : list str :=
  [ "tomatometer" : str; "audience score" : str; "popcornmeter" : str;
    "score" : str ].

(** [PAGES = list(range(0, 8))] *)
Definition PAGES : list nat := seq 0 8.

Section Collect.

Variable bracketed_netloc_ok : str -> bool.

(** The first half of the loop body: the reading of a link and the
    filters on its title and href. It yields the normalised URL and
    the stripped title of the candidate, or nothing when the link
    is skipped (a [continue], or the [except] clause when a read
    raises). *)
Definition candidate (l : observed link) : option (str * str) :=
  match l with
  | Raised _ => None
  | Got l =>
      if (title_count l =? 0)%nat then None
      else
        let title := inner_text l in
        if is_empty title || is_empty (strip title) then None
        else
          let title := strip title in
          if existsb (str_eqb (lower title)) ui_labels then None
          else
            match href l with
            | None => None
            | Some [] => None
            | Some h =>
                let normalized_url := normalize_url bracketed_netloc_ok h in
                let normalized_title := normalize_title title in
                if is_empty normalized_url || is_empty normalized_title
                then None
                else Some (normalized_url, title)
            end
  end.

(** The body of the loop over the links of a page: a candidate is
    stored unless its normalised URL is a key of [movies_dict] or
    its normalised title is the normalised title of a stored
    entry. *)
Definition process_link (d : movies_dict) (l : observed link)
  : movies_dict :=
  match candidate l with
  | None => d
  | Some (normalized_url, title) =>
      if has_key normalized_url d then d
      else if existsb (str_eqb (normalize_title title))
                      (existing_titles d)
      then d
      else store normalized_url
             {| movie_title := title; movie_url := normalized_url |} d
  end.

(** One iteration of the loop over [PAGES]: a page that fails to
    load is skipped; the fallback locator is used when the primary
    one finds nothing. *)
Definition process_page (d : movies_dict) (p : observed listing_page)
  : movies_dict :=
  match p with
  | Raised _ => d
  | Got p =>
      let movie_links :=
        if (List.length (primary_links p) =? 0)%nat
        then fallback_links p else primary_links p in
      fold_left process_link movie_links d
  end.

(** The dictionary after the pages [pages] have been visited. *)
Definition collect (site : nat -> observed listing_page)
  (pages : list nat) : movies_dict :=
  fold_left (fun d page_num => process_page d (site page_num)) pages [].

Definition scrape_list_pages (site : nat -> observed listing_page)
  : list movie :=
  values (collect site PAGES).

End Collect.

(** The dedup invariant of [movies_dict]: its keys are pairwise
    distinct, the normalised titles of its entries are pairwise
    distinct, and every entry is stored under its own URL. *)
Definition dedup_ok (d : movies_dict) : Prop :=
  NoDup (map fst d)
  /\ NoDup (existing_titles d)
  /\ Forall (fun kv => movie_url (snd kv) = fst kv) d.

End ListCollector.

(** ** The detail extractor: [scrape_movie_metadata_efficient] *)

Module DetailExtractor.

(** A labelled row of the info panel: the label text (when a label
    element exists) and the texts of its value elements. *)
Record info_item := {
  item_label : option str;
  item_values : list str
}.

(** What the engine answers during one extraction. The first three
    fields answer the set-up calls of lines 155-160, which are made
    outside the [try] statement; each of the others is the answer to
    one guarded block of the source, [Raised] standing for any
    exception raised inside that block. Leaving the
    [async with async_playwright()] block is taken to complete. *)
Record session := {
  playwright : observed unit;
  launch : observed unit;
  new_page : observed unit;
  viewport : observed unit;
  goto : observed unit;
  scorecard : observed unit;
  critics : observed (option str);
  audience : observed (option str);
  (** the text content of the two score elements as the in-page
      script finds them, [None] when [querySelector] finds none *)
  evaluate : observed (option str * option str);
  rt_texts : observed (list (option str));
  (** the rows of [section.media-info], none when it is absent *)
  info_section : observed (list (observed info_item));
  close : observed unit;
  close_after_error : observed unit
}.

Definition initial_metadata (url title : str) : dict :=
  [ ("url", VStr url); ("title", VStr title);
    ("tomatometer_score", VNone); ("audience_score", VNone);
    ("genre", VNone); ("rating", VNone); ("duration", VNone);
    ("release_date", VNone); ("director", VNone);
    ("original_language", VNone); ("box_office", VNone);
    ("distributor", VNone); ("error", VNone) ].

Definition failure_record (url title e : str) : dict :=
  [ ("url", VStr url); ("title", VStr title); ("error", VStr e) ].

Definition in_range (score : Z) : bool :=
  (0 <=? score)%Z && (score <=? 100)%Z.

(** *** Tier 1: the dedicated score elements *)

Definition tier1 (field : string) (text : option str) (metadata : dict)
  : dict :=
  match text with
  | None => metadata
  | Some [] => metadata
  | Some t =>
      match search_digits_1_3 (strip t) with
      | None => metadata
      | Some ds =>
          let score := Z.of_N (int_of_digits ds) in
          if in_range score then set field (VInt score) metadata
          else metadata
      end
  end.

(** *** Tier 2: the in-page script *)

(** White space removed by JavaScript's [trim]. *)
Definition js_space (c : ascii) : bool :=
  between 9 13 c || is_char " " c.

Definition js_trim (s : str) : str :=
  rstrip_with js_space (drop_while js_space s).

(** The property the script sets for one element: absent when the
    element is missing or its text has no digit, otherwise
    [parseInt] of the first one to three digits. *)
Definition js_score (text : option str) : option Z :=
  match text with
  | None => None
  | Some t =>
      match search_digits_1_3 (js_trim t) with
      | None => None
      | Some ds => Some (Z.of_N (int_of_digits ds))
      end
  end.

(** The object returned by [page.evaluate]. *)
Record js_scores := {
  js_tomatometer : option Z;
  js_audience : option Z
}.

Definition score_script (texts : option str * option str) : js_scores :=
  {| js_tomatometer := js_score (fst texts);
     js_audience := js_score (snd texts) |}.

(** [bool(scores.get(key))]: a missing key and the number 0 are both
    false. *)
Definition truthy (v : option Z) : bool :=
  match v with
  | None => false
  | Some z => negb (z =? 0)%Z
  end.

Definition tier2_assign (field : string) (v : option Z) (metadata : dict)
  : dict :=
  match v with
  | Some z =>
      if truthy v && is_none (get field metadata)
      then set field (VInt z) metadata
      else metadata
  | None => metadata
  end.

Definition tier2 (scores : js_scores) (metadata : dict) : dict :=
  let metadata := tier2_assign "tomatometer_score"
                    (js_tomatometer scores) metadata in
  tier2_assign "audience_score" (js_audience scores) metadata.

(** *** Tier 3: the scan of every [rt-text] element *)

Definition potential_score (text : option str) : list Z :=
  match text with
  | None => []
  | Some [] => []
  | Some t =>
      match match_score_text (strip t) with
      | None => []
      | Some ds =>
          let score := Z.of_N (int_of_digits ds) in
          if in_range score then [score] else []
      end
  end.

Definition potential_scores (texts : list (option str)) : list Z :=
  flat_map potential_score texts.

Definition assign_if_none (field : string) (score : Z) (metadata : dict)
  : dict :=
  if is_none (get field metadata) then set field (VInt score) metadata
  else metadata.

Definition tier3 (texts : list (option str)) (metadata : dict) : dict :=
  match potential_scores texts with
  | [a; b] =>
      (* sort(reverse=True) of two numbers *)
      let metadata := assign_if_none "tomatometer_score" (Z.max a b)
                        metadata in
      assign_if_none "audience_score" (Z.min a b) metadata
  | _ => metadata
  end.

(** *** The info panel *)

Definition field_mappings : list (str * list str) :=
  [ ("genre" : str, ["genre" : str]);
    ("rating" : str, ["rating" : str]);
    ("runtime" : str, ["runtime" : str]);
    ("release date" : str, ["release date" : str]);
    ("director" : str, ["director" : str]);
    ("original language" : str, ["original language" : str]);
    ("box office" : str, ["box office" : str]);
    ("distributor" : str, ["distributor" : str]) ].

(** The first field one of whose keywords occurs in the label. *)
Definition target_field (label_lower : str) : option str :=
  match
    find (fun fk => existsb (fun keyword => is_substring keyword label_lower)
                      (snd fk)) field_mappings
  with
  | Some fk => Some (fst fk)
  | None => None
  end.

(** The non-blank value texts, stripped. *)
Definition item_texts (vs : list str) : list str :=
  flat_map (fun value_text =>
              if is_empty value_text || is_empty (strip value_text)
              then [] else [strip value_text]) vs.

(** [re.sub(r'\s*,\s*Wide$', '', date_text)] *)
Definition strip_wide (date_text : str) : str :=
  let r := List.rev date_text in
  if startswith (List.rev ("Wide" : str)) r then
    match drop_while is_space (skipn 4 r) with
    | ","%char :: r' => List.rev (drop_while is_space r')
    | _ => date_text
    end
  else date_text.

Definition assign_field (field : str) (vals : list str) (metadata : dict)
  : dict :=
  match vals with
  | [] => metadata
  | first :: _ =>
      if str_eqb field "genre" then
        set "genre" (VStr (join ", " vals)) metadata
      else if str_eqb field "rating" then
        set "rating" (VStr first) metadata
      else if str_eqb field "runtime" then
        set "duration" (VStr (remove_spaces first)) metadata
      else if str_eqb field "release date" then
        set "release_date" (VStr (strip_wide first)) metadata
      else if str_eqb field "director" then
        set "director" (VStr (join ", " vals)) metadata
      else if str_eqb field "original language" then
        set "original_language" (VStr first) metadata
      else if str_eqb field "box office" then
        set "box_office" (VStr first) metadata
      else if str_eqb field "distributor" then
        set "distributor" (VStr first) metadata
      else metadata
  end.

(** One row of the panel; a row whose reading raises is skipped. *)
Definition process_item (metadata : dict) (item : observed info_item)
  : dict :=
  match item with
  | Raised _ => metadata
  | Got it =>
      match item_label it with
      | None => metadata
      | Some label_text =>
          match target_field (strip (lower label_text)) with
          | None => metadata
          | Some field => assign_field field (item_texts (item_values it))
                            metadata
          end
      end
  end.

Definition info_fields (items : list (observed info_item))
  (metadata : dict) : dict :=
  fold_left process_item items metadata.

(** *** Sanitation and post-processing *)

(** The scores are only ever stored as integers; a value of another
    type could not be converted and is discarded as well. *)
Definition sanitize_score (field : string) (metadata : dict) : dict :=
  match get field metadata with
  | VNone => metadata
  | VInt score =>
      if negb (in_range score) then set field VNone metadata else metadata
  | VStr _ => set field VNone metadata
  end.

Definition sanitize (metadata : dict) : dict :=
  sanitize_score "audience_score"
    (sanitize_score "tomatometer_score" metadata).

Definition format_minutes (minutes : N) : str :=
  if (60 <=? minutes)%N
  then str_of_N (minutes / 60) ++ "h " ++ str_of_N (minutes mod 60) ++ "m"
  else str_of_N minutes ++ "m".

(** ['h' in duration.lower() or 'm' in duration.lower()] *)
Definition has_unit_letters (duration : str) : bool :=
  contains "h" (lower duration) || contains "m" (lower duration).

(** The value that lines 350-359 leave in [metadata["duration"]]; the
    [int] of line 353 is guarded by no [try] of its own. *)
Definition format_duration (duration : str) : observed str :=
  if has_unit_letters duration
  then Got duration
  else match search_digits duration with
       | Some ds =>
           match int_of_str ds with
           | Got minutes => Got (format_minutes minutes)
           | Raised e => Raised e
           end
       | None => Got duration
       end.

Definition postprocess_duration (metadata : dict) : observed dict :=
  match get "duration" metadata with
  | VStr (c :: d) =>
      match format_duration (c :: d) with
      | Got duration => Got (set "duration" (VStr duration) metadata)
      | Raised e => Raised e
      end
  | _ => Got metadata
  end.

(** *** The extraction *)

Open Scope engine_scope.

Definition unset (field : string) (metadata : dict) : bool :=
  is_none (get field metadata).

Definition extract_fields (s : session) (url title : str) : M dict :=
  let metadata := initial_metadata url title in
  try_except (perform WaitScorecard (scorecard s)) (fun _ => ret tt) ;;;
  metadata <-
    try_except (text <- perform ReadCritics (critics s) ;;
                ret (tier1 "tomatometer_score" text metadata))
               (fun _ => ret metadata) ;;
  metadata <-
    try_except (text <- perform ReadAudience (audience s) ;;
                ret (tier1 "audience_score" text metadata))
               (fun _ => ret metadata) ;;
  metadata <-
    (if unset "tomatometer_score" metadata || unset "audience_score" metadata
     then try_except (texts <- perform Evaluate (evaluate s) ;;
                      ret (tier2 (score_script texts) metadata))
                     (fun _ => ret metadata)
     else ret metadata) ;;
  metadata <-
    (if unset "tomatometer_score" metadata || unset "audience_score" metadata
     then try_except (texts <- perform QueryAllTexts (rt_texts s) ;;
                      ret (tier3 texts metadata))
                     (fun _ => ret metadata)
     else ret metadata) ;;
  metadata <-
    try_except (items <- perform ReadInfoSection (info_section s) ;;
                ret (info_fields items metadata))
               (fun _ => ret metadata) ;;
  let metadata := sanitize metadata in
  lift (postprocess_duration metadata).

Definition scrape_movie_metadata_efficient (s : session) (url title : str)
  : M dict :=
  perform StartPlaywright (playwright s) ;;;
  perform Launch (launch s) ;;;
  perform NewPage (new_page s) ;;;
  try_except
    (perform SetViewport (viewport s) ;;;
     perform Goto (goto s) ;;;
     metadata <- extract_fields s url title ;;
     perform CloseBrowser (close s) ;;;
     ret metadata)
    (fun e =>
       perform CloseBrowser (close_after_error s) ;;;
       ret (failure_record url title e)).

Close Scope engine_scope.

(** *** Notions used to state the properties of the extractor *)


(** The set-up of lines 155-160 as a whole: the playwright context is
    entered, the browser launched and the page opened, in this order;
    it raises what the first failing call raises. *)
Definition acquire (s : session) : observed unit :=
  match playwright s with
  | Raised e => Raised e
  | Got _ =>
      match launch s with
      | Raised e => Raised e
      | Got _ => new_page s
      end
  end.

(** A record that names its entry: it carries the given URL and
    title. *)
Definition identified (url title : str) (r : dict) : Prop :=
  get "url" r = VStr url /\ get "title" r = VStr title.

(** A session of a given shape: the page loads, the score elements
    answer [crit] and [aud], the in-page script sees the texts [ev],
    the [rt-text] elements carry [texts], the info panel has the rows
    [rows], and the browser closes with [cl]. *)
Definition session_of (crit aud : observed (option str))
  (ev : observed (option str * option str)) (texts : list (option str))
  (rows : list (observed info_item)) (cl : observed unit) : session :=
  {| playwright := Got tt; launch := Got tt; new_page := Got tt;
     viewport := Got tt; goto := Got tt;
     scorecard := Got tt; critics := crit; audience := aud;
     evaluate := ev; rt_texts := Got texts; info_section := Got rows;
     close := cl; close_after_error := Got tt |}.

(** A session in which the browser cannot be launched: the extraction
    raises [e]. *)
Definition broken_session (e : str) : session :=
  {| playwright := Got tt; launch := Raised e; new_page := Got tt;
     viewport := Got tt; goto := Got tt;
     scorecard := Got tt; critics := Got None; audience := Got None;
     evaluate := Got (None, None); rt_texts := Got [];
     info_section := Got []; close := Got tt;
     close_after_error := Got tt |}.

(** A session in which the browser is launched and the page cannot be
    opened: the extraction raises [e]. *)
Definition unopened_session (e : str) : session :=
  {| playwright := Got tt; launch := Got tt; new_page := Raised e;
     viewport := Got tt; goto := Got tt;
     scorecard := Got tt; critics := Got None; audience := Got None;
     evaluate := Got (None, None); rt_texts := Got [];
     info_section := Got []; close := Got tt;
     close_after_error := Got tt |}.

(** A session whose navigation fails with the error [e]. *)
Definition unreachable_session (e : str) : session :=
  {| playwright := Got tt; launch := Got tt; new_page := Got tt;
     viewport := Got tt; goto := Raised e;
     scorecard := Got tt; critics := Got None; audience := Got None;
     evaluate := Got (None, None); rt_texts := Got [];
     info_section := Got []; close := Got tt;
     close_after_error := Got tt |}.

(** A session whose info panel shows a runtime of 4301 digits. *)
Definition overlong_runtime_session : session :=
  session_of (Got None) (Got None) (Got (None, None)) []
    [Got {| item_label := Some ("Runtime" : str);
            item_values := [repeat "9"%char 4301] |}]
    (Got tt).

(** A session whose navigation fails with the error [e], after which
    the browser fails to close with the error [e']. *)
Definition crashed_session (e e' : str) : session :=
  {| playwright := Got tt; launch := Got tt; new_page := Got tt;
     viewport := Got tt; goto := Raised e;
     scorecard := Got tt; critics := Got None; audience := Got None;
     evaluate := Got (None, None); rt_texts := Got [];
     info_section := Got []; close := Got tt;
     close_after_error := Raised e' |}.

End DetailExtractor.

(** ** The batch coordinator: [scrape_all_movies_batch]

    The coordinator runs on a cooperative scheduler: the extraction
    tasks of a chunk are interleaved, each behind the admission gate
    [asyncio.Semaphore(max_concurrent)]. The embedding is a transition
    system whose steps are the scheduling events (a chunk is
    dispatched, a task is admitted by the gate, an extraction settles
    and frees its slot, the chunk is gathered, the pacing delay
    elapses); which enabled event happens next is left open, so that
    every interleaving the scheduler can produce is a run of it. *)

Module BatchCoordinator.

Import ListCollector DetailExtractor.

Definition chunk_size : nat := 10.

(** The life of the coroutine created for one entry. *)
Inductive task_state :=
| Created                          (* not yet handed to [gather] *)
| Waiting                          (* scheduled, waiting at the gate *)
| InFlight                         (* inside [async with semaphore] *)
| Settled (result : observed dict).

(** Where the coordinator's own loop stands; [i] is the loop index. *)
Inductive phase :=
| Dispatching (i : nat)            (* about to test [i < len(tasks)] *)
| Gathering (i : nat)              (* awaiting [asyncio.gather] *)
| Pacing (i : nat)                 (* in [asyncio.sleep(1)] *)
| Finished.                        (* [return all_results] *)

Record state := {
  gate : nat;                      (* free slots of the semaphore *)
  tasks : list task_state;
  at_phase : phase;
  all_results : list dict
}.

Fixpoint update {A} (j : nat) (x : A) (l : list A) : list A :=
  match l, j with
  | [], _ => []
  | _ :: t, O => x :: t
  | y :: t, S j' => y :: update j' x t
  end.

(** [tasks[i:i + chunk_size]] *)
Definition chunk_of {A} (i : nat) (l : list A) : list A :=
  firstn chunk_size (skipn i l).

(** [gather] schedules every task of the chunk. *)
Definition dispatch (i : nat) (ts : list task_state) : list task_state :=
  firstn i ts ++ map (fun _ => Waiting) (chunk_of i ts)
  ++ skipn (i + chunk_size) ts.

(** The results of a chunk once each of its tasks has settled. *)
Fixpoint settled_results (chunk : list task_state)
  : option (list (observed dict)) :=
  match chunk with
  | [] => Some []
  | Settled r :: rest =>
      match settled_results rest with
      | Some rs => Some (r :: rs)
      | None => None
      end
  | _ :: _ => None
  end.

(** 1 for a task in flight, 0 for any other. *)
Definition flying (t : task_state) : nat :=
  match t with InFlight => 1 | _ => 0 end.

Definition in_flight (ts : list task_state) : nat :=
  List.length (filter (fun t => match t with InFlight => true | _ => false end)
                 ts).

Section Batch.

(** The engine's answers during the extraction of the [i]-th entry. *)
Variable sessions : nat -> session.
Variable movies : list movie.
Variable max_concurrent : nat.

(** The body of [process_movie_with_semaphore] under the gate. *)
Definition process_movie (i : nat) (m : movie) : observed dict :=
  match outcome (scrape_movie_metadata_efficient (sessions i)
                   (movie_url m) (movie_title m)) with
  | Got result => Got result
  | Raised e => Got (failure_record (movie_url m) (movie_title m) e)
  end.

(** The loop over [enumerate(chunk_results)]: [j] is the position in
    the chunk. An exception kept by [gather] becomes a failure
    record of [movies[i + j]]; a falsy result is dropped. An index
    error would end the loop through the [except] clause of the
    chunk. *)
Fixpoint aggregate (i j : nat) (chunk_results : list (observed dict))
  (acc : list dict) : list dict :=
  match chunk_results with
  | [] => acc
  | Raised e :: rest =>
      match nth_error movies (i + j) with
      | Some m =>
          aggregate i (S j) rest
            (acc ++ [failure_record (movie_url m) (movie_title m) e])
      | None => acc
      end
  | Got result :: rest =>
      aggregate i (S j) rest
        (match result with [] => acc | _ => acc ++ [result] end)
  end.

Definition initial : state :=
  {| gate := max_concurrent;
     tasks := map (fun _ => Created) movies;
     at_phase := Dispatching 0;
     all_results := [] |}.

Inductive step : state -> state -> Prop :=
| step_dispatch : forall g ts rs i,
    i < List.length ts ->
    step {| gate := g; tasks := ts; at_phase := Dispatching i;
            all_results := rs |}
         {| gate := g; tasks := dispatch i ts; at_phase := Gathering i;
            all_results := rs |}
| step_admit : forall g ts ph rs j,
    nth_error ts j = Some Waiting ->
    step {| gate := S g; tasks := ts; at_phase := ph; all_results := rs |}
         {| gate := g; tasks := update j InFlight ts; at_phase := ph;
            all_results := rs |}
| step_settle : forall g ts ph rs j m,
    nth_error ts j = Some InFlight ->
    nth_error movies j = Some m ->
    step {| gate := g; tasks := ts; at_phase := ph; all_results := rs |}
         {| gate := S g;
            tasks := update j (Settled (process_movie j m)) ts;
            at_phase := ph; all_results := rs |}
| step_gather : forall g ts rs i chunk_results,
    settled_results (chunk_of i ts) = Some chunk_results ->
    step {| gate := g; tasks := ts; at_phase := Gathering i;
            all_results := rs |}
         {| gate := g; tasks := ts;
            at_phase := if (i + chunk_size <? List.length ts)%nat
                        then Pacing i else Dispatching (i + chunk_size);
            all_results := aggregate i 0 chunk_results rs |}
| step_pace : forall g ts rs i,
    step {| gate := g; tasks := ts; at_phase := Pacing i;
            all_results := rs |}
         {| gate := g; tasks := ts; at_phase := Dispatching (i + chunk_size);
            all_results := rs |}
| step_return : forall g ts rs i,
    List.length ts <= i ->
    step {| gate := g; tasks := ts; at_phase := Dispatching i;
            all_results := rs |}
         {| gate := g; tasks := ts; at_phase := Finished;
            all_results := rs |}.

(** The states the coordinator can be in. *)
Inductive reachable : state -> Prop :=
| reach_initial : reachable initial
| reach_step : forall s s', reachable s -> step s s' -> reachable s'.

(** What the coordinator records for the [j]-th entry: the result of
    its task, an exception kept by [gather] as a failure record, and
    nothing for a falsy result. *)
Definition recorded (j : nat) : list dict :=
  match nth_error movies j with
  | None => []
  | Some m =>
      match process_movie j m with
      | Got [] => []
      | Got result => [result]
      | Raised e => [failure_record (movie_url m) (movie_title m) e]
      end
  end.

(** [all_results] once the entries before [upto] have been gathered. *)
Definition outcomes (upto : nat) : list dict :=
  flat_map recorded (seq 0 upto).

(** The entries before [settled_upto] have settled and have been
    gathered; those from there to [scheduled_upto] have been handed to
    [gather]; the others are still coroutines that never ran. *)
Definition settled_upto (ph : phase) : nat :=
  match ph with
  | Dispatching i => i
  | Gathering i => i
  | Pacing i => i + chunk_size
  | Finished => List.length movies
  end.

Definition scheduled_upto (ph : phase) : nat :=
  match ph with
  | Gathering i => i + chunk_size
  | _ => settled_upto ph
  end.

Definition task_ok (ph : phase) (j : nat) (m : movie) (t : task_state)
  : Prop :=
  if (j <? settled_upto ph)%nat then t = Settled (process_movie j m)
  else if (j <? scheduled_upto ph)%nat
       then t = Waiting \/ t = InFlight \/ t = Settled (process_movie j m)
       else t = Created.

Definition phase_ok (ph : phase) : Prop :=
  match ph with
  | Gathering i => i < List.length movies
  | Pacing i => i + chunk_size < List.length movies
  | _ => True
  end.

(** The invariant of the coordinator: every task in flight holds a slot
    of the gate and every taken slot is held by a task in flight; there
    is one task per entry, in the state that the phase allows; and
    [all_results] holds what has been gathered so far. *)
Definition coherent (s : state) : Prop :=
  in_flight (tasks s) + gate s = max_concurrent
  /\ phase_ok (at_phase s)
  /\ (forall j,
        match nth_error movies j with
        | None => nth_error (tasks s) j = None
        | Some m =>
            exists t, nth_error (tasks s) j = Some t
                      /\ task_ok (at_phase s) j m t
        end)
  /\ all_results s = outcomes (settled_upto (at_phase s)).

(** The record that stands for the [i]-th entry in the result. *)
Definition outcome_of (i : nat) (m : movie) : dict :=
  match outcome (scrape_movie_metadata_efficient (sessions i)
                   (movie_url m) (movie_title m)) with
  | Got result => result
  | Raised e => failure_record (movie_url m) (movie_title m) e
  end.

(** A measure of the work left, which every step decreases. *)
Definition task_weight (t : task_state) : nat :=
  match t with
  | Created => 3
  | Waiting => 2
  | InFlight => 1
  | Settled _ => 0
  end.

Definition phase_weight (n : nat) (ph : phase) : nat :=
  match ph with
  | Dispatching i => 4 * (n - i) + 3
  | Gathering i => 4 * (n - i) + 2
  | Pacing i => 4 * (n - i) + 1
  | Finished => 0
  end.

Definition work_left (s : state) : nat :=
  list_sum (map task_weight (tasks s))
  + phase_weight (List.length (tasks s)) (at_phase s).

End Batch.

(** Two entries, the first of which cannot be extracted because the
    browser does not start. *)
Definition example_movies : list movie :=
  [ {| movie_title := "Dune";
       movie_url := "https://www.rottentomatoes.com/m/dune" |};
    {| movie_title := "Heat";
       movie_url := "https://www.rottentomatoes.com/m/heat" |} ].

Definition example_sessions (i : nat) : session :=
  match i with
  | O => broken_session "browser did not start"
  | _ => session_of (Got (Some ("92%" : str))) (Got (Some ("90%" : str)))
           (Got (None, None)) [] [] (Got tt)
  end.

End BatchCoordinator.

(** ** Notions used to state further properties of the list collector *)

Module CollectorNotions.

Import Normalize ListCollector.

(** The links that a listing page contributes: those of the primary
    locator, or those of the fallback locator when the primary one
    finds none ([movie_links] in the source). *)
Definition movie_links (p : listing_page) : list (observed link) :=
  if (List.length (primary_links p) =? 0)%nat
  then fallback_links p else primary_links p.

(** The links met during the visit of [pages], in the order of the
    crawl; a page that fails to load contributes none. *)
Definition crawled_links (site : nat -> observed listing_page)
  (pages : list nat) : list (observed link) :=
  flat_map (fun page_num =>
              match site page_num with
              | Got p => movie_links p
              | Raised _ => []
              end) pages.

(** Every title that the links carry is made of ASCII characters. *)
Definition ascii_titles (links : list (observed link)) : bool :=
  forallb (fun l =>
             match l with
             | Got l => ascii_text (inner_text l)
             | Raised _ => true
             end) links.

(** The candidate of the link [l], if it has one, is represented in
    [d]: by its normalised URL or by its normalised title. *)
Definition represented (bracketed_netloc_ok : str -> bool)
  (d : movies_dict) (l : observed link) : bool :=
  match candidate bracketed_netloc_ok l with
  | None => true
  | Some (normalized_url, title) =>
      has_key normalized_url d
      || existsb (str_eqb (normalize_title title)) (existing_titles d)
  end.

End CollectorNotions.

(** ** Notions used to state further properties of the detail extractor *)

Module ExtractorNotions.

Import DetailExtractor.

(** What a guarded block works with: the answer of the engine, or
    [absent] when the call raised and the [except] clause took over. *)
Definition answer {A} (o : observed A) (absent : A) : A :=
  match o with
  | Got a => a
  | Raised _ => absent
  end.

(** [metadata["tomatometer_score"] is None or
    metadata["audience_score"] is None] *)
Definition score_missing (metadata : dict) : bool :=
  unset "tomatometer_score" metadata || unset "audience_score" metadata.

(** The record after each tier of the score cascade. *)
Definition after_tier1 (s : session) (url title : str) : dict :=
  tier1 "audience_score" (answer (audience s) None)
    (tier1 "tomatometer_score" (answer (critics s) None)
       (initial_metadata url title)).

Definition after_tier2 (s : session) (url title : str) : dict :=
  let metadata := after_tier1 s url title in
  if score_missing metadata
  then tier2 (score_script (answer (evaluate s) (None, None))) metadata
  else metadata.

Definition after_tier3 (s : session) (url title : str) : dict :=
  let metadata := after_tier2 s url title in
  if score_missing metadata
  then tier3 (answer (rt_texts s) []) metadata
  else metadata.

(** The record after the info panel has been read and the scores
    sanitised. *)
Definition collected (s : session) (url title : str) : dict :=
  sanitize
    (info_fields (answer (info_section s) []) (after_tier3 s url title)).

(** What the gathering ends with: the record whose duration has been
    post-processed, or the [ValueError] of line 353. *)
Definition gathered (s : session) (url title : str) : observed dict :=
  postprocess_duration (collected s url title).

(** No value text of the info panel is longer than the limit of
    [int]: the conversion of line 353 is then made. *)
Definition within_int_limit (s : session) : bool :=
  forallb (fun item =>
             match item with
             | Got it =>
                 forallb (fun value_text =>
                            (List.length value_text <=? max_str_digits)%nat)
                   (item_values it)
             | Raised _ => true
             end)
    (answer (info_section s) []).

(** The duration that a record holds is within the limit of [int]. *)
Definition duration_within_limit (metadata : dict) : Prop :=
  forall d, get "duration" metadata = VStr d ->
            List.length d <= max_str_digits.

(** The set-up calls that are made: each one is reached when those
    before it have completed. *)
Definition setup_calls (s : session) : list call :=
  StartPlaywright ::
  match playwright s with
  | Raised _ => []
  | Got _ =>
      Launch ::
      match launch s with
      | Raised _ => []
      | Got _ => [NewPage]
      end
  end.

(** The field that the label of a row names, if it names one. *)
Definition row_field (item : observed info_item) : option str :=
  match item with
  | Raised _ => None
  | Got it =>
      match item_label it with
      | None => None
      | Some label_text => target_field (strip (lower label_text))
      end
  end.

(** A value text that the loop over the values skips: empty, or white
    space only. *)
Definition blank (value_text : str) : bool :=
  is_empty value_text || is_empty (strip value_text).

(** The label and the value texts of a row are made of ASCII
    characters. *)
Definition ascii_row (it : info_item) : bool :=
  match item_label it with
  | Some label_text => ascii_text label_text
  | None => true
  end
  && forallb ascii_text (item_values it).

(** The row assigns the field [field]: its label names that field and
    one of its values is not blank. *)
Definition writes (field : str) (item : observed info_item) : bool :=
  match item, row_field item with
  | Got it, Some f =>
      str_eqb f field && negb (forallb blank (item_values it))
  | _, _ => false
  end.

(** The engine calls of the gathering, in the order of the source. *)
Definition gathering_calls (s : session) (url title : str) : list call :=
  [WaitScorecard; ReadCritics; ReadAudience]
  ++ (if score_missing (after_tier1 s url title) then [Evaluate] else [])
  ++ (if score_missing (after_tier2 s url title) then [QueryAllTexts]
      else [])
  ++ [ReadInfoSection].

(** The session in which every guarded call that raised is replaced
    by the answer of a page on which the element is missing. *)
Definition absorbed (s : session) : session :=
  {| playwright := playwright s; launch := launch s;
     new_page := new_page s; viewport := viewport s; goto := goto s;
     scorecard := Got tt;
     critics := Got (answer (critics s) None);
     audience := Got (answer (audience s) None);
     evaluate := Got (answer (evaluate s) (None, None));
     rt_texts := Got (answer (rt_texts s) []);
     info_section := Got (answer (info_section s) []);
     close := close s; close_after_error := close_after_error s |}.

(** The keys of a full record, in the order of the source. *)
Definition metadata_keys : list string :=
  [ "url"; "title"; "tomatometer_score"; "audience_score"; "genre";
    "rating"; "duration"; "release_date"; "director";
    "original_language"; "box_office"; "distributor"; "error" ].

(** The keys that the score cascade and the info panel write. *)
Definition score_keys : list string :=
  [ "tomatometer_score"; "audience_score" ].

Definition panel_keys : list string :=
  [ "genre"; "rating"; "duration"; "release_date"; "director";
    "original_language"; "box_office"; "distributor" ].

(** [k in ks] *)
Definition written (ks : list string) (k : string) : bool :=
  existsb (String.eqb k) ks.

(** The two shapes of a returned record: the full record of a
    completed extraction, with no error, and the minimal record of a
    failed one. *)
Definition full_record (r : dict) : Prop :=
  keys r = metadata_keys /\ get "error" r = VNone.

Definition minimal_record (r : dict) : Prop :=
  keys r = ["url"; "title"; "error"] /\ exists e, get "error" r = VStr e.

(** A stage of the extraction that keeps the keys of a full record
    and changes no value other than scores and panel fields. *)
Definition keeps_shape (f : dict -> dict) : Prop :=
  forall d,
    keys d = metadata_keys ->
    keys (f d) = metadata_keys
    /\ forall k, written (score_keys ++ panel_keys) k = false ->
                 get k (f d) = get k d.

End ExtractorNotions.

(** ** Notions used to state further properties of the batch coordinator *)

Module BatchNotions.

Import BatchCoordinator.

(** A task that has been handed to [gather]. *)
Definition started (t : task_state) : bool :=
  match t with
  | Created => false
  | _ => true
  end.

(** The coordinator has reached its [return]. *)
Definition finished (s : state) : bool :=
  match at_phase s with
  | Finished => true
  | _ => false
  end.

(** [chunk_num = i // chunk_size + 1] *)
Definition chunk_num (i : nat) : nat := i / chunk_size + 1.

(** [total_chunks = (len(tasks) + chunk_size - 1) // chunk_size] *)
Definition total_chunks (n : nat) : nat :=
  (n + chunk_size - 1) / chunk_size.

(** [range(i, n, chunk_size)], for at most [fuel] values. *)
Fixpoint range_from (fuel i n : nat) : list nat :=
  match fuel with
  | O => []
  | S fuel' =>
      if (i <? n)%nat then i :: range_from fuel' (i + chunk_size) n else []
  end.

(** [range(0, len(tasks), chunk_size)]: the values of the loop index. *)
Definition loop_indices (n : nat) : list nat := range_from n 0 n.

(** The loop index of a phase is a multiple of the chunk size. *)
Definition aligned (ph : phase) : Prop :=
  match ph with
  | Dispatching i | Gathering i | Pacing i => exists q, i = q * chunk_size
  | Finished => True
  end.

(** *** Schedules

    A schedule names the scheduling events of a run one after the
    other; running it from a state follows the steps of the
    coordinator, as long as each event is enabled. *)

Inductive event :=
| Dispatch            (* the loop hands the next chunk to [gather] *)
| Admit (j : nat)     (* the gate admits the task of entry [j] *)
| Settle (j : nat)    (* the extraction of entry [j] returns *)
| Gather              (* [gather] returns the results of the chunk *)
| Pace                (* the delay between two chunks elapses *)
| Return.             (* the loop ends *)

Section Schedules.

Variable sessions : nat -> DetailExtractor.session.
Variable movies : list ListCollector.movie.

(** The state after the event [e], when [e] is enabled in [s]. *)
Definition exec (e : event) (s : state) : option state :=
  match e, at_phase s with
  | Dispatch, Dispatching i =>
      if (i <? List.length (tasks s))%nat
      then Some {| gate := gate s; tasks := dispatch i (tasks s);
                   at_phase := Gathering i; all_results := all_results s |}
      else None
  | Admit j, ph =>
      match gate s, nth_error (tasks s) j with
      | S g, Some Waiting =>
          Some {| gate := g; tasks := update j InFlight (tasks s);
                  at_phase := ph; all_results := all_results s |}
      | _, _ => None
      end
  | Settle j, ph =>
      match nth_error (tasks s) j, nth_error movies j with
      | Some InFlight, Some m =>
          Some {| gate := S (gate s);
                  tasks := update j (Settled (process_movie sessions j m))
                             (tasks s);
                  at_phase := ph; all_results := all_results s |}
      | _, _ => None
      end
  | Gather, Gathering i =>
      match settled_results (chunk_of i (tasks s)) with
      | Some chunk_results =>
          Some {| gate := gate s; tasks := tasks s;
                  at_phase := if (i + chunk_size <? List.length (tasks s))%nat
                              then Pacing i else Dispatching (i + chunk_size);
                  all_results := aggregate movies i 0 chunk_results
                                   (all_results s) |}
      | None => None
      end
  | Pace, Pacing i =>
      Some {| gate := gate s; tasks := tasks s;
              at_phase := Dispatching (i + chunk_size);
              all_results := all_results s |}
  | Return, Dispatching i =>
      if (List.length (tasks s) <=? i)%nat
      then Some {| gate := gate s; tasks := tasks s; at_phase := Finished;
                   all_results := all_results s |}
      else None
  | _, _ => None
  end.

Fixpoint run_events (es : list event) (s : state) : option state :=
  match es with
  | [] => Some s
  | e :: es' =>
      match exec e s with
      | Some s' => run_events es' s'
      | None => None
      end
  end.

End Schedules.

(** A batch of twenty-one entries: three chunks. *)
Definition example_batch : list ListCollector.movie :=
  map (fun k =>
         {| ListCollector.movie_title := "Movie " ++ str_of_N (N.of_nat k);
            ListCollector.movie_url :=
              "https://www.rottentomatoes.com/m/movie_"
              ++ str_of_N (N.of_nat k) |})
    (seq 0 21).

(** The first chunk is dispatched, its ten extractions run one after
    the other, and the chunk is gathered: the coordinator pauses. *)
Definition first_chunk_schedule : list event :=
  Dispatch :: flat_map (fun j => [Admit j; Settle j]) (seq 0 10) ++ [Gather].

(** After the pause the second chunk is dispatched, and the gate
    admits its first two tasks. *)
Definition second_chunk_schedule : list event :=
  first_chunk_schedule ++ [Pace; Dispatch; Admit 10; Admit 11].

End BatchNotions.

(* ================================================================== *)
(** * Part II. Properties                                              *)
(* ================================================================== *)

(** ** Facts about characters and strings *)

Module StrFacts.

Ltac by_cases_on_char c :=
  destruct c as [[] [] [] [] [] [] [] []]; reflexivity.

Lemma is_space_to_lower c : is_space (to_lower c) = is_space c.
Proof. by_cases_on_char c. Qed.

Lemma is_char_eq d c : is_char d c = true <-> c = d.
Proof. unfold is_char. apply Ascii.eqb_eq. Qed.

Lemma str_eqb_eq a : forall b, str_eqb a b = true <-> a = b.
Proof.
  induction a as [|x a IH]; intros [|y b]; simpl; split; intro H;
    try congruence; try discriminate.
  - apply andb_true_iff in H as [H1 H2].
    apply Ascii.eqb_eq in H1. apply IH in H2. congruence.
  - injection H as -> ->. rewrite Ascii.eqb_refl. simpl. now apply IH.
Qed.

Lemma str_eqb_refl a : str_eqb a a = true.
Proof. now apply str_eqb_eq. Qed.

(** *** [rstrip_with] *)

Lemma rstrip_with_nil_iff p s :
  rstrip_with p s = [] <-> forallb p s = true.
Proof.
  induction s as [|c t IH]; simpl; [tauto|].
  destruct (rstrip_with p t) eqn:R.
  - destruct (p c); simpl; split; intro H; try discriminate.
    + now apply IH.
    + reflexivity.
  - split; intro H; [discriminate|].
    apply andb_true_iff in H as [_ H]. apply IH in H. discriminate.
Qed.

Lemma rstrip_with_app_keep p s c :
  p c = false -> rstrip_with p (s ++ [c]) = s ++ [c].
Proof.
  intro Hc. induction s as [|x s IH]; simpl.
  - now rewrite Hc.
  - rewrite IH. destruct (s ++ [c]) eqn:E; [|reflexivity].
    now destruct s.
Qed.

Lemma rstrip_with_app_drop p s c :
  p c = true -> rstrip_with p (s ++ [c]) = rstrip_with p s.
Proof.
  intro Hc. induction s as [|x s IH]; simpl.
  - now rewrite Hc.
  - now rewrite IH.
Qed.

(** The result of [rstrip_with] is empty or ends with a character
    that is kept. *)
Lemma rstrip_with_shape p s :
  rstrip_with p s = [] \/
  exists u c, rstrip_with p s = u ++ [c] /\ p c = false.
Proof.
  induction s as [|x s IH]; simpl; [now left|].
  destruct IH as [E | (u & c & E & Hc)].
  - rewrite E. destruct (p x) eqn:Hx; [now left|].
    right. exists [], x. now split.
  - right. rewrite E. destruct (u ++ [c]) eqn:E'.
    + now destruct u.
    + rewrite <- E'. exists (x :: u), c. now split.
Qed.

Lemma rstrip_with_idem p s :
  rstrip_with p (rstrip_with p s) = rstrip_with p s.
Proof.
  destruct (rstrip_with_shape p s) as [E | (u & c & E & Hc)]; rewrite E.
  - reflexivity.
  - now apply rstrip_with_app_keep.
Qed.

(** [rstrip_with] only removes a suffix made of removed characters. *)
Lemma rstrip_with_decompose p s :
  exists tail, s = rstrip_with p s ++ tail /\ forallb p tail = true.
Proof.
  induction s as [|x s (tail & E & Ht)]; simpl.
  - now exists [].
  - destruct (rstrip_with p s) eqn:R.
    + simpl in E. subst s. destruct (p x) eqn:Hx.
      * exists (x :: tail). simpl. now rewrite Hx, Ht.
      * exists tail. now split.
    + exists tail. split; [|exact Ht]. simpl. f_equal. exact E.
Qed.

Lemma rstrip_with_app_tail p s tail :
  forallb p tail = true -> rstrip_with p (s ++ tail) = rstrip_with p s.
Proof.
  revert s. induction tail as [|c tail IH] using rev_ind; intros s H.
  - now rewrite app_nil_r.
  - rewrite forallb_app in H. apply andb_true_iff in H as [H1 H2].
    simpl in H2. rewrite andb_true_r in H2.
    rewrite app_assoc, rstrip_with_app_drop by exact H2. now apply IH.
Qed.

(** *** [take_while], [drop_while] *)

Lemma take_while_all p s : forallb p (take_while p s) = true.
Proof.
  induction s as [|c t IH]; simpl; [reflexivity|].
  destruct (p c) eqn:E; simpl; [now rewrite E | reflexivity].
Qed.

Lemma take_while_id p s : forallb p s = true -> take_while p s = s.
Proof.
  induction s as [|c t IH]; simpl; [reflexivity|].
  intro H. apply andb_true_iff in H as [-> H]. now rewrite IH.
Qed.

Lemma drop_while_head p s :
  match drop_while p s with
  | [] => True
  | c :: _ => p c = false
  end.
Proof.
  induction s as [|c t IH]; simpl; [exact I|].
  destruct (p c) eqn:E; [exact IH | exact E].
Qed.

End StrFacts.

(** ** Title normalisation *)

Module TitleFacts.

Import StrFacts Normalize.

Lemma words_nil_iff s : words s = [] <-> forallb is_space s = true.
Proof.
  induction s as [|c t IH]; simpl; [tauto|].
  destruct (is_space c) eqn:Hc; simpl; [exact IH|].
  split; [|discriminate].
  destruct t as [|c' t']; [discriminate|].
  destruct (is_space c'); [discriminate|].
  destruct (words (c' :: t')); discriminate.
Qed.

Lemma words_lower s : words (lower s) = map lower (words s).
Proof.
  induction s as [|c t IH]; [reflexivity|].
  cbn [lower map words]. fold (lower t). rewrite is_space_to_lower.
  destruct (is_space c); [exact IH|].
  destruct t as [|c' t']; [reflexivity|].
  cbn [lower map] in *. fold (lower t') in *. rewrite is_space_to_lower.
  destruct (is_space c'); [now rewrite IH|].
  rewrite IH. destruct (words (c' :: t')); reflexivity.
Qed.

Lemma sub_non_word_app a b :
  sub_non_word (a ++ b) = sub_non_word a ++ sub_non_word b.
Proof. apply filter_app. Qed.

Lemma sub_non_word_join ws :
  sub_non_word (join " " ws) = join " " (map sub_non_word ws).
Proof.
  induction ws as [|w ws IH]; [reflexivity|].
  destruct ws as [|w' ws]; [reflexivity|].
  change (join " " (w :: w' :: ws)) with (w ++ " " ++ join " " (w' :: ws)).
  rewrite !sub_non_word_app, IH. reflexivity.
Qed.

Lemma rstrip_with_cons p c t :
  rstrip_with p (c :: t)
  = if forallb p t then (if p c then [] else [c])
    else c :: rstrip_with p t.
Proof.
  cbn [rstrip_with]. destruct (forallb p t) eqn:F.
  - apply rstrip_with_nil_iff in F. now rewrite F.
  - destruct (rstrip_with p t) eqn:R; [|reflexivity].
    apply rstrip_with_nil_iff in R. congruence.
Qed.

Lemma sub_spaces_rstrip s :
  sub_spaces true (rstrip_with is_space s) = join " " (words s)
  /\ sub_spaces false (rstrip_with is_space s)
     = leading_space s ++ join " " (words s).
Proof.
  induction s as [|c t [IHt IHf]]; [now split|].
  rewrite rstrip_with_cons. unfold leading_space.
  destruct (forallb is_space t) eqn:F.
  - (* only whitespace follows *)
    pose proof (proj2 (words_nil_iff t) F) as W.
    cbn [words]. destruct (is_space c) eqn:Hc.
    + rewrite W. now split.
    + cbn [sub_spaces]. rewrite Hc.
      destruct t as [|c' t']; [now split|].
      simpl in F. apply andb_true_iff in F as [-> _].
      rewrite W. now split.
  - assert (W : words t <> []).
    { intro W. apply words_nil_iff in W. congruence. }
    cbn [sub_spaces words]. destruct (is_space c) eqn:Hc.
    + rewrite IHt. destruct (words t); [contradiction|]. now split.
    + rewrite IHf. unfold leading_space.
      destruct t as [|c' t']; [discriminate F|].
      destruct (words (c' :: t')) as [|w ws] eqn:Wt; [contradiction|].
      destruct (is_space c'); [split; reflexivity|].
      destruct ws; split; reflexivity.
Qed.

Lemma words_drop_while s : words (drop_while is_space s) = words s.
Proof.
  induction s as [|c t IH]; [reflexivity|].
  cbn [drop_while]. destruct (is_space c) eqn:Hc; [|reflexivity].
  rewrite IH. cbn [words]. now rewrite Hc.
Qed.

Lemma leading_space_drop_while s : leading_space (drop_while is_space s) = [].
Proof.
  unfold leading_space. pose proof (drop_while_head is_space s) as H.
  destruct (drop_while is_space s); [reflexivity|].
  rewrite H. now destruct (words _).
Qed.

(** The normalised title is the token list joined by single spaces. *)
Lemma normalize_title_tokens title :
  normalize_title title = join " " (title_tokens title).
Proof.
  destruct title as [|c t]; [reflexivity|].
  unfold normalize_title, strip, title_tokens.
  destruct (sub_spaces_rstrip (drop_while is_space (lower (c :: t))))
    as [_ ->].
  rewrite leading_space_drop_while, words_drop_while, words_lower.
  rewrite app_nil_l, sub_non_word_join, map_map. reflexivity.
Qed.

(** Letter case is disregarded. *)
Lemma normalize_title_case s t :
  lower s = lower t -> normalize_title s = normalize_title t.
Proof.
  intro H. rewrite !normalize_title_tokens. unfold title_tokens.
  rewrite <- !map_map with (f := lower) (g := sub_non_word).
  now rewrite <- !words_lower, H.
Qed.

(** The amount of whitespace between, before and after the tokens is
    disregarded. *)
Lemma normalize_title_whitespace s t :
  words s = words t -> normalize_title s = normalize_title t.
Proof.
  intro H. rewrite !normalize_title_tokens. unfold title_tokens.
  now rewrite H.
Qed.

(** C6 (as amended). Two titles of ASCII characters whose
    whitespace-separated tokens agree one by one, once each token is
    put in lower case and freed of its punctuation, have the same
    normalised title: the normaliser disregards letter case, the
    length of every run of whitespace (leading and trailing
    whitespace included) and the punctuation attached to a token. *)
Theorem normalize_title_insensitive (s t : str) :
  ascii_text s = true -> ascii_text t = true ->
  title_tokens s = title_tokens t -> normalize_title s = normalize_title t.
Proof. intros _ _ H. now rewrite !normalize_title_tokens, H. Qed.

Lemma normalize_title_insensitive_witness :
  ascii_text "The Matrix!" = true
  /\ ascii_text "the   matrix" = true
  /\ title_tokens "The Matrix!" = title_tokens "the   matrix"
  /\ normalize_title "The Matrix!" = normalize_title "the   matrix".
Proof.
  split; [reflexivity|]. split; [reflexivity|].
  split; [reflexivity | apply normalize_title_insensitive; reflexivity].
Defined.

(** C6 as stated fails: ["a - b"] and ["a  b"] differ only in the
    punctuation character ['-'], yet the first keeps two spaces
    (whitespace is collapsed before the punctuation is removed) while
    the second is collapsed to one. *)
Lemma normalize_title_punctuation_counterexample :
  ascii_text "a - b" = true
  /\ sub_non_word "a - b" = "a  b"
  /\ title_skeleton "a - b" = title_skeleton "a  b"
  /\ normalize_title "a - b" = "a  b"
  /\ normalize_title "a  b" = "a b"
  /\ str_eqb (normalize_title "a - b") (normalize_title "a  b") = false.
Proof. repeat split; reflexivity. Qed.

End TitleFacts.

(** ** URL normalisation *)

Module UrlFacts.

Import StrFacts Normalize UrlLib.

(** *** More on [take_while], [drop_while], [filter], [contains] *)

Lemma take_while_ext p q s :
  (forall c, p c = q c) -> take_while p s = take_while q s.
Proof.
  intro H. induction s as [|c t IH]; simpl; [reflexivity|].
  now rewrite H, IH.
Qed.

Lemma take_while_take_while p q s :
  take_while p (take_while q s) = take_while (fun c => q c && p c) s.
Proof.
  induction s as [|c t IH]; simpl; [reflexivity|].
  destruct (q c); simpl; [|reflexivity].
  destruct (p c); [now rewrite IH | reflexivity].
Qed.

Lemma take_while_app_all p a b :
  forallb p a = true -> take_while p (a ++ b) = a ++ take_while p b.
Proof.
  induction a as [|c a IH]; simpl; [reflexivity|].
  intro H. apply andb_true_iff in H as [-> H]. now rewrite IH.
Qed.

Lemma take_while_app_cut p a c b :
  p c = false -> take_while p (a ++ c :: b) = take_while p a.
Proof.
  intro Hc. induction a as [|x a IH]; simpl.
  - now rewrite Hc.
  - destruct (p x); [now rewrite IH | reflexivity].
Qed.

(** Splitting at a finer predicate first loses nothing. *)
Lemma take_while_refine p q s :
  (forall c, p c = true -> q c = true) ->
  take_while p s ++ take_while q (drop_while p s) = take_while q s.
Proof.
  intro H. induction s as [|c t IH]; simpl; [reflexivity|].
  destruct (p c) eqn:Hp.
  - rewrite (H c Hp). simpl. now rewrite IH.
  - reflexivity.
Qed.

(** Removing characters that never stop [take_while] commutes with
    it. *)
Lemma filter_take_while keep q s :
  (forall c, keep c = false -> q c = true) ->
  filter keep (take_while q s) = take_while q (filter keep s).
Proof.
  intro H. induction s as [|c t IH]; simpl; [reflexivity|].
  destruct (keep c) eqn:K, (q c) eqn:Q; simpl; rewrite ?K, ?Q;
    try reflexivity; try (now rewrite IH).
  specialize (H c K). congruence.
Qed.

Lemma filter_id {A} (f : A -> bool) l :
  forallb f l = true -> filter f l = l.
Proof.
  induction l as [|x l IH]; simpl; [reflexivity|].
  intro H. apply andb_true_iff in H as [-> H]. now rewrite IH.
Qed.

Lemma forallb_filter_self {A} (f : A -> bool) l :
  forallb f (filter f l) = true.
Proof.
  induction l as [|x l IH]; simpl; [reflexivity|].
  destruct (f x) eqn:E; simpl; [now rewrite E | exact IH].
Qed.

Lemma forallb_impl {A} (f g : A -> bool) l :
  (forall x, f x = true -> g x = true) ->
  forallb f l = true -> forallb g l = true.
Proof.
  intros H. induction l as [|x l IH]; simpl; [reflexivity|].
  intro F. apply andb_true_iff in F as [F1 F2].
  now rewrite (H x F1), IH.
Qed.

Lemma forallb_take_while_of f p (s : str) :
  forallb f s = true -> forallb f (take_while p s) = true.
Proof.
  induction s as [|c t IH]; simpl; [reflexivity|].
  intro H. apply andb_true_iff in H as [H1 H2].
  destruct (p c); simpl; [now rewrite H1, IH | reflexivity].
Qed.

Lemma forallb_filter_of {A} (f keep : A -> bool) l :
  forallb f l = true -> forallb f (filter keep l) = true.
Proof.
  induction l as [|x l IH]; simpl; [reflexivity|].
  intro H. apply andb_true_iff in H as [H1 H2].
  destruct (keep x); simpl; [now rewrite H1, IH | now apply IH].
Qed.

Lemma forallb_rstrip_of f p (s : str) :
  forallb f s = true -> forallb f (rstrip_with p s) = true.
Proof.
  intro H. destruct (rstrip_with_decompose p s) as (tail & E & _).
  rewrite E, forallb_app in H. now apply andb_true_iff in H as [H _].
Qed.

(** [contains d s = false] says that every character of [s] differs
    from [d]. *)
Lemma contains_false_iff d s :
  contains d s = false <-> forallb (fun c => negb (is_char d c)) s = true.
Proof.
  unfold contains. induction s as [|c t IH]; simpl; [tauto|].
  destruct (is_char d c); simpl; [split; discriminate | exact IH].
Qed.

Lemma contains_app d a b :
  contains d (a ++ b) = contains d a || contains d b.
Proof. apply existsb_app. Qed.

Lemma startswith_app p s : startswith p (p ++ s) = true.
Proof.
  induction p as [|c p IH]; simpl; [reflexivity|].
  now rewrite Ascii.eqb_refl.
Qed.

Lemma startswith_split p : forall s,
  startswith p s = true -> s = p ++ skipn (List.length p) s.
Proof.
  induction p as [|c p IH]; intros [|x s] H; simpl in *;
    try reflexivity; try discriminate.
  apply andb_true_iff in H as [H1 H2]. apply Ascii.eqb_eq in H1. subst x.
  f_equal. now apply IH.
Qed.

(** *** [rstrip_slash] *)

Lemma rstrip_slash_app_keep a b :
  rstrip_slash b <> [] -> rstrip_slash (a ++ b) = a ++ rstrip_slash b.
Proof.
  unfold rstrip_slash. intro H.
  induction a as [|c a IH]; [reflexivity|].
  simpl. rewrite IH. destruct (a ++ rstrip_with (is_char "/") b) eqn:E.
  - apply app_eq_nil in E as [_ E]. contradiction.
  - reflexivity.
Qed.

Lemma rstrip_slash_no_trailing s : ends_with_slash (rstrip_slash s) = false.
Proof.
  unfold ends_with_slash, rstrip_slash.
  destruct (rstrip_with_shape (is_char "/") s) as [E | (u & c & E & Hc)];
    rewrite E; [reflexivity|].
  now rewrite rev_app_distr.
Qed.

(** *** The parser on [http(s)] URLs *)

Lemma host_char_path_char c : host_char c = true -> path_char c = true.
Proof.
  unfold host_char, netloc_delim, path_char, char_in, is_char. simpl.
  destruct (Ascii.eqb c "/"), (Ascii.eqb c "?"), (Ascii.eqb c "#");
    simpl; congruence.
Qed.

Lemma unsafe_path_char c :
  negb (unsafe_url_byte c) = false -> path_char c = true.
Proof. destruct c as [[] [] [] [] [] [] [] []]; vm_compute; congruence. Qed.

Lemma before_first_qf s :
  before_first "?" (before_first "#" s) = take_while path_char s.
Proof.
  unfold before_first. rewrite take_while_take_while.
  apply take_while_ext. intro c. unfold path_char. apply andb_comm.
Qed.

Lemma before_first_fq s :
  before_first "#" (before_first "?" s) = take_while path_char s.
Proof.
  unfold before_first. rewrite take_while_take_while.
  apply take_while_ext. intro c. reflexivity.
Qed.

Lemma urlparse_http chk s rest :
  s = ("http" : str) \/ s = ("https" : str) ->
  contains ";" (path_part rest) = false ->
  urlparse chk (s ++ "://" ++ rest)
  = if netloc_rejected chk (take_while host_char (clean rest)) then None
    else Some {| scheme := s;
                 netloc := take_while host_char (clean rest);
                 path := take_while path_char
                           (drop_while host_char (clean rest));
                 params := [];
                 query := after_first "?" (before_first "#"
                            (drop_while host_char (clean rest)));
                 fragment := after_first "#"
                               (drop_while host_char (clean rest)) |}.
Proof.
  intros Hs Hsemi.
  assert (Hp : contains ";" (take_while path_char
                               (drop_while host_char (clean rest))) = false).
  { apply contains_false_iff.
    assert (H : forallb (fun c => negb (is_char ";" c))
                  (take_while path_char (clean rest)) = true).
    { unfold clean. rewrite <- filter_take_while by apply unsafe_path_char.
      apply forallb_filter_of, contains_false_iff, Hsemi. }
    rewrite <- (take_while_refine host_char path_char) in H
      by apply host_char_path_char.
    rewrite forallb_app in H. now apply andb_true_iff in H as [_ H]. }
  unfold urlparse.
  assert (E : urlsplit chk (s ++ "://" ++ rest)
    = if netloc_rejected chk (take_while host_char (clean rest)) then None
      else Some {| scheme := s;
                   netloc := take_while host_char (clean rest);
                   path := take_while path_char
                             (drop_while host_char (clean rest));
                   params := [];
                   query := after_first "?" (before_first "#"
                              (drop_while host_char (clean rest)));
                   fragment := after_first "#"
                                 (drop_while host_char (clean rest)) |}).
  { destruct Hs as [-> | ->]; unfold urlsplit; simpl;
      fold (clean rest); fold host_char;
      destruct (netloc_rejected chk (take_while host_char (clean rest)));
      try reflexivity; rewrite before_first_qf; reflexivity. }
  rewrite E.
  destruct (netloc_rejected chk (take_while host_char (clean rest)));
    [reflexivity|].
  cbn [path scheme]. rewrite Hp, andb_false_r. reflexivity.
Qed.
(** *** [normalize_url] on [http(s)] URLs *)

Lemma http_scheme_facts s rest :
  s = ("http" : str) \/ s = ("https" : str) ->
  (startswith "http://" (s ++ "://" ++ rest)
   || startswith "https://" (s ++ "://" ++ rest) = true)
  /\ forallb path_char (s ++ "://") = true
  /\ rstrip_slash (s ++ ":") = s ++ ":"
  /\ (exists c t, s ++ "://" ++ rest = c :: t)
  /\ (forall chk, normalize_url chk (s ++ ":") = s ++ ":").
Proof.
  intros [-> | ->]; repeat split; try reflexivity;
    try (simpl; rewrite ?startswith_app; reflexivity);
    try (eexists _, _; reflexivity).
Qed.

(** What [normalize_url] computes once the URL is absolute. *)
Lemma normalize_url_absolute chk u :
  u <> [] ->
  startswith "http://" u || startswith "https://" u = true ->
  normalize_url chk u
  = match urlparse chk u with
    | Some parsed =>
        rstrip_slash (scheme parsed ++ "://" ++ netloc parsed ++ path parsed)
    | None => rstrip_slash (before_first "#" (before_first "?" u))
    end.
Proof.
  intros Hne Hs. destruct u; [contradiction|].
  unfold normalize_url. now rewrite Hs.
Qed.

(** The text that the normaliser keeps after the scheme: the part of
    the URL before its query and fragment, as the parser sees it when
    it accepts the URL and as it stands when the parser rejects it. *)
Lemma normalize_url_http chk s rest :
  s = ("http" : str) \/ s = ("https" : str) ->
  contains ";" (path_part rest) = false ->
  normalize_url chk (s ++ "://" ++ rest)
  = rstrip_slash
      (s ++ "://" ++
       path_part (if netloc_rejected chk (take_while host_char (clean rest))
                  then rest else clean rest)).
Proof.
  intros Hs Hsemi.
  destruct (http_scheme_facts s rest Hs) as (Hstart & Hpc & _ & (c & t & Hc) & _).
  rewrite normalize_url_absolute; [| rewrite Hc; discriminate | exact Hstart].
  rewrite urlparse_http by assumption.
  destruct (netloc_rejected chk (take_while host_char (clean rest))).
  - rewrite before_first_fq, app_assoc, take_while_app_all by exact Hpc.
    now rewrite <- app_assoc.
  - cbn [scheme netloc path]. unfold path_part.
    now rewrite take_while_refine by apply host_char_path_char.
Qed.

(** *** Idempotence *)

Lemma slash_is_safe c : is_char "/" c = true -> negb (unsafe_url_byte c) = true.
Proof. intro H. apply is_char_eq in H. now subst c. Qed.

Lemma slash_not_host_char c : is_char "/" c = true -> host_char c = false.
Proof. intro H. apply is_char_eq in H. now subst c. Qed.

(** Trailing slashes do not change the network location that the
    parser reads. *)
Lemma netloc_rstrip_slash y :
  take_while host_char (clean (rstrip_slash y))
  = take_while host_char (clean y).
Proof.
  unfold rstrip_slash.
  destruct (rstrip_with_decompose (is_char "/") y) as (tail & E & Ht).
  rewrite E at 2. unfold clean. rewrite filter_app.
  rewrite (filter_id _ tail)
    by (eapply forallb_impl; [apply slash_is_safe | exact Ht]).
  destruct tail as [|c tail]; [now rewrite app_nil_r|].
  simpl in Ht. apply andb_true_iff in Ht as [Hc _].
  now rewrite take_while_app_cut by now apply slash_not_host_char.
Qed.

Lemma netloc_path_part rest :
  take_while host_char (clean (path_part rest))
  = take_while host_char (clean rest).
Proof.
  unfold path_part, clean.
  rewrite filter_take_while by apply unsafe_path_char.
  rewrite take_while_take_while. apply take_while_ext. intro c.
  destruct (host_char c) eqn:H; [|apply andb_false_r].
  now rewrite (host_char_path_char c H).
Qed.

Lemma path_part_id y : forallb path_char y = true -> path_part y = y.
Proof. apply take_while_id. Qed.

Lemma normalize_url_http_idempotent chk s rest :
  s = ("http" : str) \/ s = ("https" : str) ->
  contains ";" (path_part rest) = false ->
  normalize_url chk (normalize_url chk (s ++ "://" ++ rest))
  = normalize_url chk (s ++ "://" ++ rest).
Proof.
  intros Hs Hsemi.
  destruct (http_scheme_facts s rest Hs) as (_ & _ & Hcolon & _ & Hfix).
  rewrite (normalize_url_http chk s rest Hs Hsemi).
  set (rej := netloc_rejected chk (take_while host_char (clean rest))).
  set (y := path_part (if rej then rest else clean rest)).
  assert (Hy_pc : forallb path_char y = true) by apply take_while_all.
  assert (Hy_semi : forallb (fun c => negb (is_char ";" c)) y = true).
  { apply contains_false_iff in Hsemi. subst y. destruct rej; [exact Hsemi|].
    unfold path_part, clean in *.
    rewrite <- filter_take_while by apply unsafe_path_char.
    now apply forallb_filter_of. }
  assert (Hy_safe : rej = false ->
                    forallb (fun c => negb (unsafe_url_byte c)) y = true).
  { intros ->. subst y. apply forallb_take_while_of, forallb_filter_self. }
  destruct (rstrip_slash y) as [|c0 y0] eqn:Ey.
  - (* nothing but slashes follows the scheme *)
    apply rstrip_with_nil_iff in Ey.
    replace (s ++ "://" ++ y) with ((s ++ ":") ++ ("//" ++ y))
      by now rewrite <- app_assoc.
    unfold rstrip_slash in *.
    rewrite rstrip_with_app_tail by (simpl; exact Ey).
    rewrite Hcolon. apply Hfix.
  - assert (E1 : rstrip_slash (s ++ "://" ++ y) = s ++ "://" ++ rstrip_slash y).
    { rewrite !app_assoc. apply rstrip_slash_app_keep. now rewrite Ey. }
    rewrite E1.
    set (y' := rstrip_slash y) in *.
    assert (Hy'_pc : forallb path_char y' = true)
      by now apply forallb_rstrip_of.
    assert (Hy'_semi : contains ";" (path_part y') = false).
    { rewrite path_part_id by exact Hy'_pc.
      apply contains_false_iff. now apply forallb_rstrip_of. }
    rewrite (normalize_url_http chk s y' Hs Hy'_semi).
    assert (E2 : path_part
                   (if netloc_rejected chk (take_while host_char (clean y'))
                    then y' else clean y') = y').
    { destruct (netloc_rejected chk (take_while host_char (clean y')))
        eqn:Rej2; [exact (path_part_id y' Hy'_pc)|].
      assert (Hrej : rej = false).
      { destruct rej eqn:R; [|reflexivity].
        rewrite <- Rej2. subst y' y. unfold rej in R.
        now rewrite netloc_rstrip_slash, netloc_path_part. }
      assert (Ec : clean y' = y').
      { apply filter_id. apply forallb_rstrip_of. now apply Hy_safe. }
      rewrite Ec. exact (path_part_id y' Hy'_pc). }
    assert (E3 : rstrip_slash y' = y')
      by (unfold y', rstrip_slash; apply rstrip_with_idem).
    rewrite E2, !app_assoc. rewrite rstrip_slash_app_keep.
    + now rewrite E3.
    + rewrite E3, Ey. discriminate.
Qed.

(** *** Hrefs of the site *)

Lemma path_part_app_plain a b :
  forallb path_char a = true -> path_part (a ++ b) = a ++ path_part b.
Proof. apply take_while_app_all. Qed.

(** An href of the site is normalised as an absolute [http(s)] URL:
    itself, or its resolution against the protocol or the origin. *)
Lemma site_href_resolution chk u :
  site_href u = true ->
  exists s rest,
    (s = ("http" : str) \/ s = ("https" : str))
    /\ normalize_url chk u = normalize_url chk (s ++ "://" ++ rest)
    /\ (contains ";" (path_part u) = false ->
        contains ";" (path_part rest) = false).
Proof.
  unfold site_href. intro H.
  destruct (startswith "http://" u) eqn:H1.
  { apply startswith_split in H1. exists ("http" : str), (skipn 7 u).
    split; [now left|]. split; [now rewrite H1 at 1|].
    rewrite H1 at 1. change ("http://" ++ skipn 7 u)
      with (("http://" : str) ++ skipn 7 u).
    rewrite path_part_app_plain by reflexivity.
    rewrite contains_app. intro C. now apply orb_false_iff in C as [_ C]. }
  destruct (startswith "https://" u) eqn:H2.
  { apply startswith_split in H2. exists ("https" : str), (skipn 8 u).
    split; [now right|]. split; [now rewrite H2 at 1|].
    rewrite H2 at 1.
    rewrite path_part_app_plain by reflexivity.
    rewrite contains_app. intro C. now apply orb_false_iff in C as [_ C]. }
  cbn [orb] in H.
  destruct (startswith "//" u) eqn:H3.
  { exists ("https" : str), (skipn 2 u). split; [now right|].
    pose proof (startswith_split _ _ H3) as E. split.
    - destruct u as [|c [|c' t]]; try discriminate.
      unfold normalize_url at 1. rewrite H1, H2, H3. cbn [orb].
      rewrite normalize_url_absolute by (try discriminate; reflexivity).
      injection E as -> ->. reflexivity.
    - rewrite E at 1. rewrite path_part_app_plain by reflexivity.
      rewrite contains_app. intro C.
      now apply orb_false_iff in C as [_ C]. }
  exists ("https" : str), ("www.rottentomatoes.com" ++ u).
  split; [now right|]. split.
  - destruct u as [|c t]; [discriminate|].
    unfold normalize_url at 1. rewrite H1, H2, H3, H. cbn [orb].
    rewrite normalize_url_absolute by (try discriminate; reflexivity).
    reflexivity.
  - intro C. rewrite path_part_app_plain by reflexivity.
    rewrite contains_app, C. reflexivity.
Qed.

(** C4 (as amended). On the hrefs of the site (absolute [http://] or
    [https://] URLs and hrefs that begin with a slash) whose part
    before the query string and fragment has no semicolon,
    [normalize_url] is idempotent. *)
Theorem normalize_url_idempotent_on_site_hrefs
  (bracketed_netloc_ok : str -> bool) (u : str) :
  site_href u = true ->
  contains ";" (path_part u) = false ->
  normalize_url bracketed_netloc_ok (normalize_url bracketed_netloc_ok u)
  = normalize_url bracketed_netloc_ok u.
Proof.
  intros Hsite Hsemi.
  destruct (site_href_resolution bracketed_netloc_ok u Hsite)
    as (s & rest & Hs & E & Hrest).
  rewrite E. apply normalize_url_http_idempotent; auto.
Qed.

Lemma normalize_url_idempotent_witness :
  site_href "/m/the_matrix/?ref=home#cast" = true
  /\ contains ";" (path_part "/m/the_matrix/?ref=home#cast") = false
  /\ normalize_url (fun _ => true)
       (normalize_url (fun _ => true) "/m/the_matrix/?ref=home#cast")
     = normalize_url (fun _ => true) "/m/the_matrix/?ref=home#cast".
Proof.
  split; [reflexivity|]. split; [reflexivity|].
  apply normalize_url_idempotent_on_site_hrefs; reflexivity.
Defined.

(** C4 as stated fails, whatever the validation of bracketed hosts.
    An href without scheme and leading slash gains a ["://"] at every
    pass; and the removal of a trailing slash can expose the
    parameters of the last path segment, which the next pass
    removes. *)
Lemma normalize_url_not_idempotent :
  (forall chk, normalize_url chk "foo" = "://foo")
  /\ (forall chk, normalize_url chk (normalize_url chk "foo") = "://://foo")
  /\ (forall chk, normalize_url chk "http://a/b;p/" = "http://a/b;p")
  /\ (forall chk, normalize_url chk (normalize_url chk "http://a/b;p/")
                  = "http://a/b").
Proof. repeat split; intro chk; reflexivity. Qed.

(** *** What the normaliser returns *)

Lemma scheme_char_path_char c :
  scheme_char c = true -> path_char (to_lower c) = true.
Proof.
  destruct c as [[] [] [] [] [] [] [] []]; vm_compute; congruence.
Qed.

Lemma split_scheme_path_chars url :
  forallb path_char (fst (split_scheme url)) = true.
Proof.
  unfold split_scheme.
  destruct (drop_while _ url) as [|x rest]; [reflexivity|].
  destruct (take_while _ url) as [|c head] eqn:E; [reflexivity|].
  destruct (is_alpha c && forallb scheme_char (c :: head)) eqn:H;
    [|reflexivity].
  apply andb_true_iff in H as [_ H]. cbn [fst]. unfold lower.
  clear E. induction (c :: head) as [|a l IH]; [reflexivity|].
  simpl in *. apply andb_true_iff in H as [H1 H2].
  now rewrite scheme_char_path_char, IH.
Qed.

Lemma split_last_segment_app s :
  fst (split_last_segment s) ++ snd (split_last_segment s) = s.
Proof.
  induction s as [|c t IH]; [reflexivity|].
  cbn [split_last_segment].
  destruct (split_last_segment t) as [dir seg]. cbn [fst snd] in *.
  destruct (is_char "/" c).
  - simpl. now rewrite IH.
  - destruct dir; simpl in *; now rewrite IH.
Qed.

Lemma splitparams_path_chars p :
  forallb path_char p = true ->
  forallb path_char (fst (splitparams p)) = true.
Proof.
  intro H. unfold splitparams.
  pose proof (split_last_segment_app p) as E.
  destruct (split_last_segment p) as [dir seg]. cbn [fst snd] in *.
  rewrite <- E, forallb_app in H. apply andb_true_iff in H as [H1 H2].
  rewrite forallb_app, H1. unfold before_first.
  now rewrite forallb_take_while_of.
Qed.

Lemma urlsplit_path_chars chk url r :
  urlsplit chk url = Some r ->
  forallb path_char (scheme r) = true
  /\ forallb path_char (netloc r) = true
  /\ forallb path_char (path r) = true.
Proof.
  unfold urlsplit.
  pose proof (split_scheme_path_chars (clean (drop_while c0_control_or_space url)))
    as Hs.
  destruct (split_scheme _) as [sch rest]. cbn [fst] in Hs.
  assert (Hnl : forall x, forallb path_char (take_while host_char x) = true).
  { intro x. eapply forallb_impl; [apply host_char_path_char|].
    apply take_while_all. }
  assert (Hp : forall x, forallb path_char
                           (before_first "?" (before_first "#" x)) = true).
  { intro x. rewrite before_first_qf. apply take_while_all. }
  set (located := match rest with
                  | "/"%char :: "/"%char :: rest0 => _
                  | _ => _
                  end).
  assert (Hloc : forall nl u, located = Some (nl, u) ->
                              forallb path_char nl = true).
  { subst located. intros nl u.
    destruct rest as [|a rest]; [now intros [= <- <-]|].
    destruct (Ascii.eqb a "/") eqn:Ea.
    2:{ destruct a as [[] [] [] [] [] [] [] []];
          try discriminate Ea; now intros [= <- <-]. }
    apply Ascii.eqb_eq in Ea. subst a.
    destruct rest as [|b rest]; [now intros [= <- <-]|].
    destruct (Ascii.eqb b "/") eqn:Eb.
    2:{ destruct b as [[] [] [] [] [] [] [] []];
          try discriminate Eb; now intros [= <- <-]. }
    apply Ascii.eqb_eq in Eb. subst b. unfold splitnetloc.
    destruct (netloc_rejected chk _); [discriminate|].
    intros [= <- <-]. apply Hnl. }
  destruct located as [[nl u]|]; [|discriminate].
  intros [= <-]. cbn [scheme netloc path]. eauto.
Qed.

Lemma urlparse_path_chars chk url p :
  urlparse chk url = Some p ->
  forallb path_char (scheme p ++ "://" ++ netloc p ++ path p) = true.
Proof.
  unfold urlparse. destruct (urlsplit chk url) as [r|] eqn:E; [|discriminate].
  destruct (urlsplit_path_chars chk url r E) as (H1 & H2 & H3).
  intro H.
  assert (Hp : forallb path_char (scheme p) = true
               /\ forallb path_char (netloc p) = true
               /\ forallb path_char (path p) = true).
  { destruct (existsb _ uses_params && contains ";" (path r)).
    - pose proof (splitparams_path_chars (path r) H3) as H4.
      destruct (splitparams (path r)) as [q prm]. injection H as <-.
      cbn [scheme netloc path fst] in *. auto.
    - injection H as <-. auto. }
  destruct Hp as (P1 & P2 & P3).
  rewrite !forallb_app, P1, P2, P3. reflexivity.
Qed.

(** The normalised URL has neither query string nor fragment. *)
Lemma normalize_url_path_chars chk u :
  forallb path_char (normalize_url chk u) = true.
Proof.
  unfold normalize_url. destruct u as [|c t]; [reflexivity|].
  match goal with |- context [urlparse chk ?x] => set (url := x) end.
  clearbody url.
  unfold rstrip_slash.
  destruct (urlparse chk url) as [p|] eqn:E; apply forallb_rstrip_of.
  - now apply (urlparse_path_chars chk url).
  - rewrite before_first_fq. apply take_while_all.
Qed.

Lemma path_char_not c d :
  path_char d = false -> path_char c = true -> negb (is_char d c) = true.
Proof.
  intros Hd Hc. destruct (is_char d c) eqn:E; [|reflexivity].
  apply is_char_eq in E. congruence.
Qed.

Lemma normalize_url_no_trailing_slash chk u :
  ends_with_slash (normalize_url chk u) = false.
Proof.
  unfold normalize_url. destruct u as [|c t]; [reflexivity|].
  destruct (urlparse chk _); apply rstrip_slash_no_trailing.
Qed.

(** *** Plain URLs *)

Lemma plain_char_facts c :
  plain_char c = true ->
  path_char c = true
  /\ negb (unsafe_url_byte c) = true
  /\ negb (is_char ";" c) = true
  /\ negb (is_char "[" c) = true
  /\ negb (is_char "]" c) = true.
Proof.
  destruct c as [[] [] [] [] [] [] [] []]; vm_compute; intro H;
    repeat split; congruence.
Qed.

Lemma not_path_char_facts c :
  path_char c = false ->
  negb (unsafe_url_byte c) = true /\ host_char c = false.
Proof.
  destruct c as [[] [] [] [] [] [] [] []]; vm_compute; intro H;
    split; congruence.
Qed.

Lemma forallb_plain p (f : ascii -> bool) :
  (forall c, plain_char c = true -> f c = true) ->
  forallb plain_char p = true -> forallb f p = true.
Proof. apply forallb_impl. Qed.

Lemma path_part_query q : query_and_fragment q = true -> path_part q = [].
Proof.
  destruct q as [|c q]; [reflexivity|].
  unfold path_part, query_and_fragment. cbn [take_while]. intro H.
  apply negb_true_iff in H. now rewrite H.
Qed.

(** The normal form of an [http(s)] URL with a plain host and path:
    the scheme is kept, the query string and the fragment are
    dropped, and so are the trailing slashes. *)
Lemma normalize_url_plain chk s p q :
  s = ("http" : str) \/ s = ("https" : str) ->
  forallb plain_char p = true ->
  query_and_fragment q = true ->
  normalize_url chk (s ++ "://" ++ p ++ q) = rstrip_slash (s ++ "://" ++ p).
Proof.
  intros Hs Hp Hq.
  assert (Hpc : forallb path_char p = true)
    by (eapply forallb_plain; [apply plain_char_facts | exact Hp]).
  assert (Epp : path_part (p ++ q) = p).
  { rewrite path_part_app_plain, path_part_query, app_nil_r; auto. }
  assert (Hsemi : contains ";" (path_part (p ++ q)) = false).
  { rewrite Epp. apply contains_false_iff.
    eapply forallb_plain; [apply plain_char_facts | exact Hp]. }
  rewrite normalize_url_http by assumption.
  assert (Eclean : clean (p ++ q) = p ++ clean q).
  { unfold clean. rewrite filter_app. f_equal. apply filter_id.
    eapply forallb_plain; [apply plain_char_facts | exact Hp]. }
  assert (Hcq : query_and_fragment (clean q) = true
                /\ take_while host_char (p ++ clean q)
                   = take_while host_char p).
  { destruct q as [|c q]; [split; [reflexivity | now rewrite app_nil_r]|].
    unfold query_and_fragment in Hq. apply negb_true_iff in Hq.
    destruct (not_path_char_facts c Hq) as [Hsafe Hhost].
    unfold clean. cbn [filter]. rewrite Hsafe. split.
    - unfold query_and_fragment. now rewrite Hq.
    - now apply take_while_app_cut. }
  destruct Hcq as [Hcq Enl].
  assert (Hrej : netloc_rejected chk (take_while host_char (clean (p ++ q)))
                 = false).
  { rewrite Eclean, Enl. unfold netloc_rejected.
    assert (B1 : contains "[" (take_while host_char p) = false).
    { apply contains_false_iff, forallb_take_while_of.
      eapply forallb_plain; [apply plain_char_facts | exact Hp]. }
    assert (B2 : contains "]" (take_while host_char p) = false).
    { apply contains_false_iff, forallb_take_while_of.
      eapply forallb_plain; [apply plain_char_facts | exact Hp]. }
    now rewrite B1, B2. }
  rewrite Hrej, Eclean, path_part_app_plain, path_part_query, app_nil_r; auto.
Qed.

Lemma startswith_slash c t : startswith "/" (c :: t) = true -> c = "/"%char.
Proof.
  change (startswith "/" (c :: t)) with (Ascii.eqb "/" c && true).
  rewrite andb_true_r. intro H. apply Ascii.eqb_eq in H. now subst c.
Qed.

Lemma normalize_url_relative chk u :
  startswith "/" u = true -> startswith "//" u = false ->
  normalize_url chk u = normalize_url chk (site_origin ++ u).
Proof.
  intros H1 H2. destruct u as [|c t]; [discriminate|].
  pose proof (startswith_slash c t H1) as ->.
  unfold normalize_url at 1. rewrite H2, H1.
  rewrite normalize_url_absolute by (try discriminate; reflexivity).
  reflexivity.
Qed.

Lemma normalize_url_protocol_relative chk u :
  startswith "//" u = true ->
  normalize_url chk u = normalize_url chk ("https:" ++ u).
Proof.
  intro H. destruct u as [|c u]; [discriminate H|].
  destruct u as [|c' t].
  - change (startswith "//" [c]) with (Ascii.eqb "/" c && false) in H.
    rewrite andb_false_r in H. discriminate H.
  - change (startswith "//" (c :: c' :: t))
      with (Ascii.eqb "/" c && (Ascii.eqb "/" c' && true)) in H.
    apply andb_true_iff in H as [Hc H]. apply andb_true_iff in H as [Hc' _].
    apply Ascii.eqb_eq in Hc, Hc'. subst c c'. reflexivity.
Qed.

Lemma normalize_url_plain_relative chk p q :
  startswith "/" p = true -> startswith "//" p = false ->
  forallb plain_char p = true ->
  query_and_fragment q = true ->
  normalize_url chk (p ++ q) = rstrip_slash (site_origin ++ p).
Proof.
  intros H1 H2 Hp Hq.
  rewrite normalize_url_relative.
  - change (site_origin ++ p ++ q)
      with (("https" : str) ++ "://" ++ ("www.rottentomatoes.com" ++ p) ++ q).
    rewrite <- !app_assoc.
    rewrite !app_assoc with (l := ("www.rottentomatoes.com" : str)).
    rewrite normalize_url_plain; auto.
  - destruct p; [inversion H1|]. exact H1.
  - destruct p as [|c [|c' p]]; [inversion H1| |exact H2].
    pose proof (startswith_slash c [] H1) as ->.
    destruct q as [|d q]; [reflexivity|].
    unfold query_and_fragment in Hq. apply negb_true_iff in Hq.
    destruct d as [[] [] [] [] [] [] [] []]; try reflexivity;
      vm_compute in Hq; discriminate Hq.
Qed.

(** C5 (as amended). For every href: the result of [normalize_url]
    has no query string, no fragment and no trailing slash; an href
    that begins with one slash is normalised as its resolution
    against the site origin, and one that begins with two slashes as
    its resolution against [https:]; and an [http(s)] URL made of a
    plain host and path, followed by a query string and a fragment,
    is normalised to its scheme, host and path without the trailing
    slashes, as is a plain path that begins with one slash after its
    resolution. In particular [https://site/m/foo?x=1#y] becomes
    [https://site/m/foo]. *)
Theorem normalize_url_resolves_and_strips
  (bracketed_netloc_ok : str -> bool) :
  let N := normalize_url bracketed_netloc_ok in
  (forall u, contains "?" (N u) = false
             /\ contains "#" (N u) = false
             /\ ends_with_slash (N u) = false)
  /\ (forall u, startswith "/" u = true -> startswith "//" u = false ->
                N u = N (site_origin ++ u))
  /\ (forall s p q,
        s = ("http" : str) \/ s = ("https" : str) ->
        forallb plain_char p = true ->
        query_and_fragment q = true ->
        N (s ++ "://" ++ p ++ q) = rstrip_slash (s ++ "://" ++ p))
  /\ (forall p q,
        startswith "/" p = true -> startswith "//" p = false ->
        forallb plain_char p = true ->
        query_and_fragment q = true ->
        N (p ++ q) = rstrip_slash (site_origin ++ p))
  /\ (forall u, startswith "//" u = true -> N u = N ("https:" ++ u))
  /\ N "https://site/m/foo?x=1#y" = "https://site/m/foo".
Proof.
  intro N. subst N. repeat split.
  - apply contains_false_iff.
    eapply forallb_impl; [|apply normalize_url_path_chars].
    intros c. now apply path_char_not.
  - apply contains_false_iff.
    eapply forallb_impl; [|apply normalize_url_path_chars].
    intros c. now apply path_char_not.
  - apply normalize_url_no_trailing_slash.
  - apply normalize_url_relative.
  - apply normalize_url_plain.
  - apply normalize_url_plain_relative.
  - apply normalize_url_protocol_relative.
Qed.

Lemma normalize_url_resolves_and_strips_witness :
  normalize_url (fun _ => true) "/m/foo/?x=1#y"
  = "https://www.rottentomatoes.com/m/foo".
Proof.
  exact (proj1 (proj2 (proj2 (proj2
           (normalize_url_resolves_and_strips (fun _ => true)))))
           "/m/foo/" "?x=1#y" eq_refl eq_refl eq_refl eq_refl).
Defined.

(** C5 as stated fails, whatever the validation of bracketed hosts:
    a relative path that does not begin with a slash is not resolved
    against the site origin. Its query string is dropped, but the
    result is the path behind an empty scheme and an empty host. *)
Lemma normalize_url_leaves_relative_path :
  (forall chk, normalize_url chk "m/dune" = "://m/dune")
  /\ (forall chk, normalize_url chk "m/dune/?ref=home#cast" = "://m/dune")
  /\ (forall chk, startswith site_origin (normalize_url chk "m/dune")
                  = false)
  /\ str_eqb "://m/dune" (site_origin ++ "/m/dune") = false.
Proof. repeat split; intro chk; reflexivity. Qed.

End UrlFacts.


(** ** The list collector *)

Module CollectorFacts.

Import StrFacts Normalize ListCollector.

Lemma has_key_In key d : has_key key d = true <-> In key (map fst d).
Proof.
  unfold has_key. rewrite existsb_exists, in_map_iff. split.
  - intros (kv & Hin & E). apply str_eqb_eq in E. now exists kv.
  - intros (kv & E & Hin). exists kv. split; [exact Hin|].
    now apply str_eqb_eq.
Qed.

Lemma existsb_str_eqb_In x l : existsb (str_eqb x) l = true <-> In x l.
Proof.
  rewrite existsb_exists. split.
  - intros (y & Hin & E). apply str_eqb_eq in E. now subst y.
  - intro H. exists x. split; [exact H | apply str_eqb_refl].
Qed.

(** Storing under a fresh key appends the entry. *)
Lemma store_fresh key m d :
  has_key key d = false -> store key m d = d ++ [(key, m)].
Proof.
  unfold has_key. induction d as [|[k m'] d IH]; simpl; [reflexivity|].
  intro H. apply orb_false_iff in H as [H1 H2].
  now rewrite H1, IH.
Qed.

Lemma NoDup_snoc {A} (l : list A) x :
  NoDup l -> ~ In x l -> NoDup (l ++ [x]).
Proof.
  intros Hl Hx. induction Hl as [|y l Hy Hl IH]; simpl.
  - constructor; [intros []| constructor].
  - constructor.
    + rewrite in_app_iff. intros [H | [H | []]]; [contradiction|].
      subst y. apply Hx. now left.
    + apply IH. intro H. apply Hx. now right.
Qed.

Section Invariant.

Variable bracketed_netloc_ok : str -> bool.

Local Abbreviation process_link := (process_link bracketed_netloc_ok).
Local Abbreviation process_page := (process_page bracketed_netloc_ok).
Local Abbreviation candidate := (candidate bracketed_netloc_ok).
Local Abbreviation collect := (collect bracketed_netloc_ok).

(** A candidate whose normalised URL or normalised title is already
    present is rejected. *)
Lemma process_link_rejects d l normalized_url title :
  candidate l = Some (normalized_url, title) ->
  In normalized_url (map fst d)
  \/ In (normalize_title title) (existing_titles d) ->
  process_link d l = d.
Proof.
  intros Hc H. unfold ListCollector.process_link. rewrite Hc.
  destruct (has_key normalized_url d) eqn:K; [reflexivity|].
  destruct H as [H | H].
  - apply has_key_In in H. congruence.
  - apply existsb_str_eqb_In in H. now rewrite H.
Qed.

(** Any other candidate is accepted, after the entries already
    there. *)
Lemma process_link_accepts d l normalized_url title :
  candidate l = Some (normalized_url, title) ->
  ~ In normalized_url (map fst d) ->
  ~ In (normalize_title title) (existing_titles d) ->
  process_link d l
  = d ++ [(normalized_url,
           {| movie_title := title; movie_url := normalized_url |})].
Proof.
  intros Hc H1 H2. unfold ListCollector.process_link. rewrite Hc.
  destruct (has_key normalized_url d) eqn:K;
    [apply has_key_In in K; contradiction|].
  destruct (existsb _ (existing_titles d)) eqn:T;
    [apply existsb_str_eqb_In in T; contradiction|].
  now apply store_fresh.
Qed.

Lemma process_link_dedup d l : dedup_ok d -> dedup_ok (process_link d l).
Proof.
  intros (Hk & Ht & Hu). unfold ListCollector.process_link.
  destruct (candidate l) as [[normalized_url title]|];
    [|now repeat split].
  destruct (has_key normalized_url d) eqn:K; [now repeat split|].
  destruct (existsb _ (existing_titles d)) eqn:T; [now repeat split|].
  rewrite store_fresh by exact K.
  unfold dedup_ok, existing_titles, values. rewrite !map_app. simpl.
  repeat split.
  - apply NoDup_snoc; [exact Hk|]. intro H. apply has_key_In in H.
    congruence.
  - apply NoDup_snoc; [exact Ht|]. intro H.
    apply existsb_str_eqb_In in H. unfold existing_titles, values in T.
    congruence.
  - apply Forall_app. split; [exact Hu|]. now constructor.
Qed.

Lemma process_links_dedup links : forall d,
  dedup_ok d -> dedup_ok (fold_left process_link links d).
Proof.
  induction links as [|l links IH]; intros d H; simpl; [exact H|].
  apply IH. now apply process_link_dedup.
Qed.

Lemma process_page_dedup d p : dedup_ok d -> dedup_ok (process_page d p).
Proof.
  intro H. destruct p as [p|e]; [|exact H].
  unfold ListCollector.process_page. now apply process_links_dedup.
Qed.

Lemma dedup_ok_empty : dedup_ok [].
Proof. repeat split; constructor. Qed.

Lemma collect_dedup site pages : dedup_ok (collect site pages).
Proof.
  unfold ListCollector.collect. generalize dedup_ok_empty.
  generalize (@nil (str * movie)).
  induction pages as [|n pages IH]; intros d H; simpl; [exact H|].
  apply IH. now apply process_page_dedup.
Qed.

Lemma values_urls d :
  Forall (fun kv => movie_url (snd kv) = fst kv) d ->
  map movie_url (values d) = map fst d.
Proof.
  unfold values. induction 1 as [|kv d E _ IH]; simpl; [reflexivity|].
  now rewrite E, IH.
Qed.

(** C2. The dedup invariant holds at every point of a collection
    run: it holds of the empty dictionary, every pass through the
    loop body keeps it, and so does every page, so that it holds
    after any number of pages; a candidate whose normalised URL or
    normalised title is that of an accepted entry leaves the
    dictionary unchanged; and in the returned sequence no two
    entries share a URL or a normalised title. *)
Theorem scrape_list_pages_dedup (site : nat -> observed listing_page) :
  dedup_ok []
  /\ (forall d l, dedup_ok d -> dedup_ok (process_link d l))
  /\ (forall d p, dedup_ok d -> dedup_ok (process_page d p))
  /\ (forall pages, dedup_ok (collect site pages))
  /\ (forall d l normalized_url title,
        candidate l = Some (normalized_url, title) ->
        In normalized_url (map fst d)
        \/ In (normalize_title title) (existing_titles d) ->
        process_link d l = d)
  /\ NoDup (map movie_url (scrape_list_pages bracketed_netloc_ok site))
  /\ NoDup (map (fun m => normalize_title (movie_title m))
              (scrape_list_pages bracketed_netloc_ok site)).
Proof.
  split; [apply dedup_ok_empty|].
  split; [apply process_link_dedup|].
  split; [apply process_page_dedup|].
  split; [apply collect_dedup|].
  split; [apply process_link_rejects|].
  unfold scrape_list_pages.
  destruct (collect_dedup site PAGES) as (Hk & Ht & Hu).
  split; [now rewrite values_urls | exact Ht].
Qed.

End Invariant.

Lemma scrape_list_pages_dedup_witness :
  process_link (fun _ => true)
    [("https://www.rottentomatoes.com/m/dune" : str,
      {| movie_title := "Dune";
         movie_url := "https://www.rottentomatoes.com/m/dune" |})]
    (Got {| title_count := 1; inner_text := " DUNE ";
            href := Some ("/m/dune/?ref=list" : str) |})
  = [("https://www.rottentomatoes.com/m/dune" : str,
      {| movie_title := "Dune";
         movie_url := "https://www.rottentomatoes.com/m/dune" |})].
Proof.
  exact (proj1 (proj2 (proj2 (proj2 (proj2
           (scrape_list_pages_dedup (fun _ => true) (fun _ => Raised []))))))
           [("https://www.rottentomatoes.com/m/dune" : str,
             {| movie_title := "Dune";
                movie_url := "https://www.rottentomatoes.com/m/dune" |})]
           (Got {| title_count := 1; inner_text := " DUNE ";
                   href := Some ("/m/dune/?ref=list" : str) |})
           ("https://www.rottentomatoes.com/m/dune" : str)
           ("DUNE" : str) eq_refl (or_introl (or_introl eq_refl))).
Defined.

End CollectorFacts.


(** ** The detail extractor in closed form *)

Module GatherFacts.

Import StrFacts DetailExtractor ExtractorNotions.

Lemma tier2_nothing metadata :
  tier2 (score_script (None, None)) metadata = metadata.
Proof. reflexivity. Qed.

Lemma tier1_nothing field metadata : tier1 field None metadata = metadata.
Proof. reflexivity. Qed.

Lemma tier3_nothing metadata : tier3 [] metadata = metadata.
Proof. reflexivity. Qed.

Ltac split_missing :=
  match goal with
  | |- context [unset "tomatometer_score" ?m || unset "audience_score" ?m] =>
      lazymatch m with
      | context [if _ then _ else _] => fail
      | _ => destruct (unset "tomatometer_score" m
                       || unset "audience_score" m)
      end
  end.

(** The guarded blocks never raise: the gathering makes the calls of
    [gathering_calls] and ends as [gathered] says, with the record or
    with the error of the post-processing. *)
Lemma extract_fields_gathered s url title log :
  extract_fields s url title log
  = (gathered s url title, log ++ gathering_calls s url title).
Proof.
  unfold extract_fields, gathered, collected, gathering_calls, after_tier3,
    after_tier2, after_tier1, score_missing.
  unfold bind, try_except, perform, ret, lift.
  destruct (scorecard s), (critics s), (audience s), (evaluate s),
    (rt_texts s), (info_section s);
    cbn [answer]; cbv beta iota zeta;
    rewrite ?tier1_nothing, ?tier2_nothing, ?tier3_nothing;
    split_missing; cbv beta iota zeta;
    rewrite ?tier2_nothing, ?tier3_nothing;
    split_missing; cbv beta iota zeta;
    rewrite <- ?app_assoc; reflexivity.
Qed.

(** The set-up completes when each of its three calls does. *)
Lemma acquire_cases s :
  acquire s = Got tt
  <-> playwright s = Got tt /\ launch s = Got tt /\ new_page s = Got tt.
Proof.
  unfold acquire.
  destruct (playwright s) as [[]|], (launch s) as [[]|],
    (new_page s) as [[]|];
    split; try discriminate; try (intros (A & B & C); discriminate);
    auto.
Qed.

Lemma setup_calls_acquired s u :
  acquire s = Got u -> setup_calls s = [StartPlaywright; Launch; NewPage].
Proof.
  unfold acquire, setup_calls.
  destruct (playwright s); [|discriminate].
  destruct (launch s); [reflexivity | discriminate].
Qed.

(** What the extraction returns and which calls it makes, on every
    path. *)
Lemma scrape_outcome_cases s url title :
  outcome (scrape_movie_metadata_efficient s url title)
  = match acquire s with
    | Raised e => Raised e
    | Got _ =>
        let handler e :=
          match close_after_error s with
          | Got _ => Got (failure_record url title e)
          | Raised e' => Raised e'
          end in
        match viewport s with
        | Raised e => handler e
        | Got _ =>
            match goto s with
            | Raised e => handler e
            | Got _ =>
                match gathered s url title with
                | Raised e => handler e
                | Got metadata =>
                    match close s with
                    | Raised e => handler e
                    | Got _ => Got metadata
                    end
                end
            end
        end
    end.
Proof.
  unfold outcome, run, scrape_movie_metadata_efficient, acquire, bind,
    try_except, perform, ret.
  destruct (playwright s); [|reflexivity].
  destruct (launch s); [|reflexivity].
  destruct (new_page s); [|reflexivity].
  destruct (viewport s); [|now destruct (close_after_error s)].
  destruct (goto s); [|now destruct (close_after_error s)].
  rewrite extract_fields_gathered.
  destruct (gathered s url title); [|now destruct (close_after_error s)].
  destruct (close s); [reflexivity | now destruct (close_after_error s)].
Qed.

Lemma scrape_calls_cases s url title :
  calls (scrape_movie_metadata_efficient s url title)
  = setup_calls s
    ++ match acquire s with
       | Raised _ => []
       | Got _ =>
           SetViewport ::
           match viewport s with
           | Raised _ => [CloseBrowser]
           | Got _ =>
               Goto ::
               match goto s with
               | Raised _ => [CloseBrowser]
               | Got _ =>
                   gathering_calls s url title
                   ++ CloseBrowser ::
                      match gathered s url title, close s with
                      | Got _, Raised _ => [CloseBrowser]
                      | _, _ => []
                      end
               end
           end
       end.
Proof.
  unfold calls, run, scrape_movie_metadata_efficient, acquire, setup_calls,
    bind, try_except, perform, ret.
  destruct (playwright s); [|reflexivity].
  destruct (launch s); [|reflexivity].
  destruct (new_page s); [|reflexivity].
  destruct (viewport s); [|now destruct (close_after_error s)].
  destruct (goto s); [|now destruct (close_after_error s)].
  rewrite extract_fields_gathered.
  destruct (gathered s url title); cbn [snd fst].
  - destruct (close s); cbn [snd fst].
    + rewrite <- ?app_assoc. reflexivity.
    + destruct (close_after_error s); cbn [snd];
        rewrite <- ?app_assoc; reflexivity.
  - destruct (close_after_error s); cbn [snd];
      rewrite <- ?app_assoc; reflexivity.
Qed.

End GatherFacts.

(** ** The detail extractor *)

Module ExtractorFacts.

Import StrFacts DetailExtractor ExtractorNotions GatherFacts.

(** *** Dictionaries *)

Lemma get_set_same k v d : get k (set k v d) = v.
Proof.
  induction d as [|[k' v'] d IH]; simpl.
  - now rewrite String.eqb_refl.
  - destruct (String.eqb k k') eqn:E; simpl.
    + now rewrite String.eqb_refl.
    + now rewrite E.
Qed.

Lemma get_set_other k k' v d :
  String.eqb k k' = false -> get k (set k' v d) = get k d.
Proof.
  intro H. induction d as [|[k'' v''] d IH]; simpl.
  - now rewrite H.
  - destruct (String.eqb k' k'') eqn:E; simpl.
    + apply String.eqb_eq in E. subst k''. now rewrite H.
    + now rewrite IH.
Qed.

(** *** Sanitation *)

Lemma in_range_bounds z : in_range z = true <-> (0 <= z <= 100)%Z.
Proof. unfold in_range. rewrite andb_true_iff, !Z.leb_le. tauto. Qed.


Lemma sanitize_score_other field field' metadata :
  String.eqb field field' = false ->
  get field (sanitize_score field' metadata) = get field metadata.
Proof.
  intro H. unfold sanitize_score.
  destruct (get field' metadata) as [|z|s]; [reflexivity| |].
  - destruct (negb (in_range z)); [now apply get_set_other | reflexivity].
  - now apply get_set_other.
Qed.

(** An out-of-range number is forced to null. *)
Lemma sanitize_score_out_of_range field metadata z :
  get field metadata = VInt z -> in_range z = false ->
  get field (sanitize_score field metadata) = VNone.
Proof.
  intros G R. unfold sanitize_score. rewrite G, R. apply get_set_same.
Qed.


(** *** Post-processing *)

Lemma int_of_str_within ds :
  List.length ds <= max_str_digits -> int_of_str ds = Got (int_of_digits ds).
Proof.
  intro H. unfold int_of_str.
  destruct (Nat.ltb_spec max_str_digits (List.length ds)); [lia | reflexivity].
Qed.

Lemma int_of_str_beyond ds :
  max_str_digits < List.length ds ->
  int_of_str ds = Raised (int_limit_error (List.length ds)).
Proof.
  intro H. unfold int_of_str.
  destruct (Nat.ltb_spec max_str_digits (List.length ds)); [reflexivity | lia].
Qed.

(** Post-processing returns the record with its duration formatted,
    when there is a duration to format, and the record itself
    otherwise. *)
Lemma postprocess_duration_inv metadata r :
  postprocess_duration metadata = Got r ->
  (r = metadata /\ forall c d, get "duration" metadata <> VStr (c :: d))
  \/ (exists d v, get "duration" metadata = VStr d
                  /\ format_duration d = Got v
                  /\ r = set "duration" (VStr v) metadata).
Proof.
  unfold postprocess_duration.
  destruct (get "duration" metadata) as [| |[|c d]] eqn:G;
    try (intros [= <-]; left; split; [reflexivity | intros; discriminate]).
  destruct (format_duration (c :: d)) as [v|e] eqn:F; [|discriminate].
  intros [= <-]. right. exists (c :: d), v. auto.
Qed.

Lemma postprocess_duration_other field metadata r :
  postprocess_duration metadata = Got r ->
  String.eqb field "duration" = false ->
  get field r = get field metadata.
Proof.
  intros H Hf.
  apply postprocess_duration_inv in H as [[-> _] | (d & v & _ & _ & ->)];
    [reflexivity | now apply get_set_other].
Qed.

Lemma postprocess_duration_formats metadata d v :
  get "duration" metadata = VStr d -> format_duration d = Got v ->
  exists r, postprocess_duration metadata = Got r
            /\ get "duration" r = VStr v.
Proof.
  intros G F. unfold postprocess_duration. rewrite G.
  destruct d as [|c d].
  - exists metadata. split; [reflexivity|]. rewrite G.
    now injection F as <-.
  - rewrite F. eexists. split; [reflexivity | apply get_set_same].
Qed.

Lemma postprocess_duration_raises metadata d e :
  get "duration" metadata = VStr d -> format_duration d = Raised e ->
  postprocess_duration metadata = Raised e.
Proof.
  intros G F. unfold postprocess_duration. rewrite G.
  destruct d as [|c d]; [discriminate F | now rewrite F].
Qed.

(** *** The shape of an extraction *)

(** A returned record is the failure record, or a sanitised record
    that the post-processing has accepted. *)
Lemma scrape_outcome s url title r :
  outcome (scrape_movie_metadata_efficient s url title) = Got r ->
  (exists e, r = failure_record url title e)
  \/ (exists metadata, postprocess_duration (sanitize metadata) = Got r).
Proof.
  rewrite scrape_outcome_cases. cbv zeta.
  assert (F : forall e, match close_after_error s with
                        | Got _ => Got (failure_record url title e)
                        | Raised e' => Raised e'
                        end = Got r ->
                        exists e0, r = failure_record url title e0).
  { intro e. destruct (close_after_error s); [|discriminate].
    intros [= <-]. now exists e. }
  destruct (acquire s); [|discriminate].
  destruct (viewport s); [|intro H; left; eapply F; exact H].
  destruct (goto s); [|intro H; left; eapply F; exact H].
  destruct (gathered s url title) as [metadata|e] eqn:G;
    [|intro H; left; eapply F; exact H].
  destruct (close s); [|intro H; left; eapply F; exact H].
  intros [= <-]. right. unfold gathered, collected in G. eauto.
Qed.



(** *** Tier 2 and the score 0 *)

Lemma tier2_assign_other field field' v metadata :
  String.eqb field field' = false ->
  get field (tier2_assign field' v metadata) = get field metadata.
Proof.
  intro H. unfold tier2_assign. destruct v as [z|]; [|reflexivity].
  destruct (truthy (Some z) && is_none (get field' metadata));
    [now apply get_set_other | reflexivity].
Qed.

Lemma tier2_assign_zero field metadata :
  get field (tier2_assign field (Some 0%Z) metadata) = get field metadata.
Proof. reflexivity. Qed.

Lemma tier2_assign_never_zero field v metadata :
  get field (tier2_assign field v metadata) = VInt 0 ->
  get field metadata = VInt 0.
Proof.
  unfold tier2_assign. destruct v as [z|]; [|trivial].
  destruct (truthy (Some z)) eqn:T; simpl; [|trivial].
  destruct (is_none (get field metadata)); [|trivial].
  rewrite get_set_same. intros [= ->]. discriminate T.
Qed.

(** C10. Tier 2 never assigns the score 0: when the script returns 0
    for a score that is still unset, the score stays null; and a score
    that is 0 after tier 2 was 0 before it. *)
Theorem tier2_skips_zero (scores : js_scores) (metadata : dict) :
  (js_tomatometer scores = Some 0%Z ->
   get "tomatometer_score" metadata = VNone ->
   get "tomatometer_score" (tier2 scores metadata) = VNone)
  /\ (js_audience scores = Some 0%Z ->
      get "audience_score" metadata = VNone ->
      get "audience_score" (tier2 scores metadata) = VNone)
  /\ (get "tomatometer_score" (tier2 scores metadata) = VInt 0 ->
      get "tomatometer_score" metadata = VInt 0)
  /\ (get "audience_score" (tier2 scores metadata) = VInt 0 ->
      get "audience_score" metadata = VInt 0).
Proof.
  unfold tier2. repeat split.
  - intros E G. rewrite tier2_assign_other by reflexivity.
    now rewrite E, tier2_assign_zero.
  - intros E G. rewrite E, tier2_assign_zero.
    now rewrite tier2_assign_other by reflexivity.
  - rewrite tier2_assign_other by reflexivity.
    apply tier2_assign_never_zero.
  - intro H. apply tier2_assign_never_zero in H.
    now rewrite tier2_assign_other in H by reflexivity.
Qed.

(** The script finds the texts "0%" and "0": it returns 0 twice, and
    both scores stay null. *)
Lemma tier2_skips_zero_witness :
  score_script (Some ("0%" : str), Some ("0" : str))
  = {| js_tomatometer := Some 0%Z; js_audience := Some 0%Z |}
  /\ get "tomatometer_score"
       (tier2 (score_script (Some ("0%" : str), Some ("0" : str)))
          (initial_metadata "u" "t")) = VNone
  /\ get "audience_score"
       (tier2 (score_script (Some ("0%" : str), Some ("0" : str)))
          (initial_metadata "u" "t")) = VNone.
Proof.
  split; [reflexivity|].
  pose proof (tier2_skips_zero
                (score_script (Some ("0%" : str), Some ("0" : str)))
                (initial_metadata "u" "t")) as (H1 & H2 & _).
  split; [apply H1 | apply H2]; reflexivity.
Defined.

(** *** Errors *)

(** C8 (as amended). Once the set-up has completed, an error inside
    the [try] statement (raised by the viewport call, by the
    navigation, by the [int] of the post-processing or by the final
    [browser.close()]) hands over to the error handler, which closes
    the browser: when that close completes, the extractor returns the
    record of exactly [url], [title] and the text of the error, and
    nothing of what had been gathered; when that close raises, its
    exception leaves the extractor and no record is returned. The
    engine is not called again after the failure, except to close the
    browser; after a navigation failure no extraction call has been
    made at all. *)
Theorem extraction_error_is_minimal (s : session) (url title e : str) :
  acquire s = Got tt ->
  viewport s = Raised e
  \/ (viewport s = Got tt /\ goto s = Raised e)
  \/ (viewport s = Got tt /\ goto s = Got tt
      /\ gathered s url title = Raised e)
  \/ (viewport s = Got tt /\ goto s = Got tt
      /\ (exists metadata, gathered s url title = Got metadata)
      /\ close s = Raised e) ->
  (close_after_error s = Got tt ->
   outcome (scrape_movie_metadata_efficient s url title)
   = Got (failure_record url title e))
  /\ (forall e', close_after_error s = Raised e' ->
                 outcome (scrape_movie_metadata_efficient s url title)
                 = Raised e')
  /\ keys (failure_record url title e) = ["url"; "title"; "error"]
  /\ get "url" (failure_record url title e) = VStr url
  /\ get "title" (failure_record url title e) = VStr title
  /\ get "error" (failure_record url title e) = VStr e
  /\ (viewport s = Raised e ->
      calls (scrape_movie_metadata_efficient s url title)
      = [StartPlaywright; Launch; NewPage; SetViewport; CloseBrowser])
  /\ (viewport s = Got tt -> goto s = Raised e ->
      calls (scrape_movie_metadata_efficient s url title)
      = [StartPlaywright; Launch; NewPage; SetViewport; Goto; CloseBrowser])
  /\ (viewport s = Got tt -> goto s = Got tt ->
      gathered s url title = Raised e ->
      calls (scrape_movie_metadata_efficient s url title)
      = [StartPlaywright; Launch; NewPage; SetViewport; Goto]
        ++ gathering_calls s url title ++ [CloseBrowser])
  /\ (viewport s = Got tt -> goto s = Got tt ->
      (exists metadata, gathered s url title = Got metadata) ->
      close s = Raised e ->
      calls (scrape_movie_metadata_efficient s url title)
      = [StartPlaywright; Launch; NewPage; SetViewport; Goto]
        ++ gathering_calls s url title ++ [CloseBrowser; CloseBrowser]).
Proof.
  intros Ha H.
  rewrite scrape_outcome_cases, scrape_calls_cases.
  rewrite (setup_calls_acquired s tt Ha), Ha. cbv zeta.
  destruct H as [Hv | [(Hv & Hg) | [(Hv & Hg & Hp)
                                   | (Hv & Hg & (md & Hp) & Hc)]]];
    rewrite Hv; try rewrite Hg; try rewrite Hp; try rewrite Hc;
    (split; [now intros ->|]);
    (split; [now intros e' ->|]);
    do 4 (split; [reflexivity|]);
    repeat split; intros; try discriminate; try reflexivity;
    match goal with
    | H : exists _, _ |- _ => destruct H; discriminate
    end.
Qed.

(** A navigation that times out, and a runtime of 4301 digits that
    [int] refuses: both end in the failure record. *)
Lemma extraction_error_is_minimal_witness :
  outcome (scrape_movie_metadata_efficient
             (unreachable_session "Timeout 30000ms exceeded") "u" "t")
  = Got (failure_record "u" "t" "Timeout 30000ms exceeded")
  /\ get "error" (failure_record "u" "t" "Timeout 30000ms exceeded")
     = VStr "Timeout 30000ms exceeded"
  /\ calls (scrape_movie_metadata_efficient
              (unreachable_session "Timeout 30000ms exceeded") "u" "t")
     = [StartPlaywright; Launch; NewPage; SetViewport; Goto; CloseBrowser]
  /\ outcome (scrape_movie_metadata_efficient overlong_runtime_session
                "u" "t")
     = Got (failure_record "u" "t" (int_limit_error 4301)).
Proof.
  pose proof (extraction_error_is_minimal
                (unreachable_session "Timeout 30000ms exceeded") "u" "t"
                "Timeout 30000ms exceeded" eq_refl
                (or_intror (or_introl (conj eq_refl eq_refl))))
    as (H1 & _ & _ & _ & _ & H2 & _ & H3 & _).
  split; [exact (H1 eq_refl)|]. split; [exact H2|].
  split; [exact (H3 eq_refl eq_refl)|].
  assert (G : gathered overlong_runtime_session "u" "t"
              = Raised (int_limit_error 4301))
    by (vm_compute; reflexivity).
  exact (proj1 (extraction_error_is_minimal overlong_runtime_session
                  "u" "t" (int_limit_error 4301) eq_refl
                  (or_intror (or_intror (or_introl
                     (conj eq_refl (conj eq_refl G))))))
           eq_refl).
Defined.

(** C8 as stated fails: the [browser.close()] of the error handler is
    not guarded. The navigation fails and the browser then fails to
    close: the extractor returns no record, it raises the second
    error. *)
Lemma failed_close_returns_no_record :
  goto (crashed_session "Timeout 30000ms exceeded" "Connection closed")
  = Raised "Timeout 30000ms exceeded"
  /\ outcome (scrape_movie_metadata_efficient
                (crashed_session "Timeout 30000ms exceeded"
                   "Connection closed") "u" "t")
     = Raised "Connection closed"
  /\ calls (scrape_movie_metadata_efficient
              (crashed_session "Timeout 30000ms exceeded"
                 "Connection closed") "u" "t")
     = [StartPlaywright; Launch; NewPage; SetViewport; Goto; CloseBrowser].
Proof. repeat split; reflexivity. Qed.

(** *** The returned record names its entry *)

Section Identity.

Variables url title : str.

Local Abbreviation identified := (identified url title).

Lemma identified_set k v metadata :
  String.eqb "url" k = false -> String.eqb "title" k = false ->
  identified metadata -> identified (set k v metadata).
Proof.
  intros H1 H2 [Hu Ht]. split; now rewrite get_set_other.
Qed.

Lemma identified_initial : identified (initial_metadata url title).
Proof. now split. Qed.

Lemma identified_failure e : identified (failure_record url title e).
Proof. now split. Qed.

Lemma identified_tier1 field text metadata :
  String.eqb "url" field = false -> String.eqb "title" field = false ->
  identified metadata -> identified (tier1 field text metadata).
Proof.
  intros H1 H2 H. unfold tier1. destruct text as [[|c t]|]; try exact H.
  destruct (search_digits_1_3 _); [|exact H].
  destruct (in_range _); [now apply identified_set | exact H].
Qed.

Lemma identified_tier2_assign field v metadata :
  String.eqb "url" field = false -> String.eqb "title" field = false ->
  identified metadata -> identified (tier2_assign field v metadata).
Proof.
  intros H1 H2 H. unfold tier2_assign. destruct v; [|exact H].
  destruct (_ && _); [now apply identified_set | exact H].
Qed.

Lemma identified_tier2 scores metadata :
  identified metadata -> identified (tier2 scores metadata).
Proof.
  intro H. unfold tier2. now repeat apply identified_tier2_assign.
Qed.

Lemma identified_assign_if_none field score metadata :
  String.eqb "url" field = false -> String.eqb "title" field = false ->
  identified metadata -> identified (assign_if_none field score metadata).
Proof.
  intros H1 H2 H. unfold assign_if_none.
  destruct (is_none _); [now apply identified_set | exact H].
Qed.

Lemma identified_tier3 texts metadata :
  identified metadata -> identified (tier3 texts metadata).
Proof.
  intro H. unfold tier3.
  destruct (potential_scores texts) as [|a [|b [|c l]]]; try exact H.
  now repeat apply identified_assign_if_none.
Qed.

Lemma identified_assign_field field vals metadata :
  identified metadata -> identified (assign_field field vals metadata).
Proof.
  intro H. unfold assign_field. destruct vals as [|first rest]; [exact H|].
  repeat match goal with
         | |- context [if ?b then _ else _] => destruct b
         end;
    try exact H; now apply identified_set.
Qed.

Lemma identified_process_item metadata item :
  identified metadata -> identified (process_item metadata item).
Proof.
  intro H. unfold process_item. destruct item as [it|e]; [|exact H].
  destruct (item_label it); [|exact H].
  destruct (target_field _); [|exact H].
  now apply identified_assign_field.
Qed.

Lemma identified_info_fields items : forall metadata,
  identified metadata -> identified (info_fields items metadata).
Proof.
  unfold info_fields. induction items as [|item items IH]; intros md H;
    simpl; [exact H|].
  apply IH. now apply identified_process_item.
Qed.

Lemma identified_sanitize metadata :
  identified metadata -> identified (sanitize metadata).
Proof.
  intros [Hu Ht]. unfold sanitize.
  split; now rewrite !sanitize_score_other by reflexivity.
Qed.

Lemma identified_postprocess metadata r :
  postprocess_duration metadata = Got r ->
  identified metadata -> identified r.
Proof.
  intros H [Hu Ht].
  split; now rewrite (postprocess_duration_other _ _ _ H) by reflexivity.
Qed.

Lemma gathered_identified s r :
  gathered s url title = Got r -> identified r.
Proof.
  unfold gathered, collected. intro H.
  apply (identified_postprocess _ _ H).
  apply identified_sanitize, identified_info_fields.
  unfold after_tier3, after_tier2, after_tier1. cbv zeta.
  repeat match goal with
         | |- context [if ?b then _ else _] => destruct b
         end;
    repeat first
      [ apply identified_tier3
      | apply identified_tier2
      | apply identified_tier1; [reflexivity | reflexivity |]
      | apply identified_initial ].
Qed.

(** Every record that the extractor returns carries the URL and the
    title it was called with. *)
Lemma scrape_identified s r :
  outcome (scrape_movie_metadata_efficient s url title) = Got r ->
  identified r.
Proof.
  rewrite scrape_outcome_cases. cbv zeta.
  assert (F : forall e, match close_after_error s with
                        | Got _ => Got (failure_record url title e)
                        | Raised e' => Raised e'
                        end = Got r -> identified r).
  { intro e. destruct (close_after_error s); [|discriminate].
    intros [= <-]. apply identified_failure. }
  destruct (acquire s); [|discriminate].
  destruct (viewport s); [|apply F].
  destruct (goto s); [|apply F].
  destruct (gathered s url title) as [metadata|e] eqn:G; [|apply F].
  destruct (close s); [|apply F].
  intros [= <-]. now apply (gathered_identified s).
Qed.

End Identity.

Lemma identified_nonempty url title r : identified url title r -> r <> [].
Proof. intros [H _] ->. discriminate H. Qed.

End ExtractorFacts.


(** ** The batch coordinator *)

Module BatchFacts.

Import ListCollector DetailExtractor BatchCoordinator BatchNotions
  ExtractorFacts.

(** *** Task lists *)

Lemma nth_error_update {A} (x : A) l : forall j j',
  nth_error (update j x l) j'
  = if (j' =? j)%nat
    then (match nth_error l j with Some _ => Some x | None => None end)
    else nth_error l j'.
Proof.
  induction l as [|y l IH]; intros [|j] [|j']; simpl; try reflexivity.
  - now destruct (j' =? j)%nat.
  - apply IH.
Qed.

Lemma length_update {A} (x : A) l : forall j,
  List.length (update j x l) = List.length l.
Proof.
  induction l as [|y l IH]; intros [|j]; simpl; try reflexivity.
  now rewrite IH.
Qed.

Lemma nth_error_chunk_of {A} i (l : list A) p :
  nth_error (chunk_of i l) p
  = if (p <? chunk_size)%nat then nth_error l (i + p) else None.
Proof.
  unfold chunk_of. rewrite nth_error_firstn, nth_error_skipn. reflexivity.
Qed.

Lemma length_dispatch i ts : List.length (dispatch i ts) = List.length ts.
Proof.
  unfold dispatch, chunk_of, chunk_size.
  rewrite !length_app, length_map, !length_firstn, !length_skipn. lia.
Qed.

Lemma nth_error_dispatch i ts j :
  nth_error (dispatch i ts) j
  = if ((i <=? j) && (j <? i + chunk_size))%nat
    then option_map (fun _ => Waiting) (nth_error ts j)
    else nth_error ts j.
Proof.
  destruct (Nat.le_gt_cases (List.length ts) j) as [Hlen | Hlen].
  { (* beyond the list *)
    assert (E : nth_error ts j = None) by now apply nth_error_None.
    assert (E' : nth_error (dispatch i ts) j = None)
      by (apply nth_error_None; now rewrite length_dispatch).
    rewrite E, E'. now destruct (_ && _). }
  unfold dispatch, chunk_of, chunk_size.
  rewrite nth_error_app, length_firstn, nth_error_firstn.
  destruct (Nat.leb_spec i j) as [Hij | Hij]; cbn [andb].
  - destruct (Nat.ltb_spec j (Nat.min i (List.length ts))); [lia|].
    rewrite nth_error_app, length_map, nth_error_map, nth_error_firstn,
      nth_error_skipn, length_firstn, length_skipn.
    replace (Nat.min i (List.length ts)) with i by lia.
    destruct (Nat.ltb_spec j (i + 10)) as [Hj | Hj].
    + destruct (Nat.ltb_spec (j - i) (Nat.min 10 (List.length ts - i)));
        [|lia].
      destruct (Nat.ltb_spec (j - i) 10); [|lia].
      now replace (i + (j - i)) with j by lia.
    + destruct (Nat.ltb_spec (j - i) (Nat.min 10 (List.length ts - i)));
        [lia|].
      rewrite nth_error_skipn. f_equal. lia.
  - destruct (Nat.ltb_spec j (Nat.min i (List.length ts))); [|lia].
    destruct (Nat.ltb_spec j i); [reflexivity | lia].
Qed.

Lemma settled_results_map chunk rs :
  settled_results chunk = Some rs -> chunk = map Settled rs.
Proof.
  revert rs. induction chunk as [|t chunk IH]; intros rs; simpl.
  - now intros [= <-].
  - destruct t as [| | |r]; try discriminate.
    destruct (settled_results chunk) as [rs'|]; [|discriminate].
    intros [= <-]. simpl. f_equal. now apply IH.
Qed.

Lemma settled_results_none chunk :
  settled_results chunk = None ->
  exists p t, nth_error chunk p = Some t
              /\ (t = Created \/ t = Waiting \/ t = InFlight).
Proof.
  induction chunk as [|t chunk IH]; simpl; [discriminate|].
  destruct t as [| | |r].
  1-3: intros _; exists 0; eexists; split; [reflexivity | tauto].
  destruct (settled_results chunk); [discriminate|].
  intros _. destruct (IH eq_refl) as (p & t & H1 & H2).
  exists (S p), t. now split.
Qed.

(** *** Tasks in flight *)

Lemma in_flight_cons t ts : in_flight (t :: ts) = flying t + in_flight ts.
Proof. unfold in_flight. now destruct t. Qed.

Lemma in_flight_app a b : in_flight (a ++ b) = in_flight a + in_flight b.
Proof.
  unfold in_flight. now rewrite filter_app, length_app.
Qed.

Lemma in_flight_update ts : forall j t x,
  nth_error ts j = Some t ->
  in_flight (update j x ts) + flying t = in_flight ts + flying x.
Proof.
  induction ts as [|y ts IH]; intros [|j] t x H; simpl in H;
    try discriminate.
  - injection H as ->. cbn [update]. rewrite !in_flight_cons. lia.
  - cbn [update]. rewrite !in_flight_cons.
    specialize (IH j t x H). lia.
Qed.

Lemma in_flight_exists ts :
  0 < in_flight ts -> exists j, nth_error ts j = Some InFlight.
Proof.
  induction ts as [|t ts IH]; [unfold in_flight; simpl; lia|].
  rewrite in_flight_cons. destruct t; simpl; intro H;
    try (destruct (IH H) as [j Hj]; now exists (S j)).
  now exists 0.
Qed.

Lemma in_flight_waiting {A} (l : list A) :
  in_flight (map (fun _ => Waiting) l) = 0.
Proof. induction l; [reflexivity | now rewrite map_cons, in_flight_cons]. Qed.

(** *** The work left *)

Lemma weight_update ts : forall j t x,
  nth_error ts j = Some t ->
  list_sum (map task_weight (update j x ts)) + task_weight t
  = list_sum (map task_weight ts) + task_weight x.
Proof.
  induction ts as [|y ts IH]; intros [|j] t x H; simpl in H;
    try discriminate.
  - injection H as ->. simpl. lia.
  - simpl. specialize (IH j t x H). lia.
Qed.

Section Coordinator.

Variable sessions : nat -> session.
Variable movies : list movie.
Variable max_concurrent : nat.

Local Abbreviation process_movie := (process_movie sessions).
Local Abbreviation recorded := (recorded sessions movies).
Local Abbreviation outcomes := (outcomes sessions movies).
Local Abbreviation aggregate := (aggregate movies).
Local Abbreviation coherent := (coherent sessions movies max_concurrent).
Local Abbreviation step := (step sessions movies).
Local Abbreviation reachable := (reachable sessions movies max_concurrent).
Local Abbreviation task_ok := (task_ok sessions movies).
Local Abbreviation initial := (initial movies max_concurrent).

(** *** What is recorded *)

Lemma process_movie_got j m : exists result, process_movie j m = Got result.
Proof.
  unfold BatchCoordinator.process_movie.
  destruct (outcome _); eauto.
Qed.

Lemma recorded_beyond j : List.length movies <= j -> recorded j = [].
Proof.
  intro H. unfold BatchCoordinator.recorded.
  apply nth_error_None in H. now rewrite H.
Qed.

Lemma recorded_run_beyond len : forall a,
  List.length movies <= a -> flat_map recorded (seq a len) = [].
Proof.
  induction len as [|len IH]; intros a H; simpl; [reflexivity|].
  rewrite recorded_beyond by exact H. apply IH. lia.
Qed.

Lemma recorded_run_cut a len :
  flat_map recorded (seq a len)
  = flat_map recorded (seq a (Nat.min len (List.length movies - a))).
Proof.
  set (n := List.length movies).
  replace len with (Nat.min len (n - a) + (len - Nat.min len (n - a)))
    at 1 by lia.
  rewrite seq_app, flat_map_app.
  destruct (Nat.le_gt_cases len (n - a)) as [H | H].
  - replace (len - Nat.min len (n - a)) with 0 by lia.
    simpl. now rewrite app_nil_r.
  - rewrite (recorded_run_beyond _ (a + Nat.min len (n - a))) by (unfold n; lia).
    now rewrite app_nil_r.
Qed.

Lemma outcomes_app a len :
  outcomes (a + len) = outcomes a ++ flat_map recorded (seq a len).
Proof.
  unfold BatchCoordinator.outcomes. now rewrite seq_app, flat_map_app.
Qed.

Lemma outcomes_beyond i :
  List.length movies <= i -> outcomes i = outcomes (List.length movies).
Proof.
  intro H. replace i with (List.length movies + (i - List.length movies))
    by lia.
  rewrite outcomes_app, recorded_run_beyond by lia. apply app_nil_r.
Qed.

(** The loop over the gathered results appends what is recorded for
    each entry of the chunk. *)
Lemma aggregate_recorded chunk_results : forall i j acc,
  (forall p r, nth_error chunk_results p = Some r ->
               exists m, nth_error movies (i + j + p) = Some m
                         /\ r = process_movie (i + j + p) m) ->
  aggregate i j chunk_results acc
  = acc ++ flat_map recorded (seq (i + j) (List.length chunk_results)).
Proof.
  induction chunk_results as [|r rest IH]; intros i j acc H; simpl.
  - now rewrite app_nil_r.
  - destruct (H 0 r eq_refl) as (m & Hm & Hr).
    rewrite Nat.add_0_r in Hm, Hr.
    destruct (process_movie_got (i + j) m) as [result Hres].
    assert (Erec : recorded (i + j)
                   = match result with [] => [] | _ => [result] end).
    { unfold BatchCoordinator.recorded. rewrite Hm, Hres. reflexivity. }
    rewrite Hr, Hres, Erec.
    rewrite IH.
    + replace (i + S j) with (S (i + j)) by lia.
      destruct result; [now rewrite app_nil_l | now rewrite <- app_assoc].
    + intros p r' Hp. replace (i + S j + p) with (i + j + S p) by lia.
      now apply H.
Qed.

(** *** The invariant *)

Lemma coherent_length s :
  coherent s -> List.length (tasks s) = List.length movies.
Proof.
  intros (_ & _ & H & _).
  destruct (Nat.lt_trichotomy (List.length (tasks s)) (List.length movies))
    as [L | [L | L]]; [exfalso | exact L | exfalso].
  - specialize (H (List.length (tasks s))).
    destruct (nth_error movies (List.length (tasks s))) eqn:E.
    + destruct H as (t & Ht & _).
      assert (nth_error (tasks s) (List.length (tasks s)) = None)
        by now apply nth_error_None.
      congruence.
    + apply nth_error_None in E. lia.
  - specialize (H (List.length movies)).
    assert (E : nth_error movies (List.length movies) = None)
      by now apply nth_error_None.
    rewrite E in H. apply nth_error_None in H. lia.
Qed.

Lemma in_flight_created {A} (l : list A) :
  in_flight (map (fun _ => Created) l) = 0.
Proof. induction l; [reflexivity | now rewrite map_cons, in_flight_cons]. Qed.

Lemma coherent_initial : coherent initial.
Proof.
  unfold BatchCoordinator.coherent, BatchCoordinator.initial.
  cbn [tasks gate at_phase all_results]. repeat split.
  - now rewrite in_flight_created.
  - intro j. rewrite nth_error_map.
    destruct (nth_error movies j); [|reflexivity].
    eexists. split; [reflexivity|]. reflexivity.
Qed.

(** The task of an entry, as the invariant gives it. *)
Lemma coherent_task s j t :
  coherent s -> nth_error (tasks s) j = Some t ->
  exists m, nth_error movies j = Some m /\ task_ok (at_phase s) j m t.
Proof.
  intros (_ & _ & H & _) Ht. specialize (H j).
  destruct (nth_error movies j) as [m|]; [|congruence].
  destruct H as (t' & Ht' & Hok). exists m. split; [reflexivity|].
  congruence.
Qed.

Ltac task_cases :=
  unfold BatchCoordinator.task_ok in *;
  unfold scheduled_upto in *; unfold settled_upto in *;
  unfold chunk_size in *;
  repeat match goal with
         | H : context [(?a <? ?b)%nat] |- _ =>
             let E := fresh "E" in
             destruct (a <? b)%nat eqn:E in *;
             [apply Nat.ltb_lt in E | apply Nat.ltb_ge in E]
         | |- context [(?a <? ?b)%nat] =>
             let E := fresh "E" in
             destruct (a <? b)%nat eqn:E in *;
             [apply Nat.ltb_lt in E | apply Nat.ltb_ge in E]
         end;
  try lia; try tauto; try congruence;
  try match goal with
      | H : _ = _ \/ _ = _ \/ _ = _ |- _ =>
          destruct H as [H | [H | H]]; congruence
      end.

Lemma in_flight_none l :
  (forall p, nth_error l p <> Some InFlight) -> in_flight l = 0.
Proof.
  induction l as [|t l IH]; intro H; [reflexivity|].
  rewrite in_flight_cons, IH.
  - specialize (H 0). simpl in H. destruct t; simpl; congruence.
  - intro p. exact (H (S p)).
Qed.

Lemma in_flight_dispatch_eq i ts :
  (forall j, i <= j -> nth_error ts j <> Some InFlight) ->
  in_flight (dispatch i ts) = in_flight ts.
Proof.
  intro H.
  assert (E : ts = firstn i ts ++ chunk_of i ts ++ skipn (i + chunk_size) ts).
  { unfold chunk_of. replace (i + chunk_size) with (chunk_size + i) by lia.
    now rewrite <- skipn_skipn, !firstn_skipn. }
  rewrite E at 2. unfold dispatch.
  rewrite !in_flight_app, in_flight_waiting.
  rewrite (in_flight_none (chunk_of i ts)); [reflexivity|].
  intro p. rewrite nth_error_chunk_of.
  destruct (p <? chunk_size)%nat; [|discriminate]. apply H. lia.
Qed.

Lemma coherent_step s s' : coherent s -> step s s' -> coherent s'.
Proof.
  intros C Hstep. pose proof (coherent_length s C) as Hlen.
  destruct C as (Hgate & Hph & Htasks & Hres).
  assert (Hat : forall j t, nth_error (tasks s) j = Some t ->
            exists m, nth_error movies j = Some m
                      /\ task_ok (at_phase s) j m t).
  { intros j t Ht. specialize (Htasks j).
    destruct (nth_error movies j) as [m|]; [|congruence].
    destruct Htasks as (t' & Ht' & Hok). exists m. split; [reflexivity|].
    congruence. }
  destruct Hstep; cbn [tasks gate at_phase all_results] in *.
  - (* a chunk is dispatched *)
    repeat split; cbn [tasks gate at_phase all_results].
    + rewrite in_flight_dispatch_eq; [exact Hgate|].
      intros j Hj E. destruct (Hat j _ E) as (m & _ & Hok). task_cases.
    + simpl. lia.
    + intro j. specialize (Htasks j). rewrite nth_error_dispatch.
      destruct (nth_error movies j) as [m|].
      * destruct Htasks as (t & Ht & Hok). rewrite Ht.
        destruct ((i <=? j) && (j <? i + chunk_size))%nat eqn:B.
        -- exists Waiting. split; [reflexivity|].
           apply andb_true_iff in B as [B1 B2].
           apply Nat.leb_le in B1. apply Nat.ltb_lt in B2. task_cases.
        -- exists t. split; [reflexivity|].
           apply andb_false_iff in B as [B | B];
             [apply Nat.leb_gt in B | apply Nat.ltb_ge in B]; task_cases.
      * rewrite Htasks. now destruct (_ && _).
    + exact Hres.
  - (* a task is admitted by the gate *)
    repeat split; cbn [tasks gate at_phase all_results].
    + pose proof (in_flight_update ts j Waiting InFlight H) as E.
      simpl in E. lia.
    + exact Hph.
    + intro j'. specialize (Htasks j'). rewrite nth_error_update.
      destruct (Nat.eqb_spec j' j) as [-> | Hne]; [|exact Htasks].
      rewrite H in *. destruct (nth_error movies j) as [m|]; [|congruence].
      destruct Htasks as (t & [= <-] & Hok).
      exists InFlight. split; [reflexivity|]. task_cases.
    + exact Hres.
  - (* an extraction settles *)
    repeat split; cbn [tasks gate at_phase all_results].
    + pose proof (in_flight_update ts j InFlight
                    (Settled (process_movie j m)) H) as E.
      simpl in E. lia.
    + exact Hph.
    + intro j'. specialize (Htasks j'). rewrite nth_error_update.
      destruct (Nat.eqb_spec j' j) as [-> | Hne]; [|exact Htasks].
      rewrite H in *. rewrite H0 in *.
      destruct Htasks as (t & [= <-] & Hok).
      eexists. split; [reflexivity|]. task_cases.
    + exact Hres.
  - (* the chunk is gathered *)
    apply settled_results_map in H.
    assert (Hchunk : forall p r, nth_error chunk_results p = Some r ->
              exists m, nth_error movies (i + 0 + p) = Some m
                        /\ r = process_movie (i + 0 + p) m).
    { intros p r Hp. rewrite Nat.add_0_r.
      assert (E : nth_error (chunk_of i ts) p = Some (Settled r))
        by now rewrite H, nth_error_map, Hp.
      rewrite nth_error_chunk_of in E.
      destruct (Nat.ltb_spec p chunk_size) as [Hpc|]; [|discriminate].
      destruct (Hat _ _ E) as (m & Hm & Hok). exists m. split; [exact Hm|].
      task_cases. }
    assert (Hlenc : List.length chunk_results
                    = Nat.min chunk_size (List.length movies - i)).
    { rewrite <- (length_map Settled), <- H. unfold chunk_of.
      now rewrite length_firstn, length_skipn, Hlen. }
    assert (Hres' : aggregate i 0 chunk_results rs = outcomes (i + chunk_size)).
    { rewrite aggregate_recorded by exact Hchunk.
      rewrite Nat.add_0_r, Hlenc, <- recorded_run_cut, Hres.
      now rewrite outcomes_app. }
    assert (Hsettled : forall j m t,
              nth_error ts j = Some t -> nth_error movies j = Some m ->
              i <= j < i + chunk_size -> t = Settled (process_movie j m)).
    { intros j m t Ht Hm Hj.
      assert (E : nth_error (chunk_of i ts) (j - i) = Some t).
      { rewrite nth_error_chunk_of.
        destruct (Nat.ltb_spec (j - i) chunk_size); [|lia].
        now replace (i + (j - i)) with j by lia. }
      rewrite H, nth_error_map in E.
      destruct (nth_error chunk_results (j - i)) as [r|] eqn:Er;
        [|discriminate].
      injection E as <-. destruct (Hchunk _ _ Er) as (m' & Hm' & ->).
      replace (i + 0 + (j - i)) with j in * by lia. congruence. }
    destruct (Nat.ltb_spec (i + chunk_size) (List.length ts)) as [Hmore | Hlast].
    + repeat split; cbn [tasks gate at_phase all_results];
        [exact Hgate | simpl; lia | | exact Hres'].
      intro j. specialize (Htasks j).
      destruct (nth_error movies j) as [m|] eqn:Hm; [|exact Htasks].
      destruct Htasks as (t & Ht & Hok). exists t. split; [exact Ht|].
      pose proof (Hsettled j m t Ht Hm) as Hs. task_cases.
    + repeat split; cbn [tasks gate at_phase all_results];
        [exact Hgate | | exact Hres'].
      intro j. specialize (Htasks j).
      destruct (nth_error movies j) as [m|] eqn:Hm; [|exact Htasks].
      destruct Htasks as (t & Ht & Hok). exists t. split; [exact Ht|].
      pose proof (Hsettled j m t Ht Hm) as Hs. task_cases.
  - (* the pacing delay elapses *)
    repeat split; cbn [tasks gate at_phase all_results];
      [exact Hgate | | exact Hres].
    intro j. specialize (Htasks j).
    destruct (nth_error movies j) as [m|]; [|exact Htasks].
    destruct Htasks as (t & Ht & Hok). exists t. split; [exact Ht|].
    task_cases.
  - (* the coordinator returns *)
    repeat split; cbn [tasks gate at_phase all_results]; [exact Hgate | |].
    + intro j. specialize (Htasks j).
      destruct (nth_error movies j) as [m|] eqn:Hm; [|exact Htasks].
      destruct Htasks as (t & Ht & Hok). exists t. split; [exact Ht|].
      assert (j < List.length movies)
        by (apply nth_error_Some; congruence).
      task_cases.
    + rewrite Hres. cbn [settled_upto]. apply outcomes_beyond. lia.
Qed.

Lemma reachable_coherent s : reachable s -> coherent s.
Proof.
  induction 1 as [|s s' _ IH Hstep]; [apply coherent_initial|].
  now apply (coherent_step s s').
Qed.

(** *** Every step does some of the work left *)

Lemma weight_waiting {A} (l : list A) :
  list_sum (map task_weight (map (fun _ => Waiting) l)) = 2 * List.length l.
Proof. induction l; simpl; lia. Qed.

Lemma weight_at_least l :
  (forall p t, nth_error l p = Some t -> 2 <= task_weight t) ->
  2 * List.length l <= list_sum (map task_weight l).
Proof.
  induction l as [|t l IH]; intro H; simpl; [lia|].
  pose proof (H 0 t eq_refl). specialize (IH (fun p => H (S p))). lia.
Qed.

Lemma weight_dispatch i ts :
  (forall j t, i <= j -> nth_error ts j = Some t -> 2 <= task_weight t) ->
  list_sum (map task_weight (dispatch i ts))
  <= list_sum (map task_weight ts).
Proof.
  intro H.
  assert (E : ts = firstn i ts ++ chunk_of i ts ++ skipn (i + chunk_size) ts).
  { unfold chunk_of. replace (i + chunk_size) with (chunk_size + i) by lia.
    now rewrite <- skipn_skipn, !firstn_skipn. }
  rewrite E at 2. unfold dispatch.
  rewrite !map_app, !list_sum_app, weight_waiting.
  pose proof (weight_at_least (chunk_of i ts)) as W.
  assert (2 * List.length (chunk_of i ts)
          <= list_sum (map task_weight (chunk_of i ts))).
  { apply W. intros p t. rewrite nth_error_chunk_of.
    destruct (p <? chunk_size)%nat; [|discriminate]. apply H. lia. }
  lia.
Qed.

Lemma step_works s s' : coherent s -> step s s' ->
  work_left s' < work_left s.
Proof.
  intros C Hstep. pose proof (coherent_length s C) as Hlen.
  pose proof C as (_ & Hph & _).
  unfold work_left.
  destruct Hstep; cbn [tasks gate at_phase all_results] in *.
  - rewrite length_dispatch.
    assert (list_sum (map task_weight (dispatch i ts))
            <= list_sum (map task_weight ts)).
    { apply weight_dispatch. intros j t Hj Ht.
      destruct (coherent_task _ _ _ C Ht) as (m & _ & Hok).
      cbn [at_phase] in Hok. task_cases; subst t; simpl; lia. }
    simpl. lia.
  - rewrite length_update.
    pose proof (weight_update ts j Waiting InFlight H). simpl in *. lia.
  - rewrite length_update.
    pose proof (weight_update ts j InFlight
                  (Settled (process_movie j m)) H).
    simpl in *. lia.
  - unfold chunk_size in *. simpl in Hph.
    destruct (Nat.ltb_spec (i + 10) (List.length ts)); simpl; lia.
  - unfold chunk_size in *. simpl in *. lia.
  - simpl. lia.
Qed.

(** *** The coordinator is never stuck *)

Lemma coordinator_progress s :
  1 <= max_concurrent -> coherent s ->
  at_phase s = Finished \/ exists s', step s s'.
Proof.
  intros Hk C. pose proof C as (Hgate & Hph & Htasks & _).
  destruct s as [g ts ph rs]. cbn [tasks gate at_phase] in *.
  destruct ph as [i | i | i |]; [| | |now left]; right.
  - destruct (Nat.lt_ge_cases i (List.length ts)).
    + eexists. now apply step_dispatch.
    + eexists. now apply step_return.
  - destruct (settled_results (chunk_of i ts)) as [chunk_results|] eqn:E.
    + eexists. apply step_gather. exact E.
    + apply settled_results_none in E as (p & t & Hp & Ht).
      rewrite nth_error_chunk_of in Hp.
      destruct (Nat.ltb_spec p chunk_size); [|discriminate].
      destruct (coherent_task _ _ _ C Hp) as (m & Hm & Hok).
      cbn [at_phase] in Hok.
      assert (Hwf : t = Waiting \/ t = InFlight)
        by (destruct Ht as [-> | [-> | ->]]; task_cases).
      destruct Hwf as [-> | ->].
      * destruct g as [|g].
        -- destruct (in_flight_exists ts ltac:(lia)) as [j Hj].
           destruct (coherent_task _ _ _ C Hj) as (m' & Hm' & _).
           eexists. eapply step_settle; eassumption.
        -- eexists. eapply step_admit. exact Hp.
      * eexists. eapply step_settle; eassumption.
  - eexists. apply step_pace.
Qed.

(** Every run of the coordinator can be continued to its end. *)
Lemma coordinator_finishes :
  1 <= max_concurrent ->
  forall n s, work_left s <= n -> reachable s ->
  exists s', reachable s' /\ at_phase s' = Finished.
Proof.
  intro Hk. induction n as [|n IH]; intros s Hn Hr.
  - destruct (coordinator_progress s Hk (reachable_coherent s Hr))
      as [F | [s' Hs]]; [now exists s|].
    pose proof (step_works s s' (reachable_coherent s Hr) Hs). lia.
  - destruct (coordinator_progress s Hk (reachable_coherent s Hr))
      as [F | [s' Hs]]; [now exists s|].
    pose proof (step_works s s' (reachable_coherent s Hr) Hs).
    apply (IH s'); [lia|]. now apply (reach_step _ _ _ s).
Qed.

(** *** One outcome per entry *)

Lemma process_movie_outcome j m :
  process_movie j m = Got (outcome_of sessions j m).
Proof.
  unfold BatchCoordinator.process_movie, outcome_of.
  now destruct (outcome _).
Qed.

Lemma outcome_of_identified j m :
  identified (movie_url m) (movie_title m) (outcome_of sessions j m).
Proof.
  unfold outcome_of.
  destruct (outcome _) as [r|e] eqn:E.
  - now apply (scrape_identified _ _ (sessions j)).
  - apply identified_failure.
Qed.

Lemma recorded_entry j m :
  nth_error movies j = Some m -> recorded j = [outcome_of sessions j m].
Proof.
  intro H. unfold BatchCoordinator.recorded.
  rewrite H, process_movie_outcome.
  pose proof (identified_nonempty _ _ _ (outcome_of_identified j m)).
  now destruct (outcome_of sessions j m).
Qed.

Lemma nth_error_recorded_run len : forall a i,
  a + len <= List.length movies ->
  nth_error (flat_map recorded (seq a len)) i
  = if (i <? len)%nat
    then option_map (outcome_of sessions (a + i)) (nth_error movies (a + i))
    else None.
Proof.
  induction len as [|len IH]; intros a i H.
  - simpl. now destruct i.
  - destruct (nth_error movies a) as [m|] eqn:Hm;
      [|apply nth_error_None in Hm; lia].
    cbn [seq flat_map]. rewrite (recorded_entry a m Hm).
    destruct i as [|i].
    + simpl. now rewrite Nat.add_0_r, Hm.
    + cbn [List.app nth_error]. rewrite IH by lia.
      replace (S a + i) with (a + S i) by lia.
      reflexivity.
Qed.

Lemma length_recorded_run len : forall a,
  a + len <= List.length movies ->
  List.length (flat_map recorded (seq a len)) = len.
Proof.
  induction len as [|len IH]; intros a H; [reflexivity|].
  destruct (nth_error movies a) as [m|] eqn:Hm;
    [|apply nth_error_None in Hm; lia].
  cbn [seq flat_map]. rewrite (recorded_entry a m Hm).
  simpl. now rewrite IH by lia.
Qed.

Lemma finished_results s :
  coherent s -> at_phase s = Finished ->
  List.length (all_results s) = List.length movies
  /\ forall i m, nth_error movies i = Some m ->
       nth_error (all_results s) i = Some (outcome_of sessions i m).
Proof.
  intros (_ & _ & _ & Hres) F. rewrite F in Hres. cbn [settled_upto] in Hres.
  rewrite Hres. unfold BatchCoordinator.outcomes. split.
  - now apply length_recorded_run.
  - intros i m Hm. rewrite nth_error_recorded_run by reflexivity.
    assert (i < List.length movies) by (apply nth_error_Some; congruence).
    destruct (Nat.ltb_spec i (List.length movies)); [|lia].
    simpl. now rewrite Hm.
Qed.

(** *** Admission *)

Lemma step_admission s s' j :
  step s s' ->
  nth_error (tasks s') j = Some InFlight ->
  nth_error (tasks s) j = Some InFlight
  \/ (nth_error (tasks s) j = Some Waiting /\ gate s = S (gate s')).
Proof.
  intros Hstep. destruct Hstep; cbn [tasks gate]; try (now left).
  - rewrite nth_error_dispatch.
    destruct (_ && _); [|now left].
    destruct (nth_error ts j); discriminate.
  - rewrite nth_error_update.
    destruct (Nat.eqb_spec j j0) as [-> | _]; [|now left].
    intros _. now right.
  - rewrite nth_error_update.
    destruct (Nat.eqb_spec j j0) as [-> | _]; [|now left].
    rewrite H. discriminate.
Qed.

End Coordinator.

(** *** Schedules *)

(** An enabled event is a step of the coordinator, and a schedule
    that runs from a reachable state ends in a reachable state. *)
Lemma exec_step sessions movies e s s' :
  exec sessions movies e s = Some s' -> step sessions movies s s'.
Proof.
  destruct s as [g ts ph rs]. unfold exec.
  cbn [gate tasks at_phase all_results].
  destruct e as [|j|j| | |].
  - destruct ph as [i|i|i|]; try discriminate.
    destruct (Nat.ltb_spec i (List.length ts)); [|discriminate].
    intros [= <-]. now apply step_dispatch.
  - assert (H : match g, nth_error ts j with
                | S g', Some Waiting =>
                    Some {| gate := g'; tasks := update j InFlight ts;
                            at_phase := ph; all_results := rs |}
                | _, _ => None
                end = Some s' -> step sessions movies
                                   {| gate := g; tasks := ts; at_phase := ph;
                                      all_results := rs |} s').
    { destruct g as [|g']; [discriminate|].
      destruct (nth_error ts j) as [[| | |r]|] eqn:E; try discriminate.
      intros [= <-]. now apply step_admit. }
    destruct ph; exact H.
  - assert (H : match nth_error ts j, nth_error movies j with
                | Some InFlight, Some m =>
                    Some {| gate := S g;
                            tasks := update j
                                       (Settled (process_movie sessions j m))
                                       ts;
                            at_phase := ph; all_results := rs |}
                | _, _ => None
                end = Some s' -> step sessions movies
                                   {| gate := g; tasks := ts; at_phase := ph;
                                      all_results := rs |} s').
    { destruct (nth_error ts j) as [[| | |r]|] eqn:E; try discriminate.
      destruct (nth_error movies j) as [m|] eqn:Em; [|discriminate].
      intros [= <-]. now apply step_settle. }
    destruct ph; exact H.
  - destruct ph as [i|i|i|]; try discriminate.
    destruct (settled_results (chunk_of i ts)) as [chunk_results|] eqn:E;
      [|discriminate].
    intros [= <-]. now apply step_gather.
  - destruct ph as [i|i|i|]; try discriminate.
    intros [= <-]. apply step_pace.
  - destruct ph as [i|i|i|]; try discriminate.
    destruct (Nat.leb_spec (List.length ts) i); [|discriminate].
    intros [= <-]. now apply step_return.
Qed.

Lemma run_events_reachable sessions movies max_concurrent es : forall s s',
  reachable sessions movies max_concurrent s ->
  run_events sessions movies es s = Some s' ->
  reachable sessions movies max_concurrent s'.
Proof.
  induction es as [|e es IH]; intros s s' Hr; cbn [run_events].
  - now intros [= <-].
  - destruct (exec sessions movies e s) as [s1|] eqn:E; [|discriminate].
    apply IH. apply (reach_step _ _ _ s); [exact Hr|].
    now apply (exec_step sessions movies e).
Qed.

(** C1. With at least one slot in the gate, the coordinator returns
    (some run reaches the [return], no reachable state short of it is
    stuck, and every step does some of the bounded work left, so that
    every run ends there), and what it returns has exactly one outcome
    per entry, in the order of the entries: the record carries the URL
    and the title of its entry, it is the extractor's record when the
    extraction returned one, and when the extraction raised an error it
    is the failure record of that entry's URL, title and error text,
    the other entries keeping their own outcomes. *)
Theorem batch_returns_one_outcome_per_entry
  (sessions : nat -> session) (movies : list movie) (max_concurrent : nat) :
  1 <= max_concurrent ->
  (exists s, reachable sessions movies max_concurrent s
             /\ at_phase s = Finished)
  /\ (forall s, reachable sessions movies max_concurrent s ->
                at_phase s = Finished \/ exists s', step sessions movies s s')
  /\ (forall s s', reachable sessions movies max_concurrent s ->
                   step sessions movies s s' -> work_left s' < work_left s)
  /\ (forall s, reachable sessions movies max_concurrent s ->
                at_phase s = Finished ->
        List.length (all_results s) = List.length movies
        /\ forall i m, nth_error movies i = Some m ->
             nth_error (all_results s) i = Some (outcome_of sessions i m)
             /\ identified (movie_url m) (movie_title m)
                  (outcome_of sessions i m)
             /\ (forall r,
                   outcome (scrape_movie_metadata_efficient (sessions i)
                              (movie_url m) (movie_title m)) = Got r ->
                   outcome_of sessions i m = r)
             /\ (forall e,
                   outcome (scrape_movie_metadata_efficient (sessions i)
                              (movie_url m) (movie_title m)) = Raised e ->
                   outcome_of sessions i m
                   = failure_record (movie_url m) (movie_title m) e
                   /\ keys (outcome_of sessions i m)
                      = ["url"; "title"; "error"]
                   /\ get "url" (outcome_of sessions i m)
                      = VStr (movie_url m)
                   /\ get "title" (outcome_of sessions i m)
                      = VStr (movie_title m)
                   /\ get "error" (outcome_of sessions i m) = VStr e)).
Proof.
  intro Hk. split; [|split; [|split]].
  - apply (coordinator_finishes sessions movies max_concurrent Hk
             (work_left (initial movies max_concurrent))
             (initial movies max_concurrent) (le_n _)).
    apply reach_initial.
  - intros s Hr. apply (coordinator_progress sessions movies max_concurrent);
      [exact Hk | now apply reachable_coherent].
  - intros s s' Hr. apply (step_works sessions movies max_concurrent).
    now apply reachable_coherent.
  - intros s Hr F.
    destruct (finished_results sessions movies max_concurrent s
                (reachable_coherent _ _ _ s Hr) F) as [Hlen Hnth].
    split; [exact Hlen|]. intros i m Hm.
    split; [now apply Hnth|].
    split; [apply outcome_of_identified|].
    unfold outcome_of. split; intros x ->; [reflexivity|].
    repeat split; reflexivity.
Qed.

(** The two entries of the example run side by side; the browser of
    the first does not start. The coordinator returns two records, and
    the first is the failure record of the first entry, with the text
    of the error. *)
Lemma batch_returns_one_outcome_per_entry_witness :
  exists s,
    run_events example_sessions example_movies
      [Dispatch; Admit 0; Admit 1; Settle 1; Settle 0; Gather; Return]
      (initial example_movies 3) = Some s
    /\ at_phase s = Finished
    /\ List.length (all_results s) = 2
    /\ (exists r, nth_error (all_results s) 0 = Some r
                  /\ keys r = ["url"; "title"; "error"]
                  /\ get "url" r = VStr "https://www.rottentomatoes.com/m/dune"
                  /\ get "title" r = VStr "Dune"
                  /\ get "error" r = VStr "browser did not start")
    /\ (exists r, nth_error (all_results s) 1 = Some r
                  /\ get "title" r = VStr "Heat"
                  /\ get "tomatometer_score" r = VInt 92).
Proof.
  destruct (run_events example_sessions example_movies
              [Dispatch; Admit 0; Admit 1; Settle 1; Settle 0; Gather; Return]
              (initial example_movies 3)) as [s|] eqn:E;
    [|vm_compute in E; discriminate E].
  exists s. split; [reflexivity|].
  assert (F : at_phase s = Finished)
    by (vm_compute in E; now injection E as <-).
  split; [exact F|].
  pose proof (run_events_reachable example_sessions example_movies 3 _ _ _
                (reach_initial _ _ _) E) as R.
  destruct (batch_returns_one_outcome_per_entry example_sessions
              example_movies 3 (le_S _ _ (le_S _ _ (le_n 1))))
    as (_ & _ & _ & H).
  destruct (H s R F) as [L N]. split; [exact L|].
  split.
  - destruct (N 0 _ eq_refl) as (N0 & _ & _ & Ne).
    eexists. split; [exact N0|].
    destruct (Ne ("browser did not start" : str) eq_refl)
      as (_ & K & U & T & Er).
    auto.
  - destruct (N 1 _ eq_refl) as (N1 & [_ T] & _).
    eexists. split; [exact N1|]. split; [exact T | reflexivity].
Defined.

(** C9. In every state that the coordinator can reach, the number of
    extractions in flight and the number of free slots of the gate add
    up to [max_concurrent], so that at most [max_concurrent]
    extractions are in flight; and a task is in flight after a step
    only if it was in flight before, or was waiting and took a free
    slot: with no free slot, every waiting task goes on waiting. *)
Theorem gate_bounds_extractions_in_flight
  (sessions : nat -> session) (movies : list movie) (max_concurrent : nat)
  (s : state) :
  reachable sessions movies max_concurrent s ->
  in_flight (tasks s) + gate s = max_concurrent
  /\ in_flight (tasks s) <= max_concurrent
  /\ (forall s' j, step sessions movies s s' ->
        nth_error (tasks s') j = Some InFlight ->
        nth_error (tasks s) j = Some InFlight
        \/ (nth_error (tasks s) j = Some Waiting /\ gate s = S (gate s')))
  /\ (forall s' j, step sessions movies s s' -> gate s = 0 ->
        nth_error (tasks s) j = Some Waiting ->
        nth_error (tasks s') j = Some Waiting).
Proof.
  intro Hr. pose proof (reachable_coherent _ _ _ s Hr) as (Hgate & _).
  split; [exact Hgate|]. split; [lia|]. split.
  - intros s' j. apply step_admission.
  - intros s' j Hstep Hg Hw.
    destruct Hstep; cbn [tasks gate] in *; try exact Hw; try discriminate.
    + rewrite nth_error_dispatch, Hw. now destruct (_ && _).
    + rewrite nth_error_update.
      destruct (Nat.eqb_spec j j0) as [-> | _]; [congruence | exact Hw].
Qed.

(** After the first chunk has been dispatched and its first task
    admitted, one extraction is in flight and two slots are free. *)
Lemma gate_bounds_extractions_in_flight_witness :
  in_flight [InFlight; Waiting] + 2 = 3 /\ in_flight [InFlight; Waiting] <= 3.
Proof.
  assert (R : reachable example_sessions example_movies 3
                {| gate := 2; tasks := [InFlight; Waiting];
                   at_phase := Gathering 0; all_results := [] |}).
  { apply (reach_step _ _ _
             {| gate := 3;
                tasks := dispatch 0 (map (fun _ => Created) example_movies);
                at_phase := Gathering 0; all_results := [] |}).
    - apply (reach_step _ _ _ (initial example_movies 3));
        [apply reach_initial|].
      apply step_dispatch. exact (le_S _ _ (le_n 1)).
    - apply (step_admit example_sessions example_movies 2
               (dispatch 0 (map (fun _ => Created) example_movies))
               (Gathering 0) [] 0).
      reflexivity. }
  pose proof (gate_bounds_extractions_in_flight example_sessions
                example_movies 3 _ R) as (H1 & H2 & _).
  exact (conj H1 H2).
Defined.

End BatchFacts.

(** ** More on [normalize_url] *)

Module UrlKeyFacts.

Import StrFacts Normalize UrlLib UrlFacts.

(** *** Text followed by a query string or a fragment *)

Lemma take_while_app_query p x q :
  (forall c, path_char c = false -> p c = false) ->
  query_and_fragment q = true ->
  take_while p (x ++ q) = take_while p x.
Proof.
  intros Hp Hq. destruct q as [|c q]; [now rewrite app_nil_r|].
  apply take_while_app_cut, Hp.
  unfold query_and_fragment in Hq. now apply negb_true_iff in Hq.
Qed.

Lemma drop_while_app_query p x q :
  (forall c, path_char c = false -> p c = false) ->
  query_and_fragment q = true ->
  drop_while p (x ++ q) = drop_while p x ++ q.
Proof.
  intros Hp Hq. induction x as [|a x IH]; simpl.
  - destruct q as [|c q]; [reflexivity|]. simpl.
    unfold query_and_fragment in Hq. apply negb_true_iff in Hq.
    now rewrite (Hp c Hq).
  - destruct (p a); [exact IH | reflexivity].
Qed.

Lemma forallb_drop_while_of f p (s : str) :
  forallb f s = true -> forallb f (drop_while p s) = true.
Proof.
  induction s as [|c t IH]; simpl; [reflexivity|].
  intro H. destruct (p c); [|exact H].
  apply andb_true_iff in H as [_ H]. now apply IH.
Qed.

Lemma drop_while_app_found p (a q : str) :
  drop_while p a <> [] -> drop_while p (a ++ q) = drop_while p a ++ q.
Proof.
  induction a as [|c a IH]; simpl; [contradiction|].
  destruct (p c); [exact IH | reflexivity].
Qed.

Lemma take_drop_while p (s : str) : take_while p s ++ drop_while p s = s.
Proof.
  induction s as [|c t IH]; simpl; [reflexivity|].
  destruct (p c); simpl; [now rewrite IH | reflexivity].
Qed.

Lemma startswith_app_query p : forall u q,
  p <> [] -> forallb path_char p = true ->
  query_and_fragment q = true ->
  startswith p (u ++ q) = startswith p u.
Proof.
  induction p as [|c p IH]; intros u q Hne Hp Hq; [contradiction|].
  simpl in Hp. apply andb_true_iff in Hp as [Hc Hp].
  destruct u as [|x u].
  - destruct q as [|d q]; [reflexivity|]. simpl.
    unfold query_and_fragment in Hq. apply negb_true_iff in Hq.
    destruct (Ascii.eqb c d) eqn:E; [|reflexivity].
    apply Ascii.eqb_eq in E. congruence.
  - simpl. destruct p as [|c' p]; [reflexivity|].
    rewrite IH; [reflexivity | discriminate | exact Hp | exact Hq].
Qed.

Lemma c0_is_path_char c : path_char c = false -> c0_control_or_space c = false.
Proof. destruct c as [[] [] [] [] [] [] [] []]; vm_compute; congruence. Qed.

Lemma colon_is_path_char c :
  path_char c = false -> negb (is_char ":" c) = true.
Proof. destruct c as [[] [] [] [] [] [] [] []]; vm_compute; congruence. Qed.

Lemma scheme_char_is_path_char c : path_char c = false -> scheme_char c = false.
Proof. destruct c as [[] [] [] [] [] [] [] []]; vm_compute; congruence. Qed.

Lemma clean_query q :
  query_and_fragment q = true -> query_and_fragment (clean q) = true.
Proof.
  destruct q as [|c q]; [reflexivity|]. intro Hq.
  unfold query_and_fragment in Hq. apply negb_true_iff in Hq.
  destruct (not_path_char_facts c Hq) as [Hsafe _].
  unfold clean. cbn [filter]. rewrite Hsafe.
  unfold query_and_fragment. now rewrite Hq.
Qed.

(** *** The scheme *)

Lemma split_scheme_app_query a q :
  query_and_fragment q = true ->
  split_scheme (a ++ q) = (fst (split_scheme a), snd (split_scheme a) ++ q).
Proof.
  intros Hq. unfold split_scheme.
  set (nc := fun c => negb (is_char ":" c)).
  destruct (drop_while nc a) as [|x rest] eqn:D.
  - (* no colon in [a] *)
    assert (Ta : take_while nc a = a).
    { rewrite <- (take_drop_while nc a) at 2. now rewrite D, app_nil_r. }
    assert (Fa : forallb nc a = true).
    { rewrite <- Ta. apply take_while_all. }
    assert (E : drop_while nc (a ++ q) = drop_while nc q).
    { clear - Fa. induction a as [|c a IH]; [reflexivity|]. simpl in *.
      apply andb_true_iff in Fa as [-> Fa]. now apply IH. }
    rewrite E. cbn [fst snd].
    destruct (drop_while nc q) as [|y rest'] eqn:Dq; [reflexivity|].
    rewrite take_while_app_all by exact Fa.
    destruct q as [|d q]; [discriminate|].
    unfold query_and_fragment in Hq. apply negb_true_iff in Hq.
    assert (Nd : nc d = true) by now apply colon_is_path_char.
    cbn [take_while]. rewrite Nd.
    destruct (a ++ d :: take_while nc q) as [|c l] eqn:Eh; [reflexivity|].
    rewrite <- Eh, forallb_app. cbn [forallb].
    rewrite (scheme_char_is_path_char d Hq).
    now rewrite andb_false_r, andb_false_r.
  - (* the first colon is in [a] *)
    assert (E : drop_while nc (a ++ q) = (x :: rest) ++ q).
    { rewrite <- D. apply drop_while_app_found. now rewrite D. }
    rewrite E. cbn [List.app].
    assert (T : take_while nc (a ++ q) = take_while nc a).
    { rewrite <- (take_drop_while nc a) at 1. rewrite D, <- app_assoc.
      assert (Hx : nc x = false).
      { pose proof (drop_while_head nc a) as H. rewrite D in H. exact H. }
      cbn [List.app]. rewrite take_while_app_cut by exact Hx.
      apply take_while_id, take_while_all. }
    rewrite T.
    destruct (take_while nc a) as [|c head]; [reflexivity|].
    now destruct (is_alpha c && forallb scheme_char (c :: head)).
Qed.

(** *** The parser *)

(** [urlsplit] with the test for the two slashes written with
    [startswith]. *)
Lemma urlsplit_eq chk url0 :
  urlsplit chk url0
  = let url := clean (drop_while c0_control_or_space url0) in
    let r := snd (split_scheme url) in
    if startswith "//" r
    then
      if netloc_rejected chk (take_while host_char (skipn 2 r)) then None
      else Some {| scheme := fst (split_scheme url);
                   netloc := take_while host_char (skipn 2 r);
                   path := take_while path_char
                             (drop_while host_char (skipn 2 r));
                   params := [];
                   query := after_first "?" (before_first "#"
                              (drop_while host_char (skipn 2 r)));
                   fragment := after_first "#"
                                 (drop_while host_char (skipn 2 r)) |}
    else Some {| scheme := fst (split_scheme url);
                 netloc := [];
                 path := take_while path_char r;
                 params := [];
                 query := after_first "?" (before_first "#" r);
                 fragment := after_first "#" r |}.
Proof.
  unfold urlsplit. cbv zeta.
  destruct (split_scheme _) as [sch r]. cbn [fst snd].
  set (located := match r with
                  | "/"%char :: "/"%char :: rest0 => _
                  | _ => _
                  end).
  assert (L : located
              = if startswith "//" r
                then if netloc_rejected chk (take_while host_char (skipn 2 r))
                     then None
                     else Some (take_while host_char (skipn 2 r),
                                drop_while host_char (skipn 2 r))
                else Some ([], r)).
  { subst located. destruct r as [|a [|b rest]]; [reflexivity| |].
    - destruct a as [[] [] [] [] [] [] [] []]; reflexivity.
    - destruct (Ascii.eqb a "/") eqn:Ea.
      2:{ destruct a as [[] [] [] [] [] [] [] []];
            try discriminate Ea; reflexivity. }
      apply Ascii.eqb_eq in Ea. subst a.
      destruct (Ascii.eqb b "/") eqn:Eb.
      2:{ destruct b as [[] [] [] [] [] [] [] []];
            try discriminate Eb; reflexivity. }
      apply Ascii.eqb_eq in Eb. subst b. reflexivity. }
  rewrite L.
  destruct (startswith "//" r).
  - destruct (netloc_rejected chk _); [reflexivity|].
    now rewrite before_first_qf.
  - now rewrite before_first_qf.
Qed.

(** A query string or a fragment added at the end changes neither
    the verdict of the parser nor the scheme, the network location
    and the path it returns. *)
Lemma urlsplit_app_query chk v q :
  query_and_fragment q = true ->
  match urlsplit chk (v ++ q), urlsplit chk v with
  | Some p, Some p' =>
      scheme p = scheme p' /\ netloc p = netloc p' /\ path p = path p'
  | None, None => True
  | _, _ => False
  end.
Proof.
  intro Hq.
  set (a := clean (drop_while c0_control_or_space v)).
  pose proof (clean_query q Hq) as Hq'. set (q' := clean q) in *.
  assert (E0 : clean (drop_while c0_control_or_space (v ++ q)) = a ++ q').
  { rewrite drop_while_app_query by (exact c0_is_path_char || exact Hq).
    unfold clean. apply filter_app. }
  rewrite !urlsplit_eq. cbv zeta. fold a. rewrite E0.
  rewrite split_scheme_app_query by exact Hq'. cbn [fst snd].
  set (r := snd (split_scheme a)).
  rewrite startswith_app_query by (discriminate || reflexivity || exact Hq').
  destruct (startswith "//" r) eqn:S.
  - assert (E : skipn 2 (r ++ q') = skipn 2 r ++ q').
    { apply startswith_split in S. rewrite S at 1. reflexivity. }
    rewrite E.
    rewrite (take_while_app_query host_char)
      by (exact Hq' || (intros c Hc; apply not_path_char_facts, Hc)).
    rewrite (drop_while_app_query host_char)
      by (exact Hq' || (intros c Hc; apply not_path_char_facts, Hc)).
    destruct (netloc_rejected chk _); [exact I|].
    cbn [scheme netloc path].
    now rewrite (take_while_app_query path_char) by (exact Hq' || trivial).
  - cbn [scheme netloc path].
    now rewrite (take_while_app_query path_char) by (exact Hq' || trivial).
Qed.

Lemma urlparse_app_query chk v q :
  query_and_fragment q = true ->
  match urlparse chk (v ++ q), urlparse chk v with
  | Some p, Some p' =>
      scheme p = scheme p' /\ netloc p = netloc p' /\ path p = path p'
  | None, None => True
  | _, _ => False
  end.
Proof.
  intro Hq. pose proof (urlsplit_app_query chk v q Hq) as H.
  unfold urlparse.
  destruct (urlsplit chk (v ++ q)) as [p|], (urlsplit chk v) as [p'|];
    try contradiction; [|exact I].
  destruct H as (Hs & Hn & Hp). rewrite Hs, Hp.
  destruct (existsb (str_eqb (scheme p')) uses_params
            && contains ";" (path p')).
  - destruct (splitparams (path p')) as [x prm]. cbn [scheme netloc path].
    auto.
  - auto.
Qed.

(** *** The key of an href *)

Lemma normalize_url_app_query chk u q :
  u <> [] -> query_and_fragment q = true ->
  normalize_url chk (u ++ q) = normalize_url chk u.
Proof.
  intros Hu Hq. destruct u as [|c t]; [contradiction|].
  unfold normalize_url. cbn [List.app].
  change (c :: t ++ q) with ((c :: t) ++ q).
  rewrite !startswith_app_query
    by (discriminate || reflexivity || exact Hq).
  set (u := c :: t).
  assert (E : forall pre,
             (match urlparse chk ((pre ++ u) ++ q) with
              | Some parsed =>
                  rstrip_slash (scheme parsed ++ "://" ++ netloc parsed
                                ++ path parsed)
              | None =>
                  rstrip_slash (before_first "#" (before_first "?"
                                                    ((pre ++ u) ++ q)))
              end)
             = match urlparse chk (pre ++ u) with
               | Some parsed =>
                   rstrip_slash (scheme parsed ++ "://" ++ netloc parsed
                                 ++ path parsed)
               | None =>
                   rstrip_slash (before_first "#" (before_first "?"
                                                     (pre ++ u)))
               end).
  { intro pre. pose proof (urlparse_app_query chk (pre ++ u) q Hq) as H.
    destruct (urlparse chk ((pre ++ u) ++ q)) as [p|],
             (urlparse chk (pre ++ u)) as [p'|]; try contradiction.
    - destruct H as (-> & -> & ->). reflexivity.
    - rewrite !before_first_fq.
      now rewrite (take_while_app_query path_char) by (exact Hq || trivial). }
  destruct (startswith "http://" u || startswith "https://" u).
  { exact (E []). }
  destruct (startswith "//" u).
  { rewrite app_assoc. exact (E ("https:" : str)). }
  destruct (startswith "/" u).
  { rewrite app_assoc. exact (E site_origin). }
  exact (E []).
Qed.

Lemma path_part_split u :
  exists q, u = path_part u ++ q /\ query_and_fragment q = true.
Proof.
  exists (drop_while path_char u). split.
  - unfold path_part. now rewrite take_drop_while.
  - pose proof (drop_while_head path_char u) as H.
    unfold query_and_fragment.
    destruct (drop_while path_char u); [reflexivity | now rewrite H].
Qed.

(** The normalised URL of an href is determined by the part of the
    href before its query string and fragment: two hrefs that agree
    on that part, when it is not empty, get the same key. *)
Theorem normalize_url_depends_on_path_part
  (bracketed_netloc_ok : str -> bool) (u v : str) :
  path_part u = path_part v ->
  path_part u <> [] ->
  normalize_url bracketed_netloc_ok u = normalize_url bracketed_netloc_ok v.
Proof.
  intros E Hne.
  destruct (path_part_split u) as (qu & Eu & Hu).
  destruct (path_part_split v) as (qv & Ev & Hv).
  rewrite Eu, Ev.
  rewrite !normalize_url_app_query; try assumption; [now rewrite E|].
  now rewrite <- E.
Qed.

Lemma normalize_url_depends_on_path_part_witness :
  normalize_url (fun _ => true) "/m/dune?ref=home"
  = normalize_url (fun _ => true) "/m/dune#cast".
Proof.
  apply normalize_url_depends_on_path_part; [reflexivity | discriminate].
Defined.

End UrlKeyFacts.

Module UrlNonEmpty.

Import StrFacts Normalize UrlLib UrlFacts UrlKeyFacts.

(** *** An href that is not empty has a key that is not empty *)

Lemma rstrip_slash_keeps s b :
  In b s -> is_char "/" b = false -> rstrip_slash s <> [].
Proof.
  intros Hin Hb E. apply rstrip_with_nil_iff in E.
  rewrite forallb_forall in E. specialize (E b Hin). congruence.
Qed.

Lemma scheme_char_then_path_char c :
  scheme_char c = true -> path_char c = true.
Proof.
  intro H. destruct (path_char c) eqn:P; [reflexivity|].
  apply scheme_char_is_path_char in P. congruence.
Qed.

Lemma c0_then_path_char c :
  c0_control_or_space c = true -> path_char c = true.
Proof.
  intro H. destruct (path_char c) eqn:P; [reflexivity|].
  apply c0_is_path_char in P. congruence.
Qed.

(** What [split_scheme] takes off the front is free of ['?'] and
    ['#']. *)
Lemma split_scheme_decompose a :
  exists pre, a = pre ++ snd (split_scheme a)
              /\ forallb path_char pre = true.
Proof.
  unfold split_scheme. set (nc := fun c => negb (is_char ":" c)).
  pose proof (take_drop_while nc a) as E.
  pose proof (drop_while_head nc a) as Hx.
  destruct (drop_while nc a) as [|x rest]; [now exists []|].
  destruct (take_while nc a) as [|c head] eqn:T; [now exists []|].
  destruct (is_alpha c && forallb scheme_char (c :: head)) eqn:S;
    [|now exists []].
  apply andb_true_iff in S as [_ S]. cbn [snd].
  exists ((c :: head) ++ [x]). split; [now rewrite <- app_assoc|].
  rewrite forallb_app. apply andb_true_iff. split.
  - eapply forallb_impl; [apply scheme_char_then_path_char | exact S].
  - unfold nc in Hx. apply negb_false_iff, is_char_eq in Hx. now subst x.
Qed.

Lemma in_take_while_app p (pre r : str) b :
  forallb p pre = true -> In b (take_while p r) ->
  In b (take_while p (pre ++ r)).
Proof.
  intros Hp Hin. rewrite take_while_app_all by exact Hp.
  apply in_or_app. now right.
Qed.

(** When the parser rejects a URL, a bracket stands before its query
    string and fragment. *)
Lemma urlsplit_rejected chk url :
  urlsplit chk url = None ->
  exists b, In b (take_while path_char url) /\ is_char "/" b = false.
Proof.
  rewrite urlsplit_eq. cbv zeta.
  set (a := clean (drop_while c0_control_or_space url)).
  set (r := snd (split_scheme a)).
  destruct (startswith "//" r) eqn:S; [|discriminate].
  set (nl := take_while host_char (skipn 2 r)).
  destruct (netloc_rejected chk nl) eqn:R; [|discriminate]. intros _.
  assert (B : exists b, In b nl /\ is_char "/" b = false).
  { unfold netloc_rejected in R.
    assert (C : contains "[" nl = true \/ contains "]" nl = true).
    { destruct (contains "[" nl), (contains "]" nl); auto. }
    destruct C as [C | C]; unfold contains in C;
      apply existsb_exists in C as (b & Hin & Hb);
      exists b; (split; [exact Hin|]);
      apply is_char_eq in Hb; now subst b. }
  destruct B as (b & Hin & Hb). exists b. split; [|exact Hb].
  (* from the network location back to the URL *)
  assert (H1 : In b (take_while path_char (skipn 2 r))).
  { rewrite <- (take_while_refine host_char path_char)
      by apply host_char_path_char.
    apply in_or_app. now left. }
  assert (H2 : In b (take_while path_char r)).
  { apply startswith_split in S. rewrite S.
    now apply in_take_while_app. }
  assert (H3 : In b (take_while path_char a)).
  { destruct (split_scheme_decompose a) as (pre & Ea & Hpre).
    rewrite Ea. now apply in_take_while_app. }
  unfold a, clean in H3.
  rewrite <- filter_take_while in H3 by apply unsafe_path_char.
  apply filter_In in H3 as [H3 _].
  rewrite <- (take_while_refine c0_control_or_space path_char)
    by apply c0_then_path_char.
  apply in_or_app. now right.
Qed.

Lemma normalize_url_cons chk c t : normalize_url chk (c :: t) <> [].
Proof.
  unfold normalize_url.
  match goal with |- context [urlparse _ ?x] => set (url := x) end.
  clearbody url.
  destruct (urlparse chk url) as [p|] eqn:E.
  - apply (rstrip_slash_keeps _ ":"%char); [|reflexivity].
    apply in_or_app. right. now left.
  - unfold urlparse in E.
    destruct (urlsplit chk url) as [r|] eqn:E';
      [destruct (_ && _); [destruct (splitparams _)|]; discriminate|].
    destruct (urlsplit_rejected _ _ E') as (b & Hin & Hb).
    rewrite before_first_fq. now apply (rstrip_slash_keeps _ b).
Qed.

(** [normalize_url] returns the empty string for the empty href and
    for no other: the key of an href that is not empty is never
    empty, whether the parser accepts the href or rejects it. *)
Theorem normalize_url_empty_iff (bracketed_netloc_ok : str -> bool)
  (href : str) :
  is_empty (normalize_url bracketed_netloc_ok href) = is_empty href.
Proof.
  destruct href as [|c t]; [reflexivity|]. cbn [is_empty].
  pose proof (normalize_url_cons bracketed_netloc_ok c t) as H.
  destruct (normalize_url bracketed_netloc_ok (c :: t));
    [contradiction | reflexivity].
Qed.

End UrlNonEmpty.

Module TitleKeyFacts.

Import StrFacts Normalize UrlFacts UrlKeyFacts.

(** *** The characters of a normalised title *)

Lemma forallb_and {A} (f g : A -> bool) l :
  forallb f l = true -> forallb g l = true ->
  forallb (fun x => f x && g x) l = true.
Proof.
  induction l as [|x l IH]; simpl; [reflexivity|]. intros F G.
  apply andb_true_iff in F as [-> F]. apply andb_true_iff in G as [-> G].
  now rewrite IH.
Qed.

Lemma lower_no_upper s :
  forallb (fun c => negb (is_upper c)) (lower s) = true.
Proof.
  unfold lower. induction s as [|c s IH]; simpl; [reflexivity|].
  rewrite IH, andb_true_r. by_cases_on_char c.
Qed.

Lemma forallb_strip_of f s :
  forallb f s = true -> forallb f (strip s) = true.
Proof.
  intro H. unfold strip. now apply forallb_rstrip_of, forallb_drop_while_of.
Qed.

Lemma forallb_sub_spaces_of f s : forall in_run,
  f " "%char = true -> forallb f s = true ->
  forallb f (sub_spaces in_run s) = true.
Proof.
  induction s as [|c s IH]; intros in_run Hsp H; simpl; [reflexivity|].
  simpl in H. apply andb_true_iff in H as [Hc H].
  destruct (is_space c), in_run; simpl; rewrite ?Hsp, ?Hc; simpl;
    now apply IH.
Qed.

(** The only whitespace that collapsing leaves is the space. *)
Lemma sub_spaces_only_spaces s : forall in_run,
  forallb (fun c => negb (is_space c) || is_char " " c)
    (sub_spaces in_run s) = true.
Proof.
  induction s as [|c s IH]; intro in_run; simpl; [reflexivity|].
  destruct (is_space c) eqn:E, in_run; simpl; rewrite ?E; simpl;
    apply IH.
Qed.

Lemma length_drop_while p (s : str) :
  List.length (drop_while p s) <= List.length s.
Proof.
  induction s as [|c s IH]; simpl; [lia|]. destruct (p c); simpl; lia.
Qed.

Lemma length_rstrip_with p (s : str) :
  List.length (rstrip_with p s) <= List.length s.
Proof.
  destruct (rstrip_with_decompose p s) as (tail & E & _).
  rewrite E at 2. rewrite length_app. lia.
Qed.

Lemma length_sub_spaces s : forall in_run,
  List.length (sub_spaces in_run s) <= List.length s.
Proof.
  induction s as [|c s IH]; intro in_run; simpl; [lia|].
  destruct (is_space c), in_run; simpl;
    try (specialize (IH true); lia); specialize (IH false); lia.
Qed.

Lemma title_char_cases c :
  (is_word c || is_space c)
  && (negb (is_upper c) && (negb (is_space c) || is_char " " c)) = true ->
  is_lower c || is_digit c || is_char "_" c || is_char " " c = true.
Proof. destruct c as [[] [] [] [] [] [] [] []]; vm_compute; congruence. Qed.

(** A normalised title is written with lower-case letters, digits,
    underscores and spaces only: no capital, no punctuation, and no
    whitespace other than the space; and it is no longer than the
    title. *)
Theorem normalize_title_alphabet (title : str) :
  forallb (fun c => is_lower c || is_digit c || is_char "_" c
                    || is_char " " c)
    (normalize_title title) = true
  /\ List.length (normalize_title title) <= List.length title.
Proof.
  destruct title as [|c t]; [split; [reflexivity | simpl; lia]|].
  unfold normalize_title. set (s := c :: t). split.
  - unfold sub_non_word.
    eapply forallb_impl; [apply title_char_cases|].
    apply forallb_and; [apply forallb_filter_self|].
    apply forallb_filter_of, forallb_and.
    + apply forallb_sub_spaces_of; [reflexivity|].
      apply forallb_strip_of, lower_no_upper.
    + apply sub_spaces_only_spaces.
  - unfold sub_non_word.
    pose proof (filter_length_le (fun c => is_word c || is_space c)
                  (sub_spaces false (strip (lower s)))) as H1.
    pose proof (length_sub_spaces (strip (lower s)) false) as H2.
    pose proof (length_rstrip_with is_space
                  (drop_while is_space (lower s))) as H3.
    pose proof (length_drop_while is_space (lower s)) as H4.
    unfold strip in *. unfold lower in H4 at 2. rewrite length_map in H4.
    lia.
Qed.

(** *** Titles without a key *)

Lemma is_empty_filter f (s : str) :
  is_empty (filter f s) = forallb (fun c => negb (f c)) s.
Proof.
  induction s as [|c s IH]; [reflexivity|]. cbn [filter forallb].
  destruct (f c); [reflexivity | exact IH].
Qed.

(** Collapsing the whitespace leaves a kept character for every run:
    nothing that fails on whitespace holds of all of the result
    unless it holds of all of the text. *)
Lemma forallb_sub_spaces_false P s :
  (forall c, is_space c = true -> P c = false) ->
  forallb P (sub_spaces false s) = forallb P s.
Proof.
  intro H. induction s as [|c s IH]; [reflexivity|].
  cbn [sub_spaces forallb]. destruct (is_space c) eqn:E.
  - cbn [forallb]. now rewrite (H c E), (H " "%char eq_refl).
  - cbn [forallb]. now rewrite IH.
Qed.

Lemma drop_while_lower s :
  drop_while is_space (lower s) = lower (drop_while is_space s).
Proof.
  unfold lower. induction s as [|c s IH]; [reflexivity|].
  cbn [map drop_while]. rewrite is_space_to_lower.
  destruct (is_space c); [exact IH | reflexivity].
Qed.

Lemma rstrip_with_lower s :
  rstrip_with is_space (lower s) = lower (rstrip_with is_space s).
Proof.
  unfold lower. induction s as [|c s IH]; [reflexivity|].
  cbn [map rstrip_with]. rewrite IH, is_space_to_lower.
  destruct (rstrip_with is_space s); cbn [map]; [|reflexivity].
  now destruct (is_space c).
Qed.

Lemma strip_lower s : strip (lower s) = lower (strip s).
Proof. unfold strip. now rewrite drop_while_lower, rstrip_with_lower. Qed.

Lemma kept_to_lower c :
  negb (is_word (to_lower c) || is_space (to_lower c))
  = negb (is_word c || is_space c).
Proof. by_cases_on_char c. Qed.

Lemma normalize_title_cons_empty c t :
  is_empty (normalize_title (c :: t))
  = forallb (fun c => negb (is_word c || is_space c)) (strip (c :: t)).
Proof.
  unfold normalize_title, sub_non_word.
  rewrite is_empty_filter, forallb_sub_spaces_false.
  - rewrite strip_lower. unfold lower.
    induction (strip (c :: t)) as [|x s IH]; [reflexivity|].
    cbn [map forallb]. now rewrite kept_to_lower, IH.
  - intros x Hx. now rewrite Hx, orb_true_r.
Qed.

(** The normalised title of a title of ASCII characters is empty
    exactly when the title, once stripped, holds punctuation only (or
    nothing at all): such a title has no key, and the collector skips
    its link. *)
Theorem normalize_title_empty_iff (title : str) :
  ascii_text title = true ->
  is_empty (normalize_title title)
  = forallb (fun c => negb (is_word c || is_space c)) (strip title).
Proof.
  intros _. destruct title as [|c t]; [reflexivity|].
  apply normalize_title_cons_empty.
Qed.

Lemma normalize_title_empty_iff_witness :
  ascii_text " ?! " = true
  /\ is_empty (normalize_title " ?! ") = true
  /\ is_empty (normalize_title " Up! ") = false.
Proof.
  split; [reflexivity|]. split.
  - now rewrite (normalize_title_empty_iff " ?! " eq_refl).
  - now rewrite (normalize_title_empty_iff " Up! " eq_refl).
Defined.

End TitleKeyFacts.

(** ** More on the list collector *)

Module CrawlFacts.

Import StrFacts Normalize ListCollector CollectorNotions CollectorFacts.

Section Crawl.

Variable bracketed_netloc_ok : str -> bool.
Variable site : nat -> observed listing_page.

Local Abbreviation process_link := (process_link bracketed_netloc_ok).
Local Abbreviation process_page := (process_page bracketed_netloc_ok).
Local Abbreviation candidate := (candidate bracketed_netloc_ok).
Local Abbreviation collect := (collect bracketed_netloc_ok site).
Local Abbreviation represented := (represented bracketed_netloc_ok).

(** *** The crawl as one pass over the links *)

Lemma collect_from pages : forall d,
  fold_left (fun d page_num => process_page d (site page_num)) pages d
  = fold_left process_link (crawled_links site pages) d.
Proof.
  induction pages as [|n pages IH]; intro d; [reflexivity|].
  cbn [fold_left crawled_links flat_map]. rewrite fold_left_app.
  fold (crawled_links site pages). rewrite IH. f_equal.
  unfold ListCollector.process_page. now destruct (site n).
Qed.

Lemma collect_links pages :
  collect pages = fold_left process_link (crawled_links site pages) [].
Proof. apply collect_from. Qed.

Lemma crawled_links_app pages more :
  crawled_links site (pages ++ more)
  = crawled_links site pages ++ crawled_links site more.
Proof. apply flat_map_app. Qed.

(** *** Entries are only ever appended *)

Lemma process_link_appends d l :
  exists later, process_link d l = d ++ later /\ List.length later <= 1.
Proof.
  assert (Same : exists later, d = d ++ later /\ List.length later <= 1).
  { exists []. split; [now rewrite app_nil_r | simpl; lia]. }
  unfold ListCollector.process_link.
  destruct (candidate l) as [[normalized_url title]|]; [|exact Same].
  destruct (has_key normalized_url d) eqn:K; [exact Same|].
  destruct (existsb _ (existing_titles d)); [exact Same|].
  rewrite store_fresh by exact K. eexists. split; [reflexivity|].
  simpl; lia.
Qed.

Lemma process_links_append links : forall d,
  exists later,
    fold_left process_link links d = d ++ later
    /\ List.length later <= List.length links.
Proof.
  induction links as [|l links IH]; intro d.
  - exists []. split; [now rewrite app_nil_r | simpl; lia].
  - cbn [fold_left].
    destruct (process_link_appends d l) as (x & -> & Hx).
    destruct (IH (d ++ x)) as (y & -> & Hy).
    exists (x ++ y). rewrite <- app_assoc. split; [reflexivity|].
    rewrite length_app. simpl. lia.
Qed.

(** *** Links that are represented *)

Lemma represented_app d later l :
  represented d l = true -> represented (d ++ later) l = true.
Proof.
  unfold CollectorNotions.represented.
  destruct (candidate l) as [[u t]|]; [|reflexivity].
  unfold has_key, existing_titles, values.
  rewrite !map_app, !existsb_app. intro H.
  apply orb_true_iff in H as [-> | ->]; [reflexivity|].
  now rewrite !orb_true_r.
Qed.

Lemma process_link_represented d l : represented (process_link d l) l = true.
Proof.
  unfold CollectorNotions.represented, ListCollector.process_link.
  destruct (candidate l) as [[u t]|] eqn:C; [|reflexivity].
  destruct (has_key u d) eqn:K; [now rewrite K|].
  destruct (existsb _ (existing_titles d)) eqn:T;
    [now rewrite T, orb_true_r|].
  rewrite store_fresh by exact K. unfold has_key.
  rewrite existsb_app. cbn [existsb fst].
  now rewrite str_eqb_refl, orb_true_r.
Qed.

(** A link whose candidate is represented changes nothing. *)
Lemma process_link_skips d l :
  represented d l = true -> process_link d l = d.
Proof.
  unfold CollectorNotions.represented, ListCollector.process_link.
  destruct (candidate l) as [[u t]|]; [|reflexivity].
  destruct (has_key u d); [reflexivity|]. cbn [orb]. now intros ->.
Qed.

Lemma process_links_represented links : forall d l,
  In l links \/ represented d l = true ->
  represented (fold_left process_link links d) l = true.
Proof.
  induction links as [|x links IH]; intros d l H.
  - destruct H as [[] | H]. exact H.
  - cbn [fold_left]. apply IH.
    destruct H as [[-> | H] | H].
    + right. apply process_link_represented.
    + now left.
    + right. destruct (process_link_appends d x) as (later & -> & _).
      now apply represented_app.
Qed.

Lemma process_links_skip links : forall d,
  (forall l, In l links -> represented d l = true) ->
  fold_left process_link links d = d.
Proof.
  induction links as [|x links IH]; intros d H; [reflexivity|].
  cbn [fold_left]. rewrite process_link_skips by (apply H; now left).
  apply IH. intros l Hl. apply H. now right.
Qed.

(** *** Where an entry comes from *)

Lemma candidate_inv l normalized_url title :
  candidate l = Some (normalized_url, title) ->
  exists l' h,
    l = Got l'
    /\ title_count l' <> 0
    /\ href l' = Some h
    /\ title = strip (inner_text l')
    /\ normalized_url = normalize_url bracketed_netloc_ok h
    /\ existsb (str_eqb (lower title)) ui_labels = false
    /\ is_empty title = false
    /\ is_empty normalized_url = false
    /\ is_empty (normalize_title title) = false.
Proof.
  unfold ListCollector.candidate. destruct l as [l|e]; [|discriminate].
  destruct (title_count l =? 0)%nat eqn:N; [discriminate|].
  destruct (is_empty (inner_text l) || is_empty (strip (inner_text l)))
    eqn:E; [discriminate|].
  destruct (existsb _ ui_labels) eqn:U; [discriminate|].
  destruct (href l) as [[|c h]|] eqn:Hh; try discriminate. cbv zeta.
  destruct (is_empty (normalize_url _ _) || _) eqn:E2; [discriminate|].
  intros [= <- <-]. apply orb_false_iff in E as [_ E].
  apply orb_false_iff in E2 as [E2 E3].
  exists l, (c :: h). apply Nat.eqb_neq in N. repeat split; auto.
Qed.

Lemma process_links_sourced links : forall d seen,
  (forall kv, In kv d ->
     exists l, In l seen
               /\ candidate l
                  = Some (movie_url (snd kv), movie_title (snd kv))) ->
  forall kv, In kv (fold_left process_link links d) ->
    exists l, In l (seen ++ links)
              /\ candidate l
                 = Some (movie_url (snd kv), movie_title (snd kv)).
Proof.
  induction links as [|x links IH]; intros d seen H kv Hin.
  - rewrite app_nil_r. now apply H.
  - cbn [fold_left] in Hin.
    replace (seen ++ x :: links) with ((seen ++ [x]) ++ links)
      by now rewrite <- app_assoc.
    apply (IH (process_link d x)); [|exact Hin].
    clear kv Hin. intros kv Hin.
    unfold ListCollector.process_link in Hin.
    assert (Old : In kv d ->
              exists l, In l (seen ++ [x])
                        /\ candidate l
                           = Some (movie_url (snd kv), movie_title (snd kv))).
    { intro Hd. destruct (H kv Hd) as (l & Hl & Hc). exists l.
      split; [apply in_or_app; now left | exact Hc]. }
    destruct (candidate x) as [[u t]|] eqn:C; [|now apply Old].
    destruct (has_key u d) eqn:K; [now apply Old|].
    destruct (existsb _ (existing_titles d)); [now apply Old|].
    rewrite store_fresh in Hin by exact K.
    apply in_app_or in Hin as [Hd | [<- | []]]; [now apply Old|].
    exists x. split; [apply in_or_app; right; now left | exact C].
Qed.

End Crawl.

(** Every entry that [scrape_list_pages] returns comes from a link of
    a page that loaded: its title is the stripped text of the link's
    title element, which is no UI label, and its URL is the
    normalised [href] of that link; title, URL and normalised title
    are not empty. *)
Theorem scrape_list_pages_provenance
  (bracketed_netloc_ok : str -> bool)
  (site : nat -> observed listing_page) (m : movie) :
  In m (scrape_list_pages bracketed_netloc_ok site) ->
  exists l h,
    In (Got l) (crawled_links site PAGES)
    /\ title_count l <> 0
    /\ href l = Some h
    /\ movie_title m = strip (inner_text l)
    /\ movie_url m = normalize_url bracketed_netloc_ok h
    /\ existsb (str_eqb (lower (movie_title m))) ui_labels = false
    /\ is_empty (movie_title m) = false
    /\ is_empty (movie_url m) = false
    /\ is_empty (normalize_title (movie_title m)) = false.
Proof.
  unfold scrape_list_pages, values. intro H.
  apply in_map_iff in H as (kv & <- & Hin).
  rewrite collect_links in Hin.
  destruct (process_links_sourced bracketed_netloc_ok
              (crawled_links site PAGES) [] []
              (fun kv (F : In kv []) => match F with end) kv Hin)
    as (l & Hl & Hc).
  destruct (candidate_inv bracketed_netloc_ok l _ _ Hc)
    as (l' & h & -> & H1 & H2 & H3 & H4 & H5 & H6 & H7 & H8).
  exists l', h. repeat split; auto.
Qed.

Lemma scrape_list_pages_provenance_witness :
  exists l h,
    In (Got l)
       (crawled_links
          (fun _ => Got {| primary_links :=
                             [Got {| title_count := 1;
                                     inner_text := " Dune ";
                                     href := Some ("/m/dune/" : str) |}];
                           fallback_links := [] |}) PAGES)
    /\ title_count l <> 0
    /\ href l = Some h
    /\ ("Dune" : str) = strip (inner_text l)
    /\ ("https://www.rottentomatoes.com/m/dune" : str)
       = normalize_url (fun _ => true) h.
Proof.
  destruct (scrape_list_pages_provenance (fun _ => true)
              (fun _ => Got {| primary_links :=
                                 [Got {| title_count := 1;
                                         inner_text := " Dune ";
                                         href := Some ("/m/dune/" : str) |}];
                               fallback_links := [] |})
              {| movie_title := "Dune";
                 movie_url := "https://www.rottentomatoes.com/m/dune" |})
    as (l & h & H1 & H2 & H3 & H4 & H5 & _).
  - left. reflexivity.
  - exists l, h. repeat split; assumption.
Defined.

(** Every link of a page that loaded is accounted for: when the link
    has a title that is no UI label and an [href], with a normalised
    URL and a normalised title that are not empty, the returned list
    holds an entry with that normalised URL or with that normalised
    title. *)
Theorem scrape_list_pages_complete
  (bracketed_netloc_ok : str -> bool)
  (site : nat -> observed listing_page)
  (l : observed link) (normalized_url title : str) :
  In l (crawled_links site PAGES) ->
  candidate bracketed_netloc_ok l = Some (normalized_url, title) ->
  exists m,
    In m (scrape_list_pages bracketed_netloc_ok site)
    /\ (movie_url m = normalized_url
        \/ normalize_title (movie_title m) = normalize_title title).
Proof.
  intros Hl Hc.
  pose proof (process_links_represented bracketed_netloc_ok
                (crawled_links site PAGES) [] l (or_introl Hl)) as R.
  rewrite <- collect_links in R.
  unfold represented in R. rewrite Hc in R.
  unfold scrape_list_pages.
  set (d := collect bracketed_netloc_ok site PAGES) in *.
  apply orb_true_iff in R as [R | R].
  - apply has_key_In, in_map_iff in R as ([k m] & Ek & Hin).
    cbn [fst] in Ek. subst k.
    destruct (collect_dedup bracketed_netloc_ok site PAGES) as (_ & _ & Hu).
    fold d in Hu. rewrite Forall_forall in Hu. specialize (Hu _ Hin).
    exists m. split; [|now left].
    unfold values. apply in_map_iff. now exists (normalized_url, m).
  - apply existsb_str_eqb_In in R. unfold existing_titles in R.
    apply in_map_iff in R as (m & E & Hin). exists m. split; [exact Hin|].
    now right.
Qed.

Lemma scrape_list_pages_complete_witness :
  exists m,
    In m (scrape_list_pages (fun _ => true)
            (fun _ => Got {| primary_links :=
                               [Got {| title_count := 1;
                                       inner_text := "Dune";
                                       href := Some ("/m/dune" : str) |};
                                Got {| title_count := 1;
                                       inner_text := " DUNE! ";
                                       href := Some ("/m/dune_2021" : str) |}];
                             fallback_links := [] |}))
    /\ (movie_url m = ("https://www.rottentomatoes.com/m/dune_2021" : str)
        \/ normalize_title (movie_title m) = normalize_title "DUNE!").
Proof.
  apply (scrape_list_pages_complete (fun _ => true)
           (fun _ => Got {| primary_links :=
                              [Got {| title_count := 1;
                                      inner_text := "Dune";
                                      href := Some ("/m/dune" : str) |};
                               Got {| title_count := 1;
                                      inner_text := " DUNE! ";
                                      href := Some ("/m/dune_2021" : str) |}];
                            fallback_links := [] |})
           (Got {| title_count := 1; inner_text := " DUNE! ";
                   href := Some ("/m/dune_2021" : str) |})).
  - right. left. reflexivity.
  - reflexivity.
Defined.

(** The entries are kept in the order in which they were first seen:
    visiting further pages leaves the entries accepted so far as they
    are and appends the new ones, at most one for each link of those
    pages. *)
Theorem collect_appends
  (bracketed_netloc_ok : str -> bool)
  (site : nat -> observed listing_page) (pages more : list nat) :
  exists later,
    collect bracketed_netloc_ok site (pages ++ more)
    = collect bracketed_netloc_ok site pages ++ later
    /\ List.length later <= List.length (crawled_links site more).
Proof.
  rewrite !collect_links, crawled_links_app, fold_left_app.
  apply process_links_append.
Qed.

(** A page that offers nothing but links met before adds no entry:
    in particular a page that is visited again, or one that repeats
    the links of earlier pages. *)
Theorem collect_ignores_repeated_links
  (bracketed_netloc_ok : str -> bool)
  (site : nat -> observed listing_page) (pages more : list nat) :
  incl (crawled_links site more) (crawled_links site pages) ->
  collect bracketed_netloc_ok site (pages ++ more)
  = collect bracketed_netloc_ok site pages.
Proof.
  intro H. rewrite !collect_links, crawled_links_app, fold_left_app.
  apply process_links_skip. intros l Hl.
  apply process_links_represented. left. now apply H.
Qed.

Lemma collect_ignores_repeated_links_witness :
  collect (fun _ => true)
    (fun _ => Got {| primary_links :=
                       [Got {| title_count := 1; inner_text := "Dune";
                               href := Some ("/m/dune" : str) |}];
                     fallback_links := [] |}) ([0; 1] ++ [2])
  = collect (fun _ => true)
      (fun _ => Got {| primary_links :=
                         [Got {| title_count := 1; inner_text := "Dune";
                                 href := Some ("/m/dune" : str) |}];
                       fallback_links := [] |}) [0; 1].
Proof.
  apply collect_ignores_repeated_links.
  intros l Hl. simpl in *. tauto.
Defined.

(** When the titles of the crawled links are made of ASCII
    characters, no two entries of the returned list have titles made
    of the same tokens (the whitespace-separated words of the title,
    in lower case and without their punctuation): titles that differ
    only in letter case, in the amount of whitespace or in the
    punctuation attached to their words are never both accepted. *)
Theorem scrape_list_pages_distinct_tokens
  (bracketed_netloc_ok : str -> bool)
  (site : nat -> observed listing_page) :
  ascii_titles (crawled_links site PAGES) = true ->
  NoDup (map (fun m => title_tokens (movie_title m))
           (scrape_list_pages bracketed_netloc_ok site)).
Proof.
  intros _. unfold scrape_list_pages.
  destruct (collect_dedup bracketed_netloc_ok site PAGES) as (_ & Ht & _).
  unfold existing_titles in Ht.
  apply (NoDup_map_inv (join " ")). rewrite map_map.
  erewrite map_ext; [exact Ht|].
  intro m. symmetry. apply TitleFacts.normalize_title_tokens.
Qed.

(** Every page lists the same film under two spellings and two URLs,
    and a second film: the second spelling is not accepted. *)
Lemma scrape_list_pages_distinct_tokens_witness :
  map movie_title
    (scrape_list_pages (fun _ => true)
       (fun _ => Got {| primary_links :=
                          [Got {| title_count := 1;
                                  inner_text := "The Matrix!";
                                  href := Some ("/m/the_matrix" : str) |};
                           Got {| title_count := 1;
                                  inner_text := "the   matrix";
                                  href := Some ("/m/matrix_1999" : str) |};
                           Got {| title_count := 1;
                                  inner_text := "Heat";
                                  href := Some ("/m/heat" : str) |}];
                        fallback_links := [] |}))
  = ["The Matrix!" : str; "Heat" : str]
  /\ NoDup
       (map (fun m => title_tokens (movie_title m))
          (scrape_list_pages (fun _ => true)
             (fun _ => Got {| primary_links :=
                                [Got {| title_count := 1;
                                        inner_text := "The Matrix!";
                                        href := Some ("/m/the_matrix" : str) |};
                                 Got {| title_count := 1;
                                        inner_text := "the   matrix";
                                        href := Some ("/m/matrix_1999" : str) |};
                                 Got {| title_count := 1;
                                        inner_text := "Heat";
                                        href := Some ("/m/heat" : str) |}];
                              fallback_links := [] |}))).
Proof.
  split; [reflexivity|].
  apply scrape_list_pages_distinct_tokens. reflexivity.
Defined.

End CrawlFacts.

(** ** Which links are candidates *)

Module CandidateFacts.

Import StrFacts Normalize ListCollector CollectorNotions CollectorFacts
  UrlNonEmpty TitleKeyFacts.

Lemma strip_idem s : strip (strip s) = strip s.
Proof.
  unfold strip at 1.
  assert (E : drop_while is_space (strip s) = strip s).
  { unfold strip. pose proof (drop_while_head is_space s) as H.
    destruct (drop_while is_space s) as [|c r]; [reflexivity|].
    rewrite TitleFacts.rstrip_with_cons.
    destruct (forallb is_space r); rewrite ?H; cbn [drop_while];
      now rewrite H. }
  rewrite E. unfold strip. apply rstrip_with_idem.
Qed.

(** A link whose title is made of ASCII characters is a candidate
    exactly when it has a title element, its stripped title is neither
    punctuation only nor a UI label, and its [href] is not empty; the
    candidate is then that title with the normalised [href]. *)
Theorem candidate_iff (bracketed_netloc_ok : str -> bool) (l : link)
  (normalized_url title : str) :
  ascii_text (inner_text l) = true ->
  candidate bracketed_netloc_ok (Got l) = Some (normalized_url, title)
  <-> title_count l <> 0
      /\ title = strip (inner_text l)
      /\ forallb (fun c => negb (is_word c || is_space c)) title = false
      /\ existsb (str_eqb (lower title)) ui_labels = false
      /\ exists h, href l = Some h /\ h <> []
                   /\ normalized_url = normalize_url bracketed_netloc_ok h.
Proof.
  intros _. unfold candidate.
  destruct (Nat.eqb_spec (title_count l) 0) as [N | N].
  { split; [discriminate | intros (H & _); contradiction]. }
  set (t := strip (inner_text l)).
  assert (Et : is_empty (normalize_title t)
               = forallb (fun c => negb (is_word c || is_space c)) t).
  { assert (Es : strip t = t) by apply strip_idem.
    destruct t as [|x t']; [reflexivity|].
    now rewrite normalize_title_cons_empty, Es. }
  destruct (is_empty (inner_text l) || is_empty t) eqn:E.
  { split; [discriminate|]. intros (_ & -> & P & _). exfalso.
    apply orb_true_iff in E as [E | E].
    - unfold t in P. destruct (inner_text l); [discriminate P | discriminate E].
    - destruct t; [discriminate P | discriminate E]. }
  destruct (existsb (str_eqb (lower t)) ui_labels) eqn:U.
  { split; [discriminate|]. intros (_ & -> & _ & U' & _). congruence. }
  destruct (href l) as [[|c h]|].
  - split; [discriminate|]. intros (_ & _ & _ & _ & h & [= <-] & Hne & _).
    contradiction.
  - cbv zeta.
    assert (Eu : is_empty (normalize_url bracketed_netloc_ok (c :: h))
                 = false).
    { pose proof (normalize_url_cons bracketed_netloc_ok c h) as Hn.
      destruct (normalize_url bracketed_netloc_ok (c :: h));
        [contradiction | reflexivity]. }
    rewrite Eu. cbn [orb]. rewrite Et.
    destruct (forallb _ t) eqn:P.
    + split; [discriminate|]. intros (_ & -> & P' & _). congruence.
    + split.
      * intros [= <- <-]. repeat split; auto.
        exists (c :: h). repeat split. discriminate.
      * intros (_ & -> & _ & _ & h' & [= <-] & _ & ->). reflexivity.
  - split; [discriminate|]. intros (_ & _ & _ & _ & h & [=] & _).
Qed.

Lemma candidate_iff_witness :
  candidate (fun _ => true)
    (Got {| title_count := 1; inner_text := " Dune: Part Two ";
            href := Some ("/m/dune_part_two/?ref=home" : str) |})
  = Some ("https://www.rottentomatoes.com/m/dune_part_two" : str,
          "Dune: Part Two" : str)
  /\ candidate (fun _ => true)
       (Got {| title_count := 1; inner_text := " ... ";
               href := Some ("/m/dots" : str) |})
     = None.
Proof.
  split.
  - apply candidate_iff; [reflexivity|].
    split; [discriminate|]. do 3 (split; [reflexivity|]).
    eexists. split; [reflexivity|]. split; [discriminate | reflexivity].
  - destruct (candidate (fun _ => true)
                (Got {| title_count := 1; inner_text := " ... ";
                        href := Some ("/m/dots" : str) |}))
      as [[u t]|] eqn:E; [|reflexivity].
    apply candidate_iff in E as (_ & -> & P & _); [|reflexivity].
    discriminate P.
Defined.

End CandidateFacts.

(** ** The records that the extractor returns *)

Module RecordFacts.

Import StrFacts DetailExtractor ExtractorNotions ExtractorFacts GatherFacts
  TitleKeyFacts.

(** *** Stages that keep the shape of the record *)

Lemma keys_set k v d : In k (keys d) -> keys (set k v d) = keys d.
Proof.
  unfold keys. induction d as [|[k' v'] d IH]; simpl; [intros []|].
  destruct (String.eqb k k') eqn:E; simpl.
  - apply String.eqb_eq in E. now subst k'.
  - intros [H | H]; [subst k'; now rewrite String.eqb_refl in E|].
    now rewrite IH.
Qed.

Lemma written_In ks k : written ks k = true <-> In k ks.
Proof.
  unfold written. rewrite existsb_exists. split.
  - intros (x & Hin & E). apply String.eqb_eq in E. now subst x.
  - intro H. exists k. split; [exact H | apply String.eqb_refl].
Qed.

Lemma written_is_key k :
  written (score_keys ++ panel_keys) k = true -> In k metadata_keys.
Proof.
  intro H. apply written_In in H. simpl in H. unfold metadata_keys.
  simpl. intuition.
Qed.

Lemma keeps_shape_id : keeps_shape (fun d => d).
Proof. intros d H. now split. Qed.

Lemma keeps_shape_set k v :
  written (score_keys ++ panel_keys) k = true -> keeps_shape (set k v).
Proof.
  intros Hk d Hd. split.
  - rewrite keys_set; [exact Hd|]. rewrite Hd. now apply written_is_key.
  - intros k' Hk'. apply get_set_other.
    destruct (String.eqb k' k) eqn:E; [|reflexivity].
    apply String.eqb_eq in E. congruence.
Qed.

Lemma keeps_shape_comp f g :
  keeps_shape f -> keeps_shape g -> keeps_shape (fun d => g (f d)).
Proof.
  intros Hf Hg d Hd. destruct (Hf d Hd) as [Kf Gf].
  destruct (Hg (f d) Kf) as [Kg Gg]. split; [exact Kg|].
  intros k Hk. now rewrite Gg, Gf.
Qed.

Lemma keeps_shape_tier1 field text :
  written (score_keys ++ panel_keys) field = true ->
  keeps_shape (tier1 field text).
Proof.
  intro H. unfold tier1. destruct text as [[|c t]|];
    try apply keeps_shape_id.
  destruct (search_digits_1_3 _); [|apply keeps_shape_id].
  destruct (in_range _); [now apply keeps_shape_set | apply keeps_shape_id].
Qed.

Lemma keeps_shape_tier2_assign field v :
  written (score_keys ++ panel_keys) field = true ->
  keeps_shape (tier2_assign field v).
Proof.
  intros H d Hd. unfold tier2_assign. destruct v as [z|]; [|now split].
  destruct (truthy (Some z) && is_none (get field d));
    [now apply keeps_shape_set | now split].
Qed.

Lemma keeps_shape_tier2 scores : keeps_shape (tier2 scores).
Proof.
  unfold tier2.
  apply (keeps_shape_comp (tier2_assign "tomatometer_score" _)
           (tier2_assign "audience_score" _));
    now apply keeps_shape_tier2_assign.
Qed.

Lemma keeps_shape_assign_if_none field score :
  written (score_keys ++ panel_keys) field = true ->
  keeps_shape (assign_if_none field score).
Proof.
  intros H d Hd. unfold assign_if_none.
  destruct (is_none (get field d)); [now apply keeps_shape_set | now split].
Qed.

Lemma keeps_shape_tier3 texts : keeps_shape (tier3 texts).
Proof.
  unfold tier3.
  destruct (potential_scores texts) as [|a [|b [|c l]]];
    try apply keeps_shape_id.
  apply (keeps_shape_comp (assign_if_none "tomatometer_score" _)
           (assign_if_none "audience_score" _));
    now apply keeps_shape_assign_if_none.
Qed.

Lemma keeps_shape_assign_field field vals :
  keeps_shape (assign_field field vals).
Proof.
  unfold assign_field. destruct vals as [|first rest];
    [apply keeps_shape_id|].
  repeat match goal with
         | |- context [if ?b then _ else _] => destruct b
         end;
    try apply keeps_shape_id; now apply keeps_shape_set.
Qed.

Lemma keeps_shape_process_item item :
  keeps_shape (fun d => process_item d item).
Proof.
  unfold process_item. destruct item as [it|e]; [|apply keeps_shape_id].
  destruct (item_label it); [|apply keeps_shape_id].
  destruct (target_field _); [|apply keeps_shape_id].
  apply keeps_shape_assign_field.
Qed.

Lemma keeps_shape_info_fields items : keeps_shape (info_fields items).
Proof.
  unfold info_fields. induction items as [|item items IH].
  - apply keeps_shape_id.
  - cbn [fold_left].
    apply (keeps_shape_comp (fun d => process_item d item)
             (fold_left process_item items));
      [apply keeps_shape_process_item | exact IH].
Qed.

Lemma keeps_shape_sanitize_score field :
  written (score_keys ++ panel_keys) field = true ->
  keeps_shape (sanitize_score field).
Proof.
  intros H d Hd. unfold sanitize_score.
  destruct (get field d) as [|z|x]; [now split| |now apply keeps_shape_set].
  destruct (negb (in_range z)); [now apply keeps_shape_set | now split].
Qed.

Lemma keeps_shape_sanitize : keeps_shape sanitize.
Proof.
  unfold sanitize.
  apply (keeps_shape_comp (sanitize_score "tomatometer_score")
           (sanitize_score "audience_score"));
    now apply keeps_shape_sanitize_score.
Qed.

Lemma keeps_shape_postprocess d r :
  postprocess_duration d = Got r -> keys d = metadata_keys ->
  keys r = metadata_keys
  /\ forall k, written (score_keys ++ panel_keys) k = false ->
               get k r = get k d.
Proof.
  intros H Hd.
  apply postprocess_duration_inv in H as [[-> _] | (x & v & _ & _ & ->)].
  - now split.
  - now apply (keeps_shape_set "duration").
Qed.

(** The collected record has the thirteen keys of the source, in their
    order, and no error; so has the record that the post-processing
    returns. *)
Lemma collected_full s url title : full_record (collected s url title).
Proof.
  assert (K0 : keys (initial_metadata url title) = metadata_keys)
    by reflexivity.
  assert (S1 : keeps_shape
                 (fun d => tier1 "audience_score" (answer (audience s) None)
                             (tier1 "tomatometer_score"
                                (answer (critics s) None) d))).
  { apply (keeps_shape_comp (tier1 "tomatometer_score" _)
             (tier1 "audience_score" _));
      now apply keeps_shape_tier1. }
  destruct (S1 _ K0) as [K1 G1]. fold (after_tier1 s url title) in K1, G1.
  assert (K2 : keys (after_tier2 s url title) = metadata_keys
               /\ get "error" (after_tier2 s url title) = VNone).
  { unfold after_tier2. cbv zeta.
    destruct (score_missing (after_tier1 s url title)).
    - destruct (keeps_shape_tier2
                  (score_script (answer (evaluate s) (None, None)))
                  _ K1) as [K G].
      split; [exact K|]. now rewrite G, G1.
    - split; [exact K1 | now rewrite G1]. }
  destruct K2 as [K2 E2].
  assert (K3 : keys (after_tier3 s url title) = metadata_keys
               /\ get "error" (after_tier3 s url title) = VNone).
  { unfold after_tier3. cbv zeta.
    destruct (score_missing (after_tier2 s url title)).
    - destruct (keeps_shape_tier3 (answer (rt_texts s) []) _ K2) as [K G].
      split; [exact K|]. now rewrite G.
    - now split. }
  destruct K3 as [K3 E3].
  unfold collected.
  destruct (keeps_shape_info_fields (answer (info_section s) []) _ K3)
    as [K4 G4].
  destruct (keeps_shape_sanitize _ K4) as [K5 G5].
  split; [exact K5|]. now rewrite G5, G4.
Qed.

Lemma gathered_full s url title r :
  gathered s url title = Got r -> full_record r.
Proof.
  intro H. destruct (collected_full s url title) as [K E].
  destruct (keeps_shape_postprocess _ _ H K) as [K' G'].
  split; [exact K'|]. now rewrite G'.
Qed.

(** Every record that the extractor returns has one of two shapes:
    the full record, with the thirteen keys of the source in their
    order and no error, or the minimal record [{url, title, error}]
    with the text of the error. *)
Theorem returned_record_shape (s : session) (url title : str) (r : dict) :
  outcome (scrape_movie_metadata_efficient s url title) = Got r ->
  full_record r \/ minimal_record r.
Proof.
  rewrite scrape_outcome_cases. cbv zeta.
  assert (M : forall e, match close_after_error s with
                        | Got _ => Got (failure_record url title e)
                        | Raised e' => Raised e'
                        end = Got r -> minimal_record r).
  { intro e. destruct (close_after_error s); [|discriminate].
    intros [= <-]. split; [reflexivity | now exists e]. }
  destruct (acquire s); [|discriminate].
  destruct (viewport s); [|intro H; right; eapply M; exact H].
  destruct (goto s); [|intro H; right; eapply M; exact H].
  destruct (gathered s url title) as [metadata|e] eqn:G;
    [|intro H; right; eapply M; exact H].
  destruct (close s); [|intro H; right; eapply M; exact H].
  intros [= <-]. left. now apply (gathered_full s url title).
Qed.

Lemma returned_record_shape_witness :
  exists r,
    outcome (scrape_movie_metadata_efficient
               (session_of (Got (Some ("92%" : str))) (Raised "timeout")
                  (Got (None, None)) [] [] (Got tt)) "u" "t") = Got r
    /\ (full_record r \/ minimal_record r).
Proof.
  eexists. split; [reflexivity|].
  apply (returned_record_shape
           (session_of (Got (Some ("92%" : str))) (Raised "timeout")
              (Got (None, None)) [] [] (Got tt)) "u" "t").
  reflexivity.
Defined.

(** *** The limit of [int] *)

Lemma tier1_keeps field field' text metadata :
  String.eqb field field' = false ->
  get field (tier1 field' text metadata) = get field metadata.
Proof.
  intro H. unfold tier1. destruct text as [[|c t]|]; try reflexivity.
  destruct (search_digits_1_3 _); [|reflexivity].
  destruct (in_range _); [now apply get_set_other | reflexivity].
Qed.

(** The cascade of the scores writes none of the panel fields. *)
Lemma after_tier3_panel k s url title :
  written panel_keys k = true ->
  get k (after_tier3 s url title) = VNone.
Proof.
  intro Hk.
  assert (N1 : String.eqb k "tomatometer_score" = false
               /\ String.eqb k "audience_score" = false
               /\ get k (initial_metadata url title) = VNone).
  { apply written_In in Hk. simpl in Hk.
    repeat destruct Hk as [<- | Hk]; try contradiction;
      repeat split; reflexivity. }
  destruct N1 as (Nt & Na & N0).
  assert (E1 : get k (after_tier1 s url title) = VNone).
  { unfold after_tier1. now rewrite !tier1_keeps. }
  assert (E2 : get k (after_tier2 s url title) = VNone).
  { unfold after_tier2. cbv zeta. destruct (score_missing _); [|exact E1].
    unfold tier2. now rewrite !tier2_assign_other. }
  unfold after_tier3. cbv zeta. destruct (score_missing _); [|exact E2].
  unfold tier3.
  destruct (potential_scores _) as [|a [|b [|c l]]]; try exact E2.
  unfold assign_if_none.
  repeat match goal with
         | |- context [if ?b then _ else _] => destruct b
         end;
    rewrite ?get_set_other; assumption.
Qed.

(** The non-blank values of a row, stripped. *)
Lemma item_texts_eq vs :
  item_texts vs
  = map strip (filter (fun v => negb (is_empty (strip v))) vs).
Proof.
  unfold item_texts. induction vs as [|v vs IH]; [reflexivity|].
  cbn [flat_map filter]. rewrite IH.
  destruct v as [|c v]; [reflexivity|]. cbn [is_empty orb].
  now destruct (is_empty (strip (c :: v))).
Qed.

Lemma length_strip v : List.length (strip v) <= List.length v.
Proof.
  unfold strip.
  pose proof (length_rstrip_with is_space (drop_while is_space v)).
  pose proof (length_drop_while is_space v). lia.
Qed.

Lemma length_take_while p (s : str) :
  List.length (take_while p s) <= List.length s.
Proof.
  induction s as [|c s IH]; simpl; [lia|]. destruct (p c); simpl; lia.
Qed.

Lemma length_search_digits d ds :
  search_digits d = Some ds -> List.length ds <= List.length d.
Proof.
  unfold search_digits.
  pose proof (length_drop_while (fun c => negb (is_digit c)) d) as H.
  destruct (drop_while _ d) as [|c rest]; [discriminate|].
  intros [= <-].
  eapply Nat.le_trans; [apply (length_take_while is_digit (c :: rest))|].
  exact H.
Qed.

(** A duration within the limit is formatted. *)
Lemma format_duration_within d :
  List.length d <= max_str_digits -> exists v, format_duration d = Got v.
Proof.
  intro H. unfold format_duration.
  destruct (has_unit_letters d); [eauto|].
  destruct (search_digits d) as [ds|] eqn:S; [|eauto].
  apply length_search_digits in S.
  rewrite int_of_str_within by lia. eauto.
Qed.

Lemma item_texts_within vs first :
  forallb (fun value_text =>
             (List.length value_text <=? max_str_digits)%nat) vs = true ->
  In first (item_texts vs) -> List.length first <= max_str_digits.
Proof.
  intros H Hin. rewrite item_texts_eq in Hin.
  apply in_map_iff in Hin as (v & <- & Hv).
  apply filter_In in Hv as [Hv _].
  rewrite forallb_forall in H. specialize (H v Hv).
  apply Nat.leb_le in H. pose proof (length_strip v). lia.
Qed.

Lemma assign_field_within field vals metadata :
  (forall first, In first vals -> List.length first <= max_str_digits) ->
  duration_within_limit metadata ->
  duration_within_limit (assign_field field vals metadata).
Proof.
  intros Hv Hm. unfold assign_field.
  destruct vals as [|first rest]; [exact Hm|].
  repeat match goal with
         | |- context [if ?b then _ else _] => destruct b
         end;
    try exact Hm; intros d;
    rewrite ?get_set_same, ?get_set_other by reflexivity;
    try apply Hm.
  intros [= <-].
  pose proof (filter_length_le (fun c => negb (is_char " " c)) first).
  pose proof (Hv first (or_introl eq_refl)).
  unfold remove_spaces. lia.
Qed.

Lemma info_fields_within rows : forall metadata,
  forallb (fun item =>
             match item with
             | Got it =>
                 forallb (fun value_text =>
                            (List.length value_text <=? max_str_digits)%nat)
                   (item_values it)
             | Raised _ => true
             end) rows = true ->
  duration_within_limit metadata ->
  duration_within_limit (info_fields rows metadata).
Proof.
  unfold info_fields.
  induction rows as [|item rows IH]; intros md H Hm; [exact Hm|].
  cbn [forallb] in H. apply andb_true_iff in H as [Hi H].
  cbn [fold_left]. apply IH; [exact H|].
  unfold process_item. destruct item as [it|e]; [|exact Hm].
  destruct (item_label it); [|exact Hm].
  destruct (target_field _); [|exact Hm].
  apply assign_field_within; [|exact Hm].
  intros first. now apply item_texts_within.
Qed.

Lemma collected_within s url title :
  within_int_limit s = true -> duration_within_limit (collected s url title).
Proof.
  intros H d. unfold collected, sanitize.
  rewrite !sanitize_score_other by reflexivity.
  apply (info_fields_within _ _ H).
  intros d'. now rewrite after_tier3_panel.
Qed.

(** When no value text of the panel is longer than the limit, the
    gathering ends with a record. *)
Lemma gathered_within_limit s url title :
  within_int_limit s = true -> exists r, gathered s url title = Got r.
Proof.
  intro H. pose proof (collected_within s url title H) as W.
  unfold gathered, postprocess_duration.
  destruct (get "duration" (collected s url title)) as [| |[|c d]] eqn:G;
    eauto.
  destruct (format_duration_within (c :: d) (W _ G)) as [v ->]. eauto.
Qed.


(** *** Failures of the guarded calls *)

Lemma gathered_absorbed s url title :
  gathered (absorbed s) url title = gathered s url title
  /\ gathering_calls (absorbed s) url title = gathering_calls s url title.
Proof.
  unfold gathered, collected, gathering_calls, after_tier3, after_tier2,
    after_tier1, absorbed.
  cbn [critics audience evaluate rt_texts info_section answer].
  split; reflexivity.
Qed.

(** An exception raised by one of the guarded calls (the wait for the
    scorecard, the two score elements, the script, the scan, the info
    panel) is absorbed: the extraction returns the same record after
    the same engine calls as on a page where the element is missing;
    and when the set-up completes, the page loads, the browser
    closes and no value text of the info panel is longer than the
    limit of [int], the extraction returns a full record, whatever
    the guarded calls did. *)
Theorem guarded_failures_are_absorbed (s : session) (url title : str) :
  outcome (scrape_movie_metadata_efficient s url title)
  = outcome (scrape_movie_metadata_efficient (absorbed s) url title)
  /\ calls (scrape_movie_metadata_efficient s url title)
     = calls (scrape_movie_metadata_efficient (absorbed s) url title)
  /\ (acquire s = Got tt -> viewport s = Got tt -> goto s = Got tt ->
      close s = Got tt ->
      within_int_limit s = true ->
      exists r,
        outcome (scrape_movie_metadata_efficient s url title) = Got r
        /\ full_record r).
Proof.
  destruct (gathered_absorbed s url title) as [G C].
  rewrite !scrape_outcome_cases, !scrape_calls_cases, G, C.
  split; [reflexivity|]. split; [reflexivity|].
  intros Ha -> -> -> L.
  change (acquire (absorbed s)) with (acquire s). rewrite Ha.
  destruct (gathered_within_limit s url title L) as [r Hr].
  exists r. rewrite Hr. split; [reflexivity|].
  now apply (gathered_full s url title).
Qed.

(** *** Errors that leave the extractor *)



(** *** The engine calls *)




Lemma gathering_never_closes s url title :
  ~ In CloseBrowser (gathering_calls s url title).
Proof.
  unfold gathering_calls.
  destruct (score_missing (after_tier1 s url title)),
           (score_missing (after_tier2 s url title));
    simpl; intuition discriminate.
Qed.

(** Once the page has been opened, the last engine call of the
    extraction closes the browser, on every path; and the browser is
    closed once, except when the close at the end of a completed
    gathering raises and the error handler closes it again. When the
    browser has been launched and the page cannot be opened, the
    exception leaves the extractor and the browser is never closed. *)
Theorem browser_is_closed_last (s : session) (url title : str) :
  (acquire s = Got tt ->
   exists before,
     calls (scrape_movie_metadata_efficient s url title)
     = before ++ [CloseBrowser]
     /\ (In CloseBrowser before ->
         viewport s = Got tt /\ goto s = Got tt
         /\ (exists metadata, gathered s url title = Got metadata)
         /\ exists e, close s = Raised e))
  /\ (forall e,
        playwright s = Got tt -> launch s = Got tt ->
        new_page s = Raised e ->
        outcome (scrape_movie_metadata_efficient s url title) = Raised e
        /\ calls (scrape_movie_metadata_efficient s url title)
           = [StartPlaywright; Launch; NewPage]).
Proof.
  split.
  - intro Ha. rewrite scrape_calls_cases, (setup_calls_acquired s tt Ha), Ha.
    destruct (viewport s) as [[]|ev].
    2:{ exists [StartPlaywright; Launch; NewPage; SetViewport].
        split; [reflexivity|]. simpl. intuition discriminate. }
    destruct (goto s) as [[]|eg].
    2:{ exists [StartPlaywright; Launch; NewPage; SetViewport; Goto].
        split; [reflexivity|]. simpl. intuition discriminate. }
    pose proof (gathering_never_closes s url title) as N.
    assert (B : ~ In CloseBrowser
                    ([StartPlaywright; Launch; NewPage; SetViewport; Goto]
                     ++ gathering_calls s url title)).
    { intro H. apply in_app_or in H as [H | H]; [|contradiction].
      simpl in H. intuition discriminate. }
    destruct (gathered s url title) as [metadata|ei].
    + destruct (close s) as [[]|ec].
      * exists ([StartPlaywright; Launch; NewPage; SetViewport; Goto]
                ++ gathering_calls s url title).
        split; [cbn [List.app]; now rewrite <- ?app_assoc|].
        intro H. now contradiction B.
      * exists ([StartPlaywright; Launch; NewPage; SetViewport; Goto]
                ++ gathering_calls s url title ++ [CloseBrowser]).
        split; [cbn [List.app]; now rewrite <- ?app_assoc|].
        intros _. repeat split; eauto.
    + exists ([StartPlaywright; Launch; NewPage; SetViewport; Goto]
              ++ gathering_calls s url title).
      split; [cbn [List.app]; now rewrite <- ?app_assoc|].
      intro H. now contradiction B.
  - intros e Hp Hl Hn.
    rewrite scrape_outcome_cases, scrape_calls_cases.
    unfold acquire, setup_calls. rewrite Hp, Hl, Hn. split; reflexivity.
Qed.

(** The navigation fails: the handler closes the browser. The page
    cannot be opened: nothing closes the browser. *)
Lemma browser_is_closed_last_witness :
  (exists before,
     calls (scrape_movie_metadata_efficient
              (unreachable_session "Timeout 30000ms exceeded") "u" "t")
     = before ++ [CloseBrowser])
  /\ calls (scrape_movie_metadata_efficient
              (unopened_session "Target closed") "u" "t")
     = [StartPlaywright; Launch; NewPage].
Proof.
  split.
  - destruct (proj1 (browser_is_closed_last
                       (unreachable_session "Timeout 30000ms exceeded")
                       "u" "t") eq_refl) as (before & E & _).
    now exists before.
  - apply (proj2 (browser_is_closed_last
                    (unopened_session "Target closed") "u" "t")
             ("Target closed" : str) eq_refl eq_refl eq_refl).
Defined.

End RecordFacts.

(** ** The score cascade *)

Module ScoreFacts.

Import StrFacts DetailExtractor ExtractorNotions ExtractorFacts GatherFacts
  RecordFacts.

(** *** Reading a percentage *)

(** The decimal numerals of the scores. *)
Lemma score_digits n :
  (n <= 100)%N ->
  forallb is_digit (str_of_N n) = true
  /\ 1 <= List.length (str_of_N n) <= 3
  /\ int_of_digits (str_of_N n) = n.
Proof.
  intro Hn.
  assert (A : forallb
                (fun k => let ds := str_of_N (N.of_nat k) in
                          forallb is_digit ds
                          && (1 <=? List.length ds)%nat
                          && (List.length ds <=? 3)%nat
                          && (int_of_digits ds =? N.of_nat k)%N)
                (seq 0 101) = true) by (vm_compute; reflexivity).
  rewrite forallb_forall in A. specialize (A (N.to_nat n)).
  rewrite N2Nat.id in A. cbv zeta in A.
  assert (Hin : In (N.to_nat n) (seq 0 101)) by (apply in_seq; lia).
  specialize (A Hin).
  apply andb_true_iff in A as [A A4]. apply andb_true_iff in A as [A A3].
  apply andb_true_iff in A as [A1 A2].
  apply Nat.leb_le in A2, A3. apply N.eqb_eq in A4. auto.
Qed.

Lemma drop_while_app_all p (pre rest : str) :
  forallb p pre = true -> drop_while p (pre ++ rest) = drop_while p rest.
Proof.
  induction pre as [|c pre IH]; simpl; [reflexivity|].
  intro H. apply andb_true_iff in H as [-> H]. now apply IH.
Qed.

(** Stripping removes the whitespace around a text that neither
    begins nor ends with whitespace. *)
Lemma strip_padded pre c body d post :
  forallb is_space pre = true -> forallb is_space post = true ->
  is_space c = false -> is_space d = false ->
  strip (pre ++ (c :: body ++ [d]) ++ post) = c :: body ++ [d].
Proof.
  intros Hpre Hpost Hc Hd. unfold strip.
  rewrite drop_while_app_all by exact Hpre.
  cbn [List.app drop_while]. rewrite Hc.
  change (c :: (body ++ [d]) ++ post) with ((c :: body ++ [d]) ++ post).
  rewrite rstrip_with_app_tail by exact Hpost.
  change (c :: body ++ [d]) with ((c :: body) ++ [d]).
  now apply rstrip_with_app_keep.
Qed.

Lemma digit_not_space c : is_digit c = true -> is_space c = false.
Proof. destruct c as [[] [] [] [] [] [] [] []]; vm_compute; congruence. Qed.

(** The first run of digits of a numeral followed by a per cent sign
    is the numeral. *)
Lemma search_digits_percent ds :
  ds <> [] -> forallb is_digit ds = true ->
  search_digits (ds ++ "%") = Some ds.
Proof.
  intros Hne Hd. unfold search_digits.
  destruct ds as [|c ds]; [contradiction|].
  simpl in Hd. apply andb_true_iff in Hd as [Hc Hd].
  cbn [List.app drop_while]. rewrite Hc. cbn [negb take_while].
  rewrite Hc. f_equal. f_equal.
  rewrite UrlFacts.take_while_app_all by exact Hd.
  now rewrite app_nil_r.
Qed.

(** Tier 1 reads a percentage between 0 and 100, with whitespace
    around it, as its number. *)
Lemma tier1_percentage field pre n post metadata :
  (n <= 100)%N ->
  forallb is_space pre = true -> forallb is_space post = true ->
  tier1 field (Some (pre ++ (str_of_N n ++ "%") ++ post)) metadata
  = set field (VInt (Z.of_N n)) metadata.
Proof.
  intros Hn Hpre Hpost.
  destruct (score_digits n Hn) as (Hd & [Hl1 Hl3] & Hi).
  destruct (str_of_N n) as [|c ds] eqn:E; [simpl in Hl1; lia|].
  assert (Hc : is_space c = false).
  { apply digit_not_space. simpl in Hd.
    now apply andb_true_iff in Hd as [Hd _]. }
  unfold tier1.
  destruct (pre ++ ((c :: ds) ++ "%") ++ post) as [|x t] eqn:T.
  { apply app_eq_nil in T as [_ T]. discriminate T. }
  rewrite <- T.
  change ((c :: ds) ++ "%") with (c :: ds ++ ["%"%char]).
  rewrite strip_padded by (assumption || reflexivity).
  change (c :: ds ++ ["%"%char]) with ((c :: ds) ++ "%").
  unfold search_digits_1_3.
  rewrite search_digits_percent by (discriminate || exact Hd).
  rewrite firstn_all2 by exact Hl3. rewrite Hi.
  assert (R : in_range (Z.of_N n) = true)
    by (apply in_range_bounds; lia).
  now rewrite R.
Qed.

(** *** A score that is set stays *)

Lemma tier2_assign_keeps field field' v metadata z :
  get field metadata = VInt z ->
  get field (tier2_assign field' v metadata) = VInt z.
Proof.
  intro H. unfold tier2_assign. destruct v as [y|]; [|exact H].
  destruct (String.eqb field field') eqn:E.
  - apply String.eqb_eq in E. subst field'. rewrite H.
    now rewrite andb_false_r.
  - destruct (_ && _); [now rewrite get_set_other | exact H].
Qed.

Lemma tier2_keeps field scores metadata z :
  get field metadata = VInt z -> get field (tier2 scores metadata) = VInt z.
Proof. intro H. unfold tier2. now repeat apply tier2_assign_keeps. Qed.

Lemma assign_if_none_keeps field field' score metadata z :
  get field metadata = VInt z ->
  get field (assign_if_none field' score metadata) = VInt z.
Proof.
  intro H. unfold assign_if_none.
  destruct (String.eqb field field') eqn:E.
  - apply String.eqb_eq in E. subst field'. now rewrite H.
  - destruct (is_none _); [now rewrite get_set_other | exact H].
Qed.

Lemma tier3_keeps field texts metadata z :
  get field metadata = VInt z -> get field (tier3 texts metadata) = VInt z.
Proof.
  intro H. unfold tier3.
  destruct (potential_scores texts) as [|a [|b [|c l]]]; try exact H.
  now repeat apply assign_if_none_keeps.
Qed.

(** The two scores of the collected record are those that the
    cascade has left, kept by the sanitation when they are in
    range. *)
Lemma info_fields_score field rows : forall metadata,
  written score_keys field = true ->
  get field (info_fields rows metadata) = get field metadata.
Proof.
  intros metadata Hf. apply written_In in Hf. simpl in Hf.
  revert metadata. unfold info_fields.
  induction rows as [|item rows IH]; intro md; [reflexivity|].
  cbn [fold_left]. rewrite IH.
  unfold process_item. destruct item as [it|e]; [|reflexivity].
  destruct (item_label it); [|reflexivity].
  destruct (target_field _); [|reflexivity].
  unfold assign_field.
  destruct (item_texts _) as [|first rest]; [reflexivity|].
  destruct Hf as [<- | [<- | []]];
    repeat match goal with
           | |- context [if ?b then _ else _] => destruct b
           end;
    try reflexivity; now rewrite get_set_other.
Qed.

Lemma collected_score field s url title z :
  written score_keys field = true ->
  get field (after_tier3 s url title) = VInt z -> in_range z = true ->
  get field (collected s url title) = VInt z.
Proof.
  intros Hf H R. unfold collected.
  rewrite <- (info_fields_score field (answer (info_section s) []))
    in H by exact Hf.
  set (md := info_fields _ _) in *. clearbody md.
  apply written_In in Hf. simpl in Hf.
  destruct Hf as [<- | [<- | []]]; unfold sanitize.
  - rewrite sanitize_score_other by reflexivity.
    unfold sanitize_score. now rewrite H, R.
  - unfold sanitize_score at 1.
    rewrite sanitize_score_other by reflexivity. rewrite H, R. cbn [negb].
    now rewrite sanitize_score_other by reflexivity.
Qed.

(** The post-processing changes the duration only. *)
Lemma gathered_get field s url title r :
  gathered s url title = Got r -> String.eqb field "duration" = false ->
  get field r = get field (collected s url title).
Proof. intros H Hf. now apply (postprocess_duration_other field _ _ H). Qed.

Lemma gathered_score field s url title r z :
  gathered s url title = Got r ->
  written score_keys field = true ->
  get field (after_tier3 s url title) = VInt z -> in_range z = true ->
  get field r = VInt z.
Proof.
  intros Hr Hf H R. rewrite (gathered_get field _ _ _ _ Hr).
  - now apply collected_score.
  - apply written_In in Hf. simpl in Hf.
    now destruct Hf as [<- | [<- | []]].
Qed.

(** A percentage between 0 and 100 carried by a dedicated score
    element is the score that the extractor returns: the later tiers,
    the info panel and the sanitation leave it as tier 1 read it.
    (The extraction is one that runs to its normal end: the page
    loads, the browser closes, and no value text of the info panel is
    longer than the limit of [int].) *)
Theorem tier1_percentage_is_final (s : session) (url title : str)
  (pre post : str) (n : N) :
  acquire s = Got tt -> viewport s = Got tt -> goto s = Got tt ->
  close s = Got tt ->
  within_int_limit s = true ->
  (n <= 100)%N ->
  forallb is_space pre = true -> forallb is_space post = true ->
  exists r,
    outcome (scrape_movie_metadata_efficient s url title) = Got r
    /\ (critics s = Got (Some (pre ++ (str_of_N n ++ "%") ++ post)) ->
        get "tomatometer_score" r = VInt (Z.of_N n))
    /\ (audience s = Got (Some (pre ++ (str_of_N n ++ "%") ++ post)) ->
        get "audience_score" r = VInt (Z.of_N n)).
Proof.
  intros Ha Hv Hg Hc Hlim Hn Hpre Hpost.
  destruct (gathered_within_limit s url title Hlim) as [r Hr].
  exists r.
  split; [rewrite scrape_outcome_cases, Ha, Hv, Hg, Hr, Hc; reflexivity|].
  assert (R : in_range (Z.of_N n) = true) by (apply in_range_bounds; lia).
  assert (L : forall field,
             get field (after_tier1 s url title) = VInt (Z.of_N n) ->
             get field (after_tier3 s url title) = VInt (Z.of_N n)).
  { intros field H. unfold after_tier3, after_tier2. cbv zeta.
    destruct (score_missing (after_tier1 s url title));
      destruct (score_missing _);
      repeat first [apply tier3_keeps | apply tier2_keeps]; exact H. }
  split; intro Ht;
    (apply (gathered_score _ s url title); [exact Hr | reflexivity | | exact R]);
    apply L; unfold after_tier1; rewrite Ht; cbn [answer].
  - rewrite tier1_keeps by reflexivity.
    rewrite tier1_percentage by assumption. apply get_set_same.
  - rewrite tier1_percentage by assumption. apply get_set_same.
Qed.

Lemma tier1_percentage_is_final_witness :
  exists r,
    outcome (scrape_movie_metadata_efficient
               (session_of (Got (Some (" 92% " : str))) (Raised "timeout")
                  (Got (Some ("15" : str), Some ("7" : str)))
                  [Some ("3" : str); Some ("4" : str)] [] (Got tt))
               "u" "t") = Got r
    /\ get "tomatometer_score" r = VInt 92.
Proof.
  destruct (tier1_percentage_is_final
              (session_of (Got (Some (" 92% " : str))) (Raised "timeout")
                 (Got (Some ("15" : str), Some ("7" : str)))
                 [Some ("3" : str); Some ("4" : str)] [] (Got tt))
              "u" "t" " " " " 92%N
              eq_refl eq_refl eq_refl eq_refl eq_refl)
    as (r & Hr & Ht & _); try reflexivity.
  - discriminate.
  - exists r. split; [exact Hr | exact (Ht eq_refl)].
Defined.

End ScoreFacts.

(** ** The scan of tier 3, the info panel and the duration *)

Module PanelFacts.

Import StrFacts DetailExtractor ExtractorNotions ExtractorFacts GatherFacts
  RecordFacts ScoreFacts.

(** *** Tier 3 *)






(** *** Rows of the info panel *)

Lemma collected_panel k s url title :
  written panel_keys k = true ->
  get k (collected s url title)
  = get k (info_fields (answer (info_section s) [])
             (after_tier3 s url title)).
Proof.
  intros Hk. unfold collected, sanitize.
  apply written_In in Hk. simpl in Hk.
  repeat destruct Hk as [<- | Hk]; try contradiction;
    now rewrite !sanitize_score_other by reflexivity.
Qed.

Lemma gathered_panel k s url title r :
  gathered s url title = Got r ->
  written panel_keys k = true -> String.eqb k "duration" = false ->
  get k r
  = get k (info_fields (answer (info_section s) [])
             (after_tier3 s url title)).
Proof.
  intros Hr Hk Hd. rewrite (gathered_get k _ _ _ _ Hr Hd).
  now apply collected_panel.
Qed.

Lemma info_fields_app before after metadata :
  info_fields (before ++ after) metadata
  = info_fields after (info_fields before metadata).
Proof. unfold info_fields. apply fold_left_app. Qed.

(** Blank values yield no text; the first text of a row is its first
    value that is not blank, stripped. *)
Lemma item_texts_blank vs : forallb blank vs = true -> item_texts vs = [].
Proof.
  unfold item_texts, blank. induction vs as [|v vs IH]; [reflexivity|].
  cbn [forallb flat_map]. intro H. apply andb_true_iff in H as [-> H].
  now rewrite IH.
Qed.

Lemma item_texts_first blanks raw rest :
  forallb blank blanks = true -> blank raw = false ->
  item_texts (blanks ++ raw :: rest) = strip raw :: item_texts rest.
Proof.
  intros Hb Hr. unfold item_texts. rewrite flat_map_app.
  fold (item_texts blanks). rewrite (item_texts_blank blanks Hb).
  cbn [flat_map List.app]. unfold blank in Hr. now rewrite Hr.
Qed.

(** A row that does not write a field leaves the key of that field as
    it is; [key] is the key that the source assigns for [field]. *)
Lemma process_item_skips field key item metadata :
  (forall f vals d, str_eqb f field = false ->
                    get key (assign_field f vals d) = get key d) ->
  writes field item = false ->
  get key (process_item metadata item) = get key metadata.
Proof.
  intros K W. unfold writes, row_field in W. unfold process_item.
  destruct item as [it|e]; [|reflexivity].
  destruct (item_label it) as [label_text|]; [|reflexivity].
  destruct (target_field _) as [f|]; [|reflexivity].
  apply andb_false_iff in W as [W | W].
  - now apply K.
  - apply negb_false_iff in W. now rewrite (item_texts_blank _ W).
Qed.

Lemma info_fields_skips field key rows :
  (forall f vals d, str_eqb f field = false ->
                    get key (assign_field f vals d) = get key d) ->
  forall metadata,
    existsb (writes field) rows = false ->
    get key (info_fields rows metadata) = get key metadata.
Proof.
  intro K. unfold info_fields.
  induction rows as [|item rows IH]; intros md W; [reflexivity|].
  cbn [existsb] in W. apply orb_false_iff in W as [W1 W2].
  cbn [fold_left]. rewrite IH by exact W2.
  now apply (process_item_skips field).
Qed.

(** The value of a key after the panel has been read is the one that
    the last row writing its field has stored. *)
Lemma info_fields_row field key before it after metadata :
  (forall f vals d, str_eqb f field = false ->
                    get key (assign_field f vals d) = get key d) ->
  existsb (writes field) after = false ->
  get key (info_fields (before ++ Got it :: after) metadata)
  = get key (process_item (info_fields before metadata) (Got it)).
Proof.
  intros K W.
  change (before ++ Got it :: after) with (before ++ [Got it] ++ after).
  rewrite !info_fields_app.
  now rewrite (info_fields_skips field key after K).
Qed.

Ltac skips_field :=
  intros f vals d Hf; unfold assign_field;
  destruct vals as [|first rest]; [reflexivity|];
  rewrite ?Hf;
  repeat match goal with
         | |- context [if ?b then _ else _] => destruct b
         end;
  rewrite ?get_set_other by reflexivity; reflexivity.

Lemma skips_genre f vals d :
  str_eqb f "genre" = false ->
  get "genre" (assign_field f vals d) = get "genre" d.
Proof. revert f vals d. skips_field. Qed.

Lemma skips_rating f vals d :
  str_eqb f "rating" = false ->
  get "rating" (assign_field f vals d) = get "rating" d.
Proof. revert f vals d. skips_field. Qed.

Lemma skips_runtime f vals d :
  str_eqb f "runtime" = false ->
  get "duration" (assign_field f vals d) = get "duration" d.
Proof. revert f vals d. skips_field. Qed.

Lemma skips_release_date f vals d :
  str_eqb f "release date" = false ->
  get "release_date" (assign_field f vals d) = get "release_date" d.
Proof. revert f vals d. skips_field. Qed.

Lemma skips_director f vals d :
  str_eqb f "director" = false ->
  get "director" (assign_field f vals d) = get "director" d.
Proof. revert f vals d. skips_field. Qed.

Lemma skips_original_language f vals d :
  str_eqb f "original language" = false ->
  get "original_language" (assign_field f vals d)
  = get "original_language" d.
Proof. revert f vals d. skips_field. Qed.

Lemma skips_box_office f vals d :
  str_eqb f "box office" = false ->
  get "box_office" (assign_field f vals d) = get "box_office" d.
Proof. revert f vals d. skips_field. Qed.

Lemma skips_distributor f vals d :
  str_eqb f "distributor" = false ->
  get "distributor" (assign_field f vals d) = get "distributor" d.
Proof. revert f vals d. skips_field. Qed.

(** Reversing, dropping the leading characters and reversing again
    removes the trailing characters. *)
Lemma rev_drop_while_rev p (s : str) :
  List.rev (drop_while p (List.rev s)) = rstrip_with p s.
Proof.
  induction s as [|c s IH] using rev_ind; [reflexivity|].
  rewrite rev_app_distr. cbn [List.rev List.app drop_while].
  destruct (p c) eqn:E.
  - rewrite IH. symmetry. now apply rstrip_with_app_drop.
  - cbn [List.rev]. rewrite rev_involutive. symmetry.
    now apply rstrip_with_app_keep.
Qed.

Lemma forallb_rev {A} (f : A -> bool) l :
  forallb f l = true -> forallb f (List.rev l) = true.
Proof.
  rewrite !forallb_forall. intros H x Hx. apply H. now apply in_rev.
Qed.

(** [strip_wide] removes a final ["Wide"] together with the comma
    before it and the whitespace around the comma. *)
Lemma strip_wide_suffix d w1 w2 :
  forallb is_space w1 = true -> forallb is_space w2 = true ->
  strip_wide (d ++ w1 ++ "," ++ w2 ++ "Wide") = rstrip_with is_space d.
Proof.
  intros H1 H2. unfold strip_wide.
  assert (R : List.rev (d ++ w1 ++ "," ++ w2 ++ "Wide")
              = List.rev ("Wide" : str)
                ++ List.rev w2 ++ ","%char :: List.rev w1 ++ List.rev d).
  { rewrite !rev_app_distr. cbn [List.rev List.app].
    now rewrite <- !app_assoc. }
  rewrite R. rewrite UrlFacts.startswith_app.
  change (skipn 4 (List.rev ("Wide" : str) ++ ?x)) with x.
  rewrite drop_while_app_all by now apply forallb_rev.
  cbn [drop_while]. change (is_space ",") with false. cbv iota.
  rewrite drop_while_app_all by now apply forallb_rev.
  apply rev_drop_while_rev.
Qed.

(** What the extraction returns when it runs to its normal end. *)
Lemma normal_end s url title r :
  acquire s = Got tt -> viewport s = Got tt -> goto s = Got tt ->
  close s = Got tt ->
  gathered s url title = Got r ->
  outcome (scrape_movie_metadata_efficient s url title) = Got r.
Proof.
  intros Ha Hv Hg Hc Hr.
  now rewrite scrape_outcome_cases, Ha, Hv, Hg, Hr, Hc.
Qed.

(** What a row stores for its field, whatever follows it. *)
Lemma row_stores field key s url title before label vals after :
  (forall f vs d, str_eqb f field = false ->
                  get key (assign_field f vs d) = get key d) ->
  written panel_keys key = true ->
  info_section s
  = Got (before ++ Got {| item_label := Some label; item_values := vals |}
                   :: after) ->
  target_field (strip (lower label)) = Some field ->
  existsb (writes field) after = false ->
  get key (collected s url title)
  = get key (assign_field field (item_texts vals)
               (info_fields before (after_tier3 s url title))).
Proof.
  intros K Hk Hrows Hl W.
  rewrite collected_panel by exact Hk.
  rewrite Hrows. cbn [answer].
  rewrite (info_fields_row field key) by assumption.
  unfold process_item. cbn [item_label item_values]. now rewrite Hl.
Qed.

(** The release date is that of the last row of the panel that
    writes it (its label names the release date and it has a value
    that is not blank), whatever rows follow: the first non-blank
    value of the row, stripped; a final [", Wide"] is removed with the
    whitespace around its comma, and a text that does not end in
    ["Wide"] is kept as it is. (The row is one of ASCII texts, and the
    extraction one that runs to its normal end.) *)
Theorem release_date_of_last_row (s : session) (url title : str)
  (before after : list (observed info_item)) (label raw : str)
  (blanks rest : list str) :
  acquire s = Got tt -> viewport s = Got tt -> goto s = Got tt ->
  close s = Got tt ->
  within_int_limit s = true ->
  info_section s
  = Got (before ++ Got {| item_label := Some label;
                          item_values := blanks ++ raw :: rest |}
                   :: after) ->
  ascii_row {| item_label := Some label;
               item_values := blanks ++ raw :: rest |} = true ->
  target_field (strip (lower label)) = Some ("release date" : str) ->
  forallb blank blanks = true -> blank raw = false ->
  existsb (writes "release date") after = false ->
  exists r,
    outcome (scrape_movie_metadata_efficient s url title) = Got r
    /\ get "release_date" r = VStr (strip_wide (strip raw))
    /\ (forall d w1 w2,
          strip raw = d ++ w1 ++ "," ++ w2 ++ "Wide" ->
          forallb is_space w1 = true -> forallb is_space w2 = true ->
          get "release_date" r = VStr (rstrip_with is_space d))
    /\ (startswith (List.rev ("Wide" : str)) (List.rev (strip raw)) = false ->
        get "release_date" r = VStr (strip raw)).
Proof.
  intros Ha Hv Hg Hc Hlim Hrows _ Hl Hb Hraw W.
  destruct (gathered_within_limit s url title Hlim) as [r Hr].
  exists r. split; [now apply normal_end|].
  assert (G : get "release_date" r = VStr (strip_wide (strip raw))).
  { rewrite (gathered_get _ _ _ _ _ Hr) by reflexivity.
    rewrite (row_stores "release date" "release_date" s url title
               before label (blanks ++ raw :: rest) after)
      by (assumption || apply skips_release_date || reflexivity).
    rewrite item_texts_first by assumption.
    apply get_set_same. }
  split; [exact G|]. split.
  - intros d w1 w2 E H1 H2. rewrite G, E. f_equal.
    now apply strip_wide_suffix.
  - intro H. rewrite G. unfold strip_wide. now rewrite H.
Qed.

(** Two release rows between a genre row and a director row: the
    second release row decides, by its first value that is not
    blank. *)
Lemma release_date_of_last_row_witness :
  exists r,
    outcome (scrape_movie_metadata_efficient
               (session_of (Got None) (Got None) (Got (None, None)) []
                  [Got {| item_label := Some ("Genre" : str);
                          item_values := ["Drama" : str] |};
                   Got {| item_label := Some ("Release Date (Theaters)" : str);
                          item_values := ["Oct 22, 2021, Wide" : str] |};
                   Got {| item_label := Some ("Release Date (Streaming)" : str);
                          item_values := ["  " : str;
                                          " Jan 5, 2024 , Wide " : str;
                                          "Feb 1, 2024" : str] |};
                   Got {| item_label := Some ("Director" : str);
                          item_values := ["Denis Villeneuve" : str] |};
                   Raised "Timeout 5000ms exceeded"]
                  (Got tt)) "u" "t") = Got r
    /\ get "release_date" r = VStr "Jan 5, 2024".
Proof.
  destruct (release_date_of_last_row
              (session_of (Got None) (Got None) (Got (None, None)) []
                 [Got {| item_label := Some ("Genre" : str);
                         item_values := ["Drama" : str] |};
                  Got {| item_label := Some ("Release Date (Theaters)" : str);
                         item_values := ["Oct 22, 2021, Wide" : str] |};
                  Got {| item_label := Some ("Release Date (Streaming)" : str);
                         item_values := ["  " : str;
                                         " Jan 5, 2024 , Wide " : str;
                                         "Feb 1, 2024" : str] |};
                  Got {| item_label := Some ("Director" : str);
                         item_values := ["Denis Villeneuve" : str] |};
                  Raised "Timeout 5000ms exceeded"]
                 (Got tt)) "u" "t"
              [Got {| item_label := Some ("Genre" : str);
                      item_values := ["Drama" : str] |};
               Got {| item_label := Some ("Release Date (Theaters)" : str);
                      item_values := ["Oct 22, 2021, Wide" : str] |}]
              [Got {| item_label := Some ("Director" : str);
                      item_values := ["Denis Villeneuve" : str] |};
               Raised "Timeout 5000ms exceeded"]
              ("Release Date (Streaming)" : str)
              (" Jan 5, 2024 , Wide " : str)
              ["  " : str] ["Feb 1, 2024" : str]
              eq_refl eq_refl eq_refl eq_refl eq_refl eq_refl eq_refl
              eq_refl eq_refl eq_refl eq_refl)
    as (r & Hr & _ & H & _).
  exists r. split; [exact Hr|].
  exact (H ("Jan 5, 2024" : str) (" " : str) (" " : str)
           eq_refl eq_refl eq_refl).
Defined.

(** The other fields of the panel are those of the last row that
    writes them, whatever rows follow: genres and directors are the
    non-blank values of the row, stripped and joined with [", "];
    rating, original language, box office and distributor are the
    first of them. (The row is one of ASCII texts, and the extraction
    one that runs to its normal end.) *)
Theorem panel_values_of_last_row (s : session) (url title : str)
  (before after : list (observed info_item)) (label : str)
  (vals : list str) (first : str) (rest : list str) :
  acquire s = Got tt -> viewport s = Got tt -> goto s = Got tt ->
  close s = Got tt ->
  within_int_limit s = true ->
  info_section s
  = Got (before ++ Got {| item_label := Some label; item_values := vals |}
                   :: after) ->
  ascii_row {| item_label := Some label; item_values := vals |} = true ->
  map strip (filter (fun v => negb (is_empty (strip v))) vals)
  = first :: rest ->
  exists r,
    outcome (scrape_movie_metadata_efficient s url title) = Got r
    /\ (target_field (strip (lower label)) = Some ("genre" : str) ->
        existsb (writes "genre") after = false ->
        get "genre" r = VStr (join ", " (first :: rest)))
    /\ (target_field (strip (lower label)) = Some ("director" : str) ->
        existsb (writes "director") after = false ->
        get "director" r = VStr (join ", " (first :: rest)))
    /\ (target_field (strip (lower label)) = Some ("rating" : str) ->
        existsb (writes "rating") after = false ->
        get "rating" r = VStr first)
    /\ (target_field (strip (lower label))
        = Some ("original language" : str) ->
        existsb (writes "original language") after = false ->
        get "original_language" r = VStr first)
    /\ (target_field (strip (lower label)) = Some ("box office" : str) ->
        existsb (writes "box office") after = false ->
        get "box_office" r = VStr first)
    /\ (target_field (strip (lower label)) = Some ("distributor" : str) ->
        existsb (writes "distributor") after = false ->
        get "distributor" r = VStr first).
Proof.
  intros Ha Hv Hg Hc Hlim Hrows _ Hvals.
  destruct (gathered_within_limit s url title Hlim) as [r Hr].
  exists r. split; [now apply normal_end|].
  rewrite <- item_texts_eq in Hvals.
  repeat split; intros Hl W;
    rewrite (gathered_get _ _ _ _ _ Hr) by reflexivity.
  - rewrite (row_stores "genre" "genre" s url title before label vals after)
      by (assumption || apply skips_genre || reflexivity).
    rewrite Hvals. apply get_set_same.
  - rewrite (row_stores "director" "director" s url title before label vals
               after)
      by (assumption || apply skips_director || reflexivity).
    rewrite Hvals. apply get_set_same.
  - rewrite (row_stores "rating" "rating" s url title before label vals after)
      by (assumption || apply skips_rating || reflexivity).
    rewrite Hvals. apply get_set_same.
  - rewrite (row_stores "original language" "original_language" s url title
               before label vals after)
      by (assumption || apply skips_original_language || reflexivity).
    rewrite Hvals. apply get_set_same.
  - rewrite (row_stores "box office" "box_office" s url title before label
               vals after)
      by (assumption || apply skips_box_office || reflexivity).
    rewrite Hvals. apply get_set_same.
  - rewrite (row_stores "distributor" "distributor" s url title before label
               vals after)
      by (assumption || apply skips_distributor || reflexivity).
    rewrite Hvals. apply get_set_same.
Qed.

(** Two genre rows, the second with a blank value, followed by a
    runtime row, a genre row without any non-blank value and a row
    that cannot be read: the second genre row decides. *)
Lemma panel_values_of_last_row_witness :
  exists r,
    outcome (scrape_movie_metadata_efficient
               (session_of (Got None) (Got None) (Got (None, None)) []
                  [Got {| item_label := Some ("Genre" : str);
                          item_values := ["Drama" : str] |};
                   Got {| item_label := Some (" GENRE: " : str);
                          item_values :=
                            [" Sci-Fi " : str; "   " : str;
                             "Adventure" : str] |};
                   Got {| item_label := Some ("Runtime" : str);
                          item_values := ["2h 35m" : str] |};
                   Got {| item_label := Some ("Genre" : str);
                          item_values := ["  " : str] |};
                   Raised "Timeout 5000ms exceeded"]
                  (Got tt)) "u" "t") = Got r
    /\ get "genre" r = VStr "Sci-Fi, Adventure".
Proof.
  destruct (panel_values_of_last_row
              (session_of (Got None) (Got None) (Got (None, None)) []
                 [Got {| item_label := Some ("Genre" : str);
                         item_values := ["Drama" : str] |};
                  Got {| item_label := Some (" GENRE: " : str);
                         item_values :=
                           [" Sci-Fi " : str; "   " : str;
                            "Adventure" : str] |};
                  Got {| item_label := Some ("Runtime" : str);
                         item_values := ["2h 35m" : str] |};
                  Got {| item_label := Some ("Genre" : str);
                         item_values := ["  " : str] |};
                  Raised "Timeout 5000ms exceeded"]
                 (Got tt)) "u" "t"
              [Got {| item_label := Some ("Genre" : str);
                      item_values := ["Drama" : str] |}]
              [Got {| item_label := Some ("Runtime" : str);
                      item_values := ["2h 35m" : str] |};
               Got {| item_label := Some ("Genre" : str);
                      item_values := ["  " : str] |};
               Raised "Timeout 5000ms exceeded"]
              (" GENRE: " : str)
              [" Sci-Fi " : str; "   " : str; "Adventure" : str]
              ("Sci-Fi" : str) ["Adventure" : str]
              eq_refl eq_refl eq_refl eq_refl eq_refl eq_refl eq_refl
              eq_refl)
    as (r & Hr & H & _).
  exists r. split; [exact Hr | exact (H eq_refl eq_refl)].
Defined.

(** On a page without info panel (the section is absent, or reading
    it raises) the eight fields of the panel are all returned
    null. *)
Theorem missing_panel_leaves_fields_null (s : session) (url title : str) :
  acquire s = Got tt -> viewport s = Got tt -> goto s = Got tt ->
  close s = Got tt ->
  answer (info_section s) [] = [] ->
  exists r,
    outcome (scrape_movie_metadata_efficient s url title) = Got r
    /\ forall k, In k panel_keys -> get k r = VNone.
Proof.
  intros Ha Hv Hg Hc Hrows.
  assert (Hlim : within_int_limit s = true)
    by (unfold within_int_limit; now rewrite Hrows).
  destruct (gathered_within_limit s url title Hlim) as [r Hr].
  exists r. split; [now apply normal_end|].
  intros k Hk. apply written_In in Hk.
  pose proof (after_tier3_panel k s url title Hk) as E.
  assert (C : get k (collected s url title) = VNone).
  { rewrite collected_panel by exact Hk. now rewrite Hrows. }
  destruct (String.eqb k "duration") eqn:D.
  - apply String.eqb_eq in D. subst k.
    apply postprocess_duration_inv in Hr
      as [[-> _] | (d & v & Hd & _ & _)]; [exact C|].
    fold (collected s url title) in Hd. congruence.
  - now rewrite (gathered_get _ _ _ _ _ Hr D).
Qed.

Lemma missing_panel_leaves_fields_null_witness :
  exists r,
    outcome (scrape_movie_metadata_efficient
               {| playwright := Got tt; launch := Got tt;
                  new_page := Got tt;
                  viewport := Got tt; goto := Got tt;
                  scorecard := Got tt;
                  critics := Got (Some ("92%" : str));
                  audience := Got (Some ("88%" : str));
                  evaluate := Got (None, None); rt_texts := Got [];
                  info_section := Raised "Timeout 5000ms exceeded";
                  close := Got tt; close_after_error := Got tt |}
               "u" "t") = Got r
    /\ get "genre" r = VNone /\ get "duration" r = VNone.
Proof.
  destruct (missing_panel_leaves_fields_null
              {| playwright := Got tt; launch := Got tt;
                 new_page := Got tt;
                 viewport := Got tt; goto := Got tt;
                 scorecard := Got tt;
                 critics := Got (Some ("92%" : str));
                 audience := Got (Some ("88%" : str));
                 evaluate := Got (None, None); rt_texts := Got [];
                 info_section := Raised "Timeout 5000ms exceeded";
                 close := Got tt; close_after_error := Got tt |}
              "u" "t" eq_refl eq_refl eq_refl eq_refl eq_refl)
    as (r & Hr & H).
  exists r. split; [exact Hr|].
  split; apply H; simpl; tauto.
Defined.

(** *** The duration *)

Lemma has_unit_format_minutes n : has_unit_letters (format_minutes n) = true.
Proof.
  unfold has_unit_letters, format_minutes, lower.
  destruct (60 <=? n)%N; rewrite ?app_assoc, map_app, !UrlFacts.contains_app;
    cbn [map contains existsb]; change (is_char "m" (to_lower "m")) with true;
    now rewrite !orb_true_r.
Qed.

(** The cases of the formatting. *)
Lemma format_duration_units_kept d :
  has_unit_letters d = true -> format_duration d = Got d.
Proof. intro H. unfold format_duration. now rewrite H. Qed.

Lemma format_duration_minutes d ds :
  has_unit_letters d = false -> search_digits d = Some ds ->
  List.length ds <= max_str_digits ->
  format_duration d = Got (format_minutes (int_of_digits ds)).
Proof.
  intros U S L. unfold format_duration.
  now rewrite U, S, int_of_str_within.
Qed.

Lemma format_duration_beyond d ds :
  has_unit_letters d = false -> search_digits d = Some ds ->
  max_str_digits < List.length ds ->
  format_duration d = Raised (int_limit_error (List.length ds)).
Proof.
  intros U S L. unfold format_duration.
  now rewrite U, S, int_of_str_beyond.
Qed.

Lemma format_duration_no_digit d :
  has_unit_letters d = false -> search_digits d = None ->
  format_duration d = Got d.
Proof. intros U S. unfold format_duration. now rewrite U, S. Qed.

(** Post-processing leaves a duration that has a unit letter or no
    digit at all, and it changes nothing when applied again. *)
Lemma format_duration_units d v :
  format_duration d = Got v ->
  (has_unit_letters v = true \/ search_digits v = None)
  /\ format_duration v = Got v.
Proof.
  unfold format_duration at 1.
  destruct (has_unit_letters d) eqn:U.
  - intros [= <-]. split; [now left | now apply format_duration_units_kept].
  - destruct (search_digits d) as [ds|] eqn:S.
    + destruct (int_of_str ds) as [minutes|e]; [|discriminate].
      intros [= <-].
      pose proof (has_unit_format_minutes minutes) as H.
      split; [now left | now apply format_duration_units_kept].
    + intros [= <-].
      split; [now right | now apply format_duration_no_digit].
Qed.

(** A duration that the extractor returns is never a bare number of
    minutes: it has a unit letter, or it has no digit at all; and
    post-processing it once more would not change it. *)
Theorem returned_duration_has_units (s : session) (url title : str)
  (r : dict) (d : str) :
  outcome (scrape_movie_metadata_efficient s url title) = Got r ->
  get "duration" r = VStr d ->
  (has_unit_letters d = true \/ search_digits d = None)
  /\ format_duration d = Got d.
Proof.
  intros H G. apply scrape_outcome in H as [[e ->] | [metadata H]];
    [discriminate G|].
  apply postprocess_duration_inv in H as [[-> N] | (x & v & _ & F & ->)].
  - destruct d as [|c d]; [|now contradiction (N c d)].
    split; [now right | reflexivity].
  - rewrite get_set_same in G. injection G as <-.
    now apply (format_duration_units x).
Qed.

Lemma returned_duration_has_units_witness :
  exists r d,
    outcome (scrape_movie_metadata_efficient
               (session_of (Got None) (Got None) (Got (None, None)) []
                  [Got {| item_label := Some ("Runtime" : str);
                          item_values := ["135" : str] |}]
                  (Got tt)) "u" "t") = Got r
    /\ get "duration" r = VStr d
    /\ d = ("2h 15m" : str)
    /\ has_unit_letters d = true.
Proof.
  eexists. exists ("2h 15m" : str). split; [reflexivity|].
  split; [reflexivity|]. split; [reflexivity|].
  destruct (returned_duration_has_units
              (session_of (Got None) (Got None) (Got (None, None)) []
                 [Got {| item_label := Some ("Runtime" : str);
                         item_values := ["135" : str] |}]
                 (Got tt)) "u" "t" _ ("2h 15m" : str) eq_refl eq_refl)
    as [[H | H] _]; [exact H | discriminate H].
Defined.

(** *** The runtime row *)

(** The runtime that the panel leaves in the record: the first
    non-blank value of the last row that writes it, stripped and
    without its space characters. *)
Lemma runtime_row_duration s url title before after label blanks raw rest :
  info_section s
  = Got (before ++ Got {| item_label := Some label;
                          item_values := blanks ++ raw :: rest |}
                   :: after) ->
  target_field (strip (lower label)) = Some ("runtime" : str) ->
  forallb blank blanks = true -> blank raw = false ->
  existsb (writes "runtime") after = false ->
  get "duration" (collected s url title)
  = VStr (remove_spaces (strip raw)).
Proof.
  intros Hrows Hl Hb Hraw W.
  rewrite (row_stores "runtime" "duration" s url title before label
             (blanks ++ raw :: rest) after)
    by (assumption || apply skips_runtime || reflexivity).
  rewrite item_texts_first by assumption.
  apply get_set_same.
Qed.

(** C7 (as amended). The duration of the returned record comes from
    the last row of the info panel that writes the runtime, whatever
    rows stand before and after it (the row being one of ASCII
    texts): the first non-blank value of that row, stripped and
    without its space characters, after post-processing; when the
    post-processing raises (the [int] of
    line 353 refuses a run of more than 4300 digits) the extractor
    returns the failure record instead. The post-processing leaves a
    value that has a unit letter as it is (so that "1h 35m" comes out
    as "1h35m"), and turns a value without unit letters, whose first
    run of digits is the number N, into "{N}m" when N < 60 and into
    "{N div 60}h {N mod 60}m" otherwise (95 gives "1h 35m", 45 gives
    "45m"); a value with neither unit letters nor digits is kept. *)
Theorem duration_postprocessing :
  (forall s url title before after label blanks raw rest,
      acquire s = Got tt -> viewport s = Got tt -> goto s = Got tt ->
      info_section s
      = Got (before ++ Got {| item_label := Some label;
                              item_values := blanks ++ raw :: rest |}
                       :: after) ->
      ascii_row {| item_label := Some label;
                   item_values := blanks ++ raw :: rest |} = true ->
      target_field (strip (lower label)) = Some ("runtime" : str) ->
      forallb blank blanks = true -> blank raw = false ->
      existsb (writes "runtime") after = false ->
      (forall v,
          format_duration (remove_spaces (strip raw)) = Got v ->
          close s = Got tt ->
          exists r,
            outcome (scrape_movie_metadata_efficient s url title) = Got r
            /\ get "duration" r = VStr v)
      /\ (forall e,
            format_duration (remove_spaces (strip raw)) = Raised e ->
            close_after_error s = Got tt ->
            outcome (scrape_movie_metadata_efficient s url title)
            = Got (failure_record url title e)))
  /\ (forall d, has_unit_letters d = true -> format_duration d = Got d)
  /\ (forall d ds,
      has_unit_letters d = false -> search_digits d = Some ds ->
      List.length ds <= max_str_digits ->
      let n := int_of_digits ds in
      format_duration d
      = Got (if (n <? 60)%N then str_of_N n ++ "m"
             else str_of_N (n / 60) ++ "h " ++ str_of_N (n mod 60) ++ "m"))
  /\ (forall d ds,
      has_unit_letters d = false -> search_digits d = Some ds ->
      max_str_digits < List.length ds ->
      format_duration d = Raised (int_limit_error (List.length ds)))
  /\ (forall d,
      has_unit_letters d = false -> search_digits d = None ->
      format_duration d = Got d)
  /\ format_duration (remove_spaces (strip "95")) = Got ("1h 35m" : str)
  /\ format_duration (remove_spaces (strip "45")) = Got ("45m" : str)
  /\ format_duration (remove_spaces (strip "1h 35m")) = Got ("1h35m" : str).
Proof.
  split; [|split; [|split; [|split; [|split]]]].
  - intros s url title before after label blanks raw rest
      Ha Hv Hg Hrows _ Hl Hb Hraw W.
    pose proof (runtime_row_duration s url title before after label blanks
                  raw rest Hrows Hl Hb Hraw W) as D.
    split.
    + intros v F Hc.
      destruct (postprocess_duration_formats _ _ _ D F) as (r & Hr & G).
      exists r. split; [now apply normal_end | exact G].
    + intros e F Hc.
      pose proof (postprocess_duration_raises _ _ _ D F) as Hr.
      fold (gathered s url title) in Hr.
      now rewrite scrape_outcome_cases, Ha, Hv, Hg, Hr, Hc.
  - apply format_duration_units_kept.
  - intros d ds U S L n.
    rewrite (format_duration_minutes d ds U S L). fold n.
    unfold format_minutes. rewrite N.leb_antisym.
    now destruct (n <? 60)%N.
  - apply format_duration_beyond.
  - apply format_duration_no_digit.
  - repeat split; reflexivity.
Qed.

(** A runtime row between a genre row and a director row, its first
    value blank: the duration is that of its second value. *)
Lemma duration_postprocessing_witness :
  exists r,
    outcome (scrape_movie_metadata_efficient
               (session_of (Got None) (Got None) (Got (None, None)) []
                  [Got {| item_label := Some ("Genre" : str);
                          item_values := ["Drama" : str] |};
                   Got {| item_label := Some ("Runtime" : str);
                          item_values := ["  " : str; " 130 " : str] |};
                   Got {| item_label := Some ("Director" : str);
                          item_values := ["Michael Mann" : str] |}]
                  (Got tt)) "u" "t") = Got r
    /\ get "duration" r = VStr "2h 10m".
Proof.
  exact (proj1 (proj1 duration_postprocessing
                  (session_of (Got None) (Got None) (Got (None, None)) []
                     [Got {| item_label := Some ("Genre" : str);
                             item_values := ["Drama" : str] |};
                      Got {| item_label := Some ("Runtime" : str);
                             item_values := ["  " : str; " 130 " : str] |};
                      Got {| item_label := Some ("Director" : str);
                             item_values := ["Michael Mann" : str] |}]
                     (Got tt))
                  ("u" : str) ("t" : str)
                  [Got {| item_label := Some ("Genre" : str);
                          item_values := ["Drama" : str] |}]
                  [Got {| item_label := Some ("Director" : str);
                          item_values := ["Michael Mann" : str] |}]
                  ("Runtime" : str) ["  " : str] (" 130 " : str) []
                  eq_refl eq_refl eq_refl eq_refl eq_refl eq_refl eq_refl
                  eq_refl eq_refl)
           ("2h 10m" : str) eq_refl eq_refl).
Defined.

(** C7 as stated fails: an already formatted runtime does not pass
    through unchanged. The info panel shows the runtime "1h 35m", and
    the record is returned with the duration "1h35m". *)
Lemma formatted_duration_loses_its_space :
  exists r,
    outcome (scrape_movie_metadata_efficient
               (session_of (Got None) (Got None) (Got (None, None)) []
                  [Got {| item_label := Some ("Runtime" : str);
                          item_values := ["1h 35m" : str] |}]
                  (Got tt)) "u" "t") = Got r
    /\ get "duration" r = VStr "1h35m"
    /\ str_eqb "1h35m" "1h 35m" = false.
Proof. eexists. repeat split; reflexivity. Qed.

End PanelFacts.

(** ** Tier 2 *)

Module ScriptFacts.

Import StrFacts DetailExtractor ExtractorNotions ExtractorFacts GatherFacts
  RecordFacts ScoreFacts PanelFacts.

Lemma gathered_out_of_range field s url title r z :
  gathered s url title = Got r ->
  written score_keys field = true ->
  get field (after_tier3 s url title) = VInt z -> in_range z = false ->
  get field r = VNone.
Proof.
  intros Hr Hf H R.
  rewrite <- (info_fields_score field (answer (info_section s) []))
    in H by exact Hf.
  apply written_In in Hf. simpl in Hf.
  destruct Hf as [<- | [<- | []]];
    rewrite (gathered_get _ _ _ _ _ Hr) by reflexivity;
    unfold collected; set (md := info_fields _ _) in *; clearbody md;
    unfold sanitize.
  - rewrite sanitize_score_other by reflexivity.
    unfold sanitize_score. rewrite H, R. apply get_set_same.
  - unfold sanitize_score at 1.
    rewrite sanitize_score_other by reflexivity. rewrite H, R.
    apply get_set_same.
Qed.

(** What tier 2 stores for a score that tier 1 has left unset. *)
Lemma after_tier2_script s url title tc ta :
  evaluate s = Got (tc, ta) ->
  (forall z, get "tomatometer_score" (after_tier1 s url title) = VNone ->
             js_score tc = Some z -> z <> 0%Z ->
             get "tomatometer_score" (after_tier2 s url title) = VInt z)
  /\ (forall z, get "audience_score" (after_tier1 s url title) = VNone ->
                js_score ta = Some z -> z <> 0%Z ->
                get "audience_score" (after_tier2 s url title) = VInt z).
Proof.
  intro He. unfold after_tier2. cbv zeta. rewrite He. cbn [answer].
  unfold score_missing, unset, tier2, score_script.
  cbn [js_tomatometer js_audience fst snd].
  split; intros z Hu Hj Hz; rewrite Hu; cbn [is_none orb];
    rewrite ?orb_true_r.
  - rewrite tier2_assign_other by reflexivity.
    unfold tier2_assign. rewrite Hj, Hu. cbn [truthy is_none].
    apply Z.eqb_neq in Hz. rewrite Hz. apply get_set_same.
  - unfold tier2_assign at 1. rewrite Hj.
    rewrite tier2_assign_other by reflexivity. rewrite Hu.
    cbn [truthy is_none].
    apply Z.eqb_neq in Hz. rewrite Hz. apply get_set_same.
Qed.

(** When tier 1 has left a score unset, the number that the in-page
    script reads is the score that the extractor returns if it lies
    between 1 and 100, whatever the scan of tier 3 finds; a number
    above 100 is stored as well, which keeps tier 3 from filling the
    score, and is then discarded: the score is returned null. (The
    extraction is one that runs to its normal end: the page loads,
    the browser closes, and no value text of the info panel is longer
    than the limit of [int].) *)
Theorem tier2_fills_missing_score (s : session) (url title : str)
  (tc ta : option str) :
  acquire s = Got tt -> viewport s = Got tt -> goto s = Got tt ->
  close s = Got tt ->
  within_int_limit s = true ->
  evaluate s = Got (tc, ta) ->
  exists r,
    outcome (scrape_movie_metadata_efficient s url title) = Got r
    /\ (forall z,
          get "tomatometer_score" (after_tier1 s url title) = VNone ->
          js_score tc = Some z ->
          ((1 <= z <= 100)%Z -> get "tomatometer_score" r = VInt z)
          /\ ((100 < z)%Z -> get "tomatometer_score" r = VNone))
    /\ (forall z,
          get "audience_score" (after_tier1 s url title) = VNone ->
          js_score ta = Some z ->
          ((1 <= z <= 100)%Z -> get "audience_score" r = VInt z)
          /\ ((100 < z)%Z -> get "audience_score" r = VNone)).
Proof.
  intros Ha Hv Hg Hc Hlim He.
  destruct (gathered_within_limit s url title Hlim) as [r Hr].
  exists r. split; [now apply normal_end|].
  destruct (after_tier2_script s url title tc ta He) as [T A].
  assert (K : forall field z,
             get field (after_tier2 s url title) = VInt z ->
             get field (after_tier3 s url title) = VInt z).
  { intros field z H. unfold after_tier3. cbv zeta.
    destruct (score_missing _); [now apply tier3_keeps | exact H]. }
  split; intros z Hu Hj; split; intro Hz.
  - apply (gathered_score _ s url title);
      [exact Hr | reflexivity | | apply in_range_bounds; lia].
    apply K, T; auto. lia.
  - apply (gathered_out_of_range _ s url title r z);
      [exact Hr | reflexivity | |].
    + apply K, T; auto. lia.
    + unfold in_range. apply andb_false_iff. right. apply Z.leb_gt. lia.
  - apply (gathered_score _ s url title);
      [exact Hr | reflexivity | | apply in_range_bounds; lia].
    apply K, A; auto. lia.
  - apply (gathered_out_of_range _ s url title r z);
      [exact Hr | reflexivity | |].
    + apply K, A; auto. lia.
    + unfold in_range. apply andb_false_iff. right. apply Z.leb_gt. lia.
Qed.

Lemma tier2_fills_missing_score_witness :
  exists r,
    outcome (scrape_movie_metadata_efficient
               (session_of (Raised "timeout") (Raised "timeout")
                  (Got (Some (" 85% " : str), Some ("150%" : str)))
                  [Some ("10%" : str); Some ("20%" : str)] [] (Got tt))
               "u" "t") = Got r
    /\ get "tomatometer_score" r = VInt 85
    /\ get "audience_score" r = VNone.
Proof.
  destruct (tier2_fills_missing_score
              (session_of (Raised "timeout") (Raised "timeout")
                 (Got (Some (" 85% " : str), Some ("150%" : str)))
                 [Some ("10%" : str); Some ("20%" : str)] [] (Got tt))
              "u" "t" (Some (" 85% " : str)) (Some ("150%" : str))
              eq_refl eq_refl eq_refl eq_refl eq_refl eq_refl)
    as (r & Hr & Ht & Hau).
  exists r. split; [exact Hr|]. split.
  - apply (proj1 (Ht 85%Z eq_refl eq_refl)). lia.
  - apply (proj2 (Hau 150%Z eq_refl eq_refl)). lia.
Defined.

End ScriptFacts.

(** ** More on the batch coordinator *)

Module ChunkFacts.

Import ListCollector DetailExtractor BatchCoordinator BatchNotions
  ExtractorFacts BatchFacts.

(** *** The chunks of the loop *)

Lemma total_chunks_le n q : n <= q * chunk_size -> total_chunks n <= q.
Proof.
  unfold total_chunks, chunk_size. intro H.
  assert ((n + 10 - 1) / 10 < S q); [|lia].
  apply Nat.Div0.div_lt_upper_bound. lia.
Qed.

Lemma total_chunks_gt n q : q * chunk_size < n -> S q <= total_chunks n.
Proof.
  unfold total_chunks, chunk_size. intro H.
  apply Nat.div_le_lower_bound; lia.
Qed.

(** The loop visits the multiples of the chunk size below [n]. *)
Lemma range_from_multiples fuel : forall q n,
  n <= q * chunk_size + fuel ->
  range_from fuel (q * chunk_size) n
  = map (fun k => k * chunk_size)
      (seq q (total_chunks n - q)).
Proof.
  induction fuel as [|fuel IH]; intros q n H; cbn [range_from].
  - pose proof (total_chunks_le n q). 
    replace (total_chunks n - q) with 0 by lia. reflexivity.
  - destruct (Nat.ltb_spec (q * chunk_size) n) as [L | L].
    + replace (q * chunk_size + chunk_size) with (S q * chunk_size)
        by (unfold chunk_size; lia).
      rewrite IH by (unfold chunk_size in *; lia).
      pose proof (total_chunks_gt n q L).
      replace (total_chunks n - q) with (S (total_chunks n - S q)) by lia.
      reflexivity.
    + pose proof (total_chunks_le n q L).
      replace (total_chunks n - q) with 0 by lia. reflexivity.
Qed.

Lemma loop_indices_eq n :
  loop_indices n = map (fun k => k * chunk_size) (seq 0 (total_chunks n)).
Proof.
  unfold loop_indices.
  change (range_from n 0 n) with (range_from n (0 * chunk_size) n).
  rewrite range_from_multiples by (simpl; lia).
  now rewrite Nat.sub_0_r.
Qed.

Lemma chunks_concat {A} (l : list A) : forall c q,
  List.length l <= (q + c) * chunk_size ->
  List.concat (map (fun i => chunk_of i l)
            (map (fun k => k * chunk_size) (seq q c)))
  = skipn (q * chunk_size) l.
Proof.
  induction c as [|c IH]; intros q H; cbn [seq map List.concat].
  - symmetry. apply skipn_all2. lia.
  - rewrite IH by lia. unfold chunk_of.
    replace (S q * chunk_size) with (chunk_size + q * chunk_size) by lia.
    rewrite <- skipn_skipn. apply firstn_skipn.
Qed.

Lemma total_chunks_covers n : n <= total_chunks n * chunk_size.
Proof.
  unfold total_chunks, chunk_size.
  pose proof (Nat.div_mod_eq (n + 10 - 1) 10) as E.
  pose proof (Nat.mod_upper_bound (n + 10 - 1) 10). lia.
Qed.

(** The chunks that the loop takes partition the tasks: put end to
    end, in the order of the loop, they give back the list; each of
    them has at least one task and at most [chunk_size]; and the
    chunk numbers that the loop logs run from 1 to [total_chunks]. *)
Theorem chunks_partition_the_tasks {A} (l : list A) :
  List.concat (map (fun i => chunk_of i l) (loop_indices (List.length l))) = l
  /\ (forall i, In i (loop_indices (List.length l)) ->
        1 <= List.length (chunk_of i l) <= chunk_size)
  /\ map chunk_num (loop_indices (List.length l))
     = seq 1 (total_chunks (List.length l)).
Proof.
  rewrite loop_indices_eq. split; [|split].
  - rewrite chunks_concat; [reflexivity|].
    simpl. apply total_chunks_covers.
  - intros i Hi. apply in_map_iff in Hi as (k & <- & Hk).
    apply in_seq in Hk. unfold chunk_of.
    rewrite length_firstn, length_skipn.
    assert (k * chunk_size < List.length l).
    { destruct (Nat.lt_ge_cases (k * chunk_size) (List.length l))
        as [L | L]; [exact L|].
      pose proof (total_chunks_le _ _ L). lia. }
    unfold chunk_size in *. lia.
  - rewrite map_map. unfold chunk_num.
    rewrite <- seq_shift. apply map_ext. intro k.
    unfold chunk_size. rewrite Nat.div_mul by discriminate. lia.
Qed.

End ChunkFacts.

(** ** The chunk barrier *)

Module BarrierFacts.

Import ListCollector DetailExtractor BatchCoordinator BatchNotions
  ExtractorFacts BatchFacts.

Section Barrier.

Variable sessions : nat -> session.
Variable movies : list movie.
Variable max_concurrent : nat.

Local Abbreviation reachable := (reachable sessions movies max_concurrent).
Local Abbreviation coherent := (coherent sessions movies max_concurrent).
Local Abbreviation step := (step sessions movies).
Local Abbreviation process_movie := (process_movie sessions).

(** *** The loop index *)

Lemma aligned_step s s' : aligned (at_phase s) -> step s s' ->
  aligned (at_phase s').
Proof.
  intros H Hstep. destruct Hstep; cbn [at_phase] in *; try exact H;
    try exact I.
  - destruct H as [q ->].
    destruct (_ <? _)%nat; [now exists q|].
    exists (S q). unfold chunk_size. lia.
  - destruct H as [q ->]. exists (S q). unfold chunk_size. lia.
Qed.

Lemma reachable_aligned s : reachable s -> aligned (at_phase s).
Proof.
  induction 1 as [|s s' _ IH Hstep]; [now exists 0|].
  now apply (aligned_step s s').
Qed.

(** The three states that the invariant allows for a task. *)
Lemma task_ok_cases ph j m t :
  task_ok sessions movies ph j m t ->
  (j < settled_upto movies ph /\ t = Settled (process_movie j m))
  \/ (settled_upto movies ph <= j < scheduled_upto movies ph
      /\ (t = Waiting \/ t = InFlight \/ t = Settled (process_movie j m)))
  \/ (scheduled_upto movies ph <= j /\ settled_upto movies ph <= j
      /\ t = Created).
Proof.
  unfold task_ok.
  destruct (Nat.ltb_spec j (settled_upto movies ph)); [now left|].
  destruct (Nat.ltb_spec j (scheduled_upto movies ph)); right;
    [left | right]; auto.
Qed.

(** Where the tasks that have started and not settled are. *)
Lemma unsettled_window s j t :
  coherent s -> nth_error (tasks s) j = Some t ->
  t = Waiting \/ t = InFlight ->
  exists i, at_phase s = Gathering i /\ i <= j < i + chunk_size.
Proof.
  intros C Ht Hw.
  destruct (coherent_task _ _ _ _ _ _ C Ht) as (m & Hm & Hok).
  apply task_ok_cases in Hok
    as [[_ ->] | [[Hj _] | (_ & _ & ->)]];
    try (destruct Hw; discriminate).
  destruct (at_phase s) as [i | i | i |];
    cbn [settled_upto scheduled_upto] in Hj; try lia.
  now exists i.
Qed.

Lemma settled_below s j :
  coherent s -> j < settled_upto movies (at_phase s) ->
  j < List.length movies ->
  exists m, nth_error movies j = Some m
            /\ nth_error (tasks s) j = Some (Settled (process_movie j m)).
Proof.
  intros C Hj Hlen. pose proof C as (_ & _ & H & _). specialize (H j).
  destruct (nth_error movies j) as [m|] eqn:Hm.
  - destruct H as (t & Ht & Hok). exists m. split; [reflexivity|].
    unfold task_ok in Hok. apply Nat.ltb_lt in Hj. rewrite Hj in Hok.
    now rewrite Ht, Hok.
  - apply nth_error_None in Hm. lia.
Qed.

(** *** Chunks and positions *)

Lemma earlier_chunk_earlier j' j :
  j' / chunk_size < j / chunk_size -> j' < j.
Proof.
  intro H. destruct (Nat.lt_ge_cases j' j) as [L | L]; [exact L|].
  pose proof (Nat.Div0.div_le_mono j j' chunk_size L). lia.
Qed.

Lemma chunk_below q j : j < q * chunk_size + chunk_size -> j / chunk_size <= q.
Proof.
  intro H. assert (j / chunk_size < S q); [|lia].
  apply Nat.Div0.div_lt_upper_bound. unfold chunk_size in *. lia.
Qed.

Lemma chunk_above q j : q * chunk_size <= j -> q <= j / chunk_size.
Proof.
  intro H. apply Nat.div_le_lower_bound; unfold chunk_size in *; lia.
Qed.

Lemma before_chunk q j : j / chunk_size < q -> j < q * chunk_size.
Proof.
  intro H.
  destruct (Nat.lt_ge_cases j (q * chunk_size)) as [L | L]; [exact L|].
  pose proof (chunk_above q j L). lia.
Qed.

Lemma after_chunk q j :
  q < j / chunk_size -> q * chunk_size + chunk_size <= j.
Proof.
  intro H.
  destruct (Nat.lt_ge_cases j (q * chunk_size + chunk_size)) as [L | L];
    [|exact L].
  pose proof (chunk_below q j L). lia.
Qed.

Lemma task_below_settled s j t j' :
  coherent s -> aligned (at_phase s) ->
  nth_error (tasks s) j = Some t -> started t = true ->
  j' / chunk_size < j / chunk_size ->
  j' < settled_upto movies (at_phase s).
Proof.
  intros C A Ht Hs Hj'.
  destruct (coherent_task _ _ _ _ _ _ C Ht) as (m & Hm & Hok).
  pose proof (earlier_chunk_earlier _ _ Hj') as Hlt.
  assert (Hlen : j < List.length movies)
    by (apply nth_error_Some; congruence).
  assert (Hsched : j < scheduled_upto movies (at_phase s)).
  { apply task_ok_cases in Hok
      as [[Hj _] | [[[_ Hj] _] | (_ & _ & ->)]]; [|exact Hj|discriminate Hs].
    destruct (at_phase s); cbn [settled_upto scheduled_upto] in *; lia. }
  destruct (at_phase s) as [i | i | i |];
    cbn [settled_upto scheduled_upto aligned] in *; try lia.
  destruct A as [q ->]. apply before_chunk.
  pose proof (chunk_below q j Hsched). lia.
Qed.

(** *** Tasks in flight lie in one chunk *)

Lemma in_flight_le_length l : in_flight l <= List.length l.
Proof. unfold in_flight. apply filter_length_le. Qed.

Lemma in_flight_window ts a :
  (forall j, nth_error ts j = Some InFlight -> a <= j < a + chunk_size) ->
  in_flight ts <= chunk_size.
Proof.
  intro H.
  assert (E : ts = firstn a ts ++ chunk_of a ts ++ skipn (a + chunk_size) ts).
  { unfold chunk_of. replace (a + chunk_size) with (chunk_size + a) by lia.
    now rewrite <- skipn_skipn, !firstn_skipn. }
  rewrite E, !in_flight_app.
  rewrite (in_flight_none (firstn a ts)).
  - rewrite (in_flight_none (skipn (a + chunk_size) ts)).
    + pose proof (in_flight_le_length (chunk_of a ts)) as L.
      unfold chunk_of in L at 2. rewrite length_firstn in L. lia.
    + intros p Hp. rewrite nth_error_skipn in Hp. apply H in Hp. lia.
  - intros p Hp. rewrite nth_error_firstn in Hp.
    destruct (Nat.ltb_spec p a); [|discriminate]. apply H in Hp. lia.
Qed.

(** *** A gate without slots *)

Lemma no_slot_invariant s :
  max_concurrent = 0 -> movies <> [] -> reachable s ->
  (at_phase s = Dispatching 0 \/ at_phase s = Gathering 0)
  /\ all_results s = []
  /\ (forall j t, nth_error (tasks s) j = Some t ->
                  t = Created \/ t = Waiting).
Proof.
  intros Hk Hne Hr.
  induction Hr as [|s s' Hr IH Hstep].
  - unfold initial. cbn [at_phase all_results tasks].
    split; [now left|]. split; [reflexivity|].
    intros j t Ht. rewrite nth_error_map in Ht.
    destruct (nth_error movies j); [|discriminate]. injection Ht as <-.
    now left.
  - pose proof (reachable_coherent _ _ _ s Hr) as C.
    pose proof (coherent_length _ _ _ s C) as Hlen.
    destruct C as (Hgate & _).
    destruct IH as (Hph & Hres & Htasks).
    destruct Hstep; cbn [at_phase all_results tasks gate] in *.
    + (* dispatch *)
      destruct Hph as [[= ->] | [=]].
      split; [now right|]. split; [exact Hres|].
      intros j t Ht. rewrite nth_error_dispatch in Ht.
      destruct (_ && _).
      * destruct (nth_error ts j); [|discriminate]. injection Ht as <-.
        now right.
      * now apply (Htasks j).
    + (* admit: no free slot *)
      lia.
    + (* settle: nothing in flight *)
      destruct (Htasks _ _ H); discriminate.
    + (* gather: the first task of the chunk has not settled *)
      exfalso. destruct Hph as [[=] | [= ->]].
      apply settled_results_map in H.
      destruct ts as [|t ts]; [destruct movies; [now apply Hne|discriminate]|].
      destruct (Htasks 0 t eq_refl) as [-> | ->];
        destruct chunk_results; discriminate H.
    + destruct Hph as [[=] | [=]].
    + exfalso. destruct Hph as [[= ->] | [=]].
      destruct ts; [|simpl in H; lia].
      destruct movies; [now apply Hne | discriminate].
Qed.

End Barrier.

(** The chunk barrier. In every state that the coordinator can reach,
    when a task has been handed to [gather], every task of an earlier
    chunk has settled; while a task waits at the gate or is in
    flight, no task of a later chunk has been started; and the
    coordinator pauses only when a further chunk remains. *)
Theorem chunk_barrier
  (sessions : nat -> session) (movies : list movie) (max_concurrent : nat)
  (s : state) (j : nat) (t : task_state) :
  reachable sessions movies max_concurrent s ->
  nth_error (tasks s) j = Some t ->
  started t = true ->
  (forall j', j' / chunk_size < j / chunk_size ->
     exists m, nth_error movies j' = Some m
               /\ nth_error (tasks s) j'
                  = Some (Settled (process_movie sessions j' m)))
  /\ (t = Waiting \/ t = InFlight ->
      forall j', j / chunk_size < j' / chunk_size ->
                 j' < List.length movies ->
                 nth_error (tasks s) j' = Some Created)
  /\ (forall i, at_phase s = Pacing i ->
                i + chunk_size < List.length movies).
Proof.
  intros Hr Ht Hs.
  pose proof (reachable_coherent _ _ _ s Hr) as C.
  pose proof (reachable_aligned _ _ _ s Hr) as A.
  pose proof (coherent_length _ _ _ s C) as Hlen.
  assert (Hj : j < List.length movies)
    by (rewrite <- Hlen; apply nth_error_Some; congruence).
  split; [|split].
  - intros j' Hj'.
    apply (settled_below sessions movies max_concurrent s j' C).
    + now apply (task_below_settled sessions movies max_concurrent s j t).
    + pose proof (earlier_chunk_earlier _ _ Hj'). lia.
  - intros Hw j' Hj' Hlen'.
    destruct (unsettled_window sessions movies max_concurrent s j t C Ht Hw)
      as (i & Hph & Hi).
    rewrite Hph in A. destruct A as [q ->].
    pose proof (chunk_above q j (proj1 Hi)) as Hq.
    assert (Hafter : q * chunk_size + chunk_size <= j')
      by (apply after_chunk; lia).
    destruct C as (_ & _ & H & _). specialize (H j').
    destruct (nth_error movies j') as [m|] eqn:Hm;
      [|apply nth_error_None in Hm; lia].
    destruct H as (t' & Ht' & Hok). rewrite Ht'. f_equal.
    rewrite Hph in Hok.
    apply task_ok_cases in Hok as [[L _] | [[L _] | (_ & _ & E)]];
      cbn [settled_upto scheduled_upto] in *; [lia | lia | exact E].
  - intros i Hi. destruct C as (_ & Hph & _). now rewrite Hi in Hph.
Qed.

(** A batch of twenty-one entries, three chunks, behind a gate of
    three slots. When the coordinator pauses after the first chunk, a
    chunk is left; and while the second chunk is gathered, two of its
    tasks in flight, the ten tasks of the first chunk have settled and
    the task of the third chunk has not been started. *)
Lemma chunk_barrier_witness :
  exists s1 s2,
    run_events example_sessions example_batch first_chunk_schedule
      (initial example_batch 3) = Some s1
    /\ run_events example_sessions example_batch second_chunk_schedule
         (initial example_batch 3) = Some s2
    /\ at_phase s1 = Pacing 0
    /\ 0 + chunk_size < List.length example_batch
    /\ at_phase s2 = Gathering 10
    /\ nth_error (tasks s2) 11 = Some InFlight
    /\ (forall j', j' / chunk_size < 11 / chunk_size ->
          exists m, nth_error example_batch j' = Some m
                    /\ nth_error (tasks s2) j'
                       = Some (Settled
                                 (process_movie example_sessions j' m)))
    /\ (forall j', 11 / chunk_size < j' / chunk_size ->
                   j' < List.length example_batch ->
                   nth_error (tasks s2) j' = Some Created)
    /\ nth_error (tasks s2) 20 = Some Created.
Proof.
  destruct (run_events example_sessions example_batch first_chunk_schedule
              (initial example_batch 3)) as [s1|] eqn:E1;
    [|vm_compute in E1; discriminate E1].
  destruct (run_events example_sessions example_batch second_chunk_schedule
              (initial example_batch 3)) as [s2|] eqn:E2;
    [|vm_compute in E2; discriminate E2].
  exists s1, s2. split; [reflexivity|]. split; [reflexivity|].
  pose proof (run_events_reachable example_sessions example_batch 3 _ _ _
                (reach_initial _ _ _) E1) as R1.
  pose proof (run_events_reachable example_sessions example_batch 3 _ _ _
                (reach_initial _ _ _) E2) as R2.
  assert (P1 : at_phase s1 = Pacing 0)
    by (vm_compute in E1; now injection E1 as <-).
  assert (T1 : exists t, nth_error (tasks s1) 0 = Some t
                         /\ started t = true).
  { vm_compute in E1. injection E1 as <-. eexists. split; reflexivity. }
  destruct T1 as (t1 & T1 & S1).
  assert (P2 : at_phase s2 = Gathering 10)
    by (vm_compute in E2; now injection E2 as <-).
  assert (T2 : nth_error (tasks s2) 11 = Some InFlight)
    by (vm_compute in E2; now injection E2 as <-).
  destruct (chunk_barrier example_sessions example_batch 3 s1 0 t1 R1 T1 S1)
    as (_ & _ & H1).
  destruct (chunk_barrier example_sessions example_batch 3 s2 11 InFlight
              R2 T2 eq_refl) as (H2 & H3 & _).
  split; [exact P1|]. split; [exact (H1 0 P1)|]. split; [exact P2|].
  split; [exact T2|]. split; [exact H2|].
  split; [exact (H3 (or_intror eq_refl))|].
  apply (H3 (or_intror eq_refl)); [vm_compute; lia | vm_compute; lia].
Defined.

(** Whatever the size of the gate, the extractions in flight belong
    to one chunk: at no instant are more than [chunk_size] of them in
    flight, and no more than [max_concurrent]. *)
Theorem at_most_a_chunk_in_flight
  (sessions : nat -> session) (movies : list movie) (max_concurrent : nat)
  (s : state) :
  reachable sessions movies max_concurrent s ->
  in_flight (tasks s) <= Nat.min max_concurrent chunk_size
  /\ (forall j, nth_error (tasks s) j = Some InFlight ->
        exists i, at_phase s = Gathering i /\ i <= j < i + chunk_size).
Proof.
  intro Hr. pose proof (reachable_coherent _ _ _ s Hr) as C.
  assert (W : forall j, nth_error (tasks s) j = Some InFlight ->
                exists i, at_phase s = Gathering i
                          /\ i <= j < i + chunk_size).
  { intros j Hj.
    apply (unsettled_window sessions movies max_concurrent s j InFlight C Hj).
    now right. }
  split; [|exact W].
  apply Nat.min_glb.
  - destruct C as (Hgate & _). lia.
  - apply (in_flight_window (tasks s) (settled_upto movies (at_phase s))).
    intros j Hj. destruct (W j Hj) as (i & -> & Hi). exact Hi.
Qed.

Lemma at_most_a_chunk_in_flight_witness :
  in_flight [InFlight; Waiting] <= Nat.min 50 chunk_size.
Proof.
  assert (R : reachable example_sessions example_movies 50
                {| gate := 49; tasks := [InFlight; Waiting];
                   at_phase := Gathering 0; all_results := [] |}).
  { apply (reach_step _ _ _
             {| gate := 50;
                tasks := dispatch 0 (map (fun _ => Created) example_movies);
                at_phase := Gathering 0; all_results := [] |}).
    - apply (reach_step _ _ _ (initial example_movies 50));
        [apply reach_initial|].
      apply step_dispatch. exact (le_S _ _ (le_n 1)).
    - apply (step_admit example_sessions example_movies 49
               (dispatch 0 (map (fun _ => Created) example_movies))
               (Gathering 0) [] 0).
      reflexivity. }
  exact (proj1 (at_most_a_chunk_in_flight example_sessions example_movies
                  50 _ R)).
Defined.

(** A gate without slots ([max_concurrent = 0]) admits no task: when
    there is at least one entry, the coordinator never reaches its
    [return]; no task is ever in flight or settled, nothing is
    recorded, and once the first chunk has been dispatched no step is
    possible any more. *)
Theorem no_slot_no_return
  (sessions : nat -> session) (movies : list movie) (s : state) :
  movies <> [] ->
  reachable sessions movies 0 s ->
  finished s = false
  /\ all_results s = []
  /\ (forall j t, nth_error (tasks s) j = Some t ->
                  t = Created \/ t = Waiting)
  /\ (at_phase s = Gathering 0 -> forall s', ~ step sessions movies s s').
Proof.
  intros Hne Hr.
  destruct (no_slot_invariant sessions movies 0 s eq_refl Hne Hr)
    as (Hph & Hres & Htasks).
  split; [unfold finished; destruct Hph as [-> | ->]; reflexivity|].
  split; [exact Hres|]. split; [exact Htasks|].
  intros Hg s' Hstep.
  assert (Hr' : reachable sessions movies 0 s')
    by now apply (reach_step _ _ _ s).
  destruct (no_slot_invariant sessions movies 0 s' eq_refl Hne Hr')
    as (Hph' & _ & Htasks').
  pose proof (reachable_coherent _ _ _ s Hr) as (Hgate & _).
  destruct Hstep; cbn [at_phase tasks gate] in *; try discriminate.
  - lia.
  - destruct (Htasks _ _ H); discriminate.
  - injection Hg as ->.
    destruct (0 + chunk_size <? List.length ts)%nat;
      destruct Hph' as [[=] | [=]].
Qed.

Lemma no_slot_no_return_witness :
  finished {| gate := 0; tasks := [Waiting; Waiting];
              at_phase := Gathering 0; all_results := [] |} = false
  /\ forall s', ~ step example_sessions example_movies
                    {| gate := 0; tasks := [Waiting; Waiting];
                       at_phase := Gathering 0; all_results := [] |} s'.
Proof.
  assert (R : reachable example_sessions example_movies 0
                {| gate := 0; tasks := [Waiting; Waiting];
                   at_phase := Gathering 0; all_results := [] |}).
  { apply (reach_step _ _ _ (initial example_movies 0));
      [apply reach_initial|].
    apply (step_dispatch example_sessions example_movies 0
             [Created; Created] [] 0).
    exact (le_S _ _ (le_n 1)). }
  pose proof (no_slot_no_return example_sessions example_movies _
                ltac:(discriminate) R) as (H1 & _ & _ & H2).
  split; [exact H1 | exact (H2 eq_refl)].
Defined.

End BarrierFacts.
